(** * journal-send.c: the client side of the journal's native protocol

    A shallow embedding of [src/journal/journal-send.c] and a verification
    of its wire format, its shared socket descriptor and its transport.

    Conventions.
    - A C [int] is a [Z]; where an operation can leave the range of the
      type the 32-bit two's complement wrap-around is written out
      ([wrap_int]).  A [size_t] or [uint64_t] is a [Z] reduced modulo
      [2^64] ([wrap_u64]).
    - A byte is a [Byte.byte]; a buffer is a [list byte].
    - An array that the code indexes is a list of slots; a slot that was
      never written holds [None]; an access outside the array, or a read
      of a slot that was never written, is [Fault].
    - The kernel is an oracle [kernel]: the reply to the k-th system call
      of the run.  Every system call is appended to the [trace] of the
      [World].
    - The heap is the set of the blocks that are allocated; whether a
      request for memory is granted is up to an oracle [allocator]. *)

From Stdlib Require Import ZArith List Lia Bool.
From Stdlib Require Import Strings.Byte Strings.String.
From stdpp Require Import base tactics option list relations gmap.
Import ListNotations.

#[local] Open Scope Z_scope.
#[local] Set Warnings "-clear-no-such-hyp".

(* ================================================================= *)
(** ** Machine integers *)

Definition INT_MAX : Z := 2 ^ 31 - 1.
Definition INT_MIN : Z := - 2 ^ 31.

(** Two's complement reduction of a mathematical integer to a C [int]. *)
Definition wrap_int (z : Z) : Z := (z + 2 ^ 31) mod 2 ^ 32 - 2 ^ 31.

(** Reduction to [uint64_t] (and to [size_t] on the 64-bit targets). *)
Definition wrap_u64 (z : Z) : Z := z mod 2 ^ 64.

(** [<errno.h>] on Linux. *)
Definition EINVAL : Z := 22.

(* ================================================================= *)
(** ** Bytes and C strings *)

Definition NUL : byte := x00.
Definition NL : byte := x0a.   (* '\n' *)
Definition EQ : byte := x3d.   (* '=' *)

Definition byte_of_Z (z : Z) : byte :=
  match Byte.of_N (Z.to_N z) with
  | Some b => b
  | None => x00
  end.

Definition Z_of_byte (b : byte) : Z := Z.of_N (Byte.to_N b).

(** The [k] low-order bytes of [v], least significant first. *)
Fixpoint le_bytes (k : nat) (v : Z) : list byte :=
  match k with
  | O => []
  | S k' => byte_of_Z (v mod 256) :: le_bytes k' (v / 256)
  end.

(** The number that a little-endian byte string denotes. *)
Fixpoint le_value (bs : list byte) : Z :=
  match bs with
  | [] => 0
  | b :: bs' => Z_of_byte b + 256 * le_value bs'
  end.

(** [htole64 x]: the object representation of the [uint64_t] that
    [htole64] returns.  On a little-endian host the value is unchanged and
    stored least significant byte first; on a big-endian host the value is
    byte-swapped and stored most significant byte first.  Either way the
    eight bytes in memory are the little-endian digits of [x]. *)
Definition htole64 (x : Z) : list byte := le_bytes 8 (wrap_u64 x).

(** [memchr s c n]: offset of the first [c] among the first [n] bytes of
    [s], or [None] for the null pointer. *)
Fixpoint memchr (s : list byte) (c : byte) (n : nat) : option Z :=
  match n, s with
  | S n', b :: s' =>
      if Byte.eqb b c then Some 0
      else match memchr s' c n' with
           | Some k => Some (k + 1)
           | None => None
           end
  | _, _ => None
  end.

(** [strlen s]: number of bytes before the first NUL. *)
Fixpoint strlen (s : list byte) : Z :=
  match s with
  | [] => 0
  | b :: s' => if Byte.eqb b NUL then 0 else 1 + strlen s'
  end.

(** [memcpy dst src n] overwrites the first [n] bytes of [dst]. *)
Definition memcpy (dst src : list byte) (n : nat) : list byte :=
  take n src ++ drop n dst.

(* ================================================================= *)
(** ** Results of code that can return early or go wrong *)

Inductive res (A : Type) : Type :=
| Ok (a : A)          (* control reaches the next statement *)
| Return (r : Z)      (* [return r;] *)
| Fault.              (* an access outside an object *)
Arguments Ok {A} a.
Arguments Return {A} r.
Arguments Fault {A}.

Definition res_bind {A B} (m : res A) (k : A -> res B) : res B :=
  match m with
  | Ok a => k a
  | Return r => Return r
  | Fault => Fault
  end.

#[global] Instance res_mbind : MBind res := fun A B k m => res_bind m k.
#[global] Instance res_mret : MRet res := fun A a => Ok a.

(** [a[k] = v] on an array of [length a] slots. *)
Definition store {A} (a : list (option A)) (k : Z) (v : A) : res (list (option A)) :=
  if (0 <=? k) && (k <? Z.of_nat (length a))
  then Ok (<[Z.to_nat k := Some v]> a)
  else Fault.

(** [a[k]] as an rvalue. *)
Definition load {A} (a : list (option A)) (k : Z) : res A :=
  if (0 <=? k) && (k <? Z.of_nat (length a))
  then match a !! Z.to_nat k with
       | Some (Some v) => Ok v
       | _ => Fault
       end
  else Fault.

(* ================================================================= *)
(** ** Segments: [struct iovec]

    The caller hands [sd_journal_sendv] an array [iov] of [n] segments.
    The code never copies the bytes they designate, so the embedding
    keeps, for every entry [iov[i]], the [iov[i].iov_len] bytes found at
    [iov[i].iov_base] (a [field]), and a pointer says which object it
    points into. *)

Definition field := list byte.

Inductive ptr : Type :=
| P_iov (i : Z) (off : Z)    (* (char* ) iov[i].iov_base + off *)
| P_str (s : list byte)      (* a string literal, with its NUL *)
| P_l (i : Z).               (* &l[i] *)

Record iovec : Type := { iov_base : ptr; iov_len : Z }.

(** sizeof(uint64_t) *)
Definition sizeof_uint64_t : Z := 8.

(** Modelled from the spec: the macro IOVEC_SET_STRING(i, s) of util.h is
    not among the sources.  The spec calls the segment it builds from
    the literal a "literal `\n` segment" of one byte: the segment starts
    at the string and extends to its terminating NUL. *)
Definition IOVEC_SET_STRING (s : list byte) : iovec :=
  {| iov_base := P_str s; iov_len := strlen s |}.

(** The string literal "\n". *)
Definition lit_newline : list byte := [NL; NUL].

(* ================================================================= *)
(** ** The encoding loop of [sd_journal_sendv] (lines 135-176) *)

(** The locals that the loop updates: the segment array [w], the array
    [l] of length prefixes and the fill count [j]. *)
Record frame : Type := {
  fr_w : list (option iovec);
  fr_l : list (option (list byte));
  fr_j : Z
}.

(** [w[j] = v;  j++] *)
Definition push_w (v : iovec) (st : frame) : res frame :=
  w' ← store (fr_w st) (fr_j st) v;
  Ok {| fr_w := w'; fr_l := fr_l st; fr_j := wrap_int (fr_j st + 1) |}.

(** [l[i] = v] *)
Definition set_l (i : Z) (v : list byte) (st : frame) : res frame :=
  l' ← store (fr_l st) i v;
  Ok {| fr_w := fr_w st; fr_l := l'; fr_j := fr_j st |}.

(** [iov[i]] *)
Definition iov_at (iov : list field) (i : Z) : res field :=
  if 0 <=? i then
    match iov !! Z.to_nat i with
    | Some f => Ok f
    | None => Fault
    end
  else Fault.

(** [iov[i].iov_len] *)
Definition field_len (f : field) : Z := Z.of_nat (length f).

(** One iteration of the loop, for index [i]. *)
Definition encode_field (iov : list field) (i : Z) (st : frame) : res frame :=
  f ← iov_at iov i;
  match memchr f EQ (length f) with
  | None => Return (- EINVAL)
  | Some c =>
      match memchr f NL (length f) with
      | Some nl =>
          if nl <? c then Return (- EINVAL)
          else
            st ← push_w {| iov_base := P_iov i 0; iov_len := c |} st;
            st ← push_w (IOVEC_SET_STRING lit_newline) st;
            st ← set_l i (htole64 (field_len f - c - 1)) st;
            st ← push_w {| iov_base := P_l i; iov_len := sizeof_uint64_t |} st;
            st ← push_w {| iov_base := P_iov i (c + 1);
                           iov_len := wrap_u64 (field_len f - c - 1) |} st;
            push_w (IOVEC_SET_STRING lit_newline) st
      | None =>
          st ← push_w {| iov_base := P_iov i 0; iov_len := field_len f |} st;
          push_w (IOVEC_SET_STRING lit_newline) st
      end
  end.

(** [for (i = 0; i < n; i++)], with [k] iterations to go.  The counter is
    below [n] when it is incremented, so it stays an [int]. *)
Fixpoint encode_loop (k : nat) (iov : list field) (i : Z) (st : frame) : res frame :=
  match k with
  | O => Ok st
  | S k' =>
      st' ← encode_field iov i st;
      encode_loop k' iov (i + 1) st'
  end.

(** The two [alloca]s: [5 * n] segments and [n] length prefixes, none of
    them written yet. *)
Definition alloca_frame (n : Z) : frame :=
  {| fr_w := replicate (Z.to_nat (n * 5)) None;
     fr_l := replicate (Z.to_nat n) None;
     fr_j := 0 |}.

(** The encoder: lines 135-176, for a non-null [iov] and [n > 0]. *)
Definition encode (iov : list field) (n : Z) : res frame :=
  encode_loop (Z.to_nat n) iov 0 (alloca_frame n).

(** What the kernel reads through one segment. *)
Definition read_iovec (iov : list field) (l : list (option (list byte)))
    (v : iovec) : res (list byte) :=
  match iov_base v with
  | P_iov i off =>
      f ← iov_at iov i;
      Ok (take (Z.to_nat (iov_len v)) (drop (Z.to_nat off) f))
  | P_str s => Ok (take (Z.to_nat (iov_len v)) s)
  | P_l i =>
      b ← load l i;
      Ok (take (Z.to_nat (iov_len v)) b)
  end.

(** The byte ranges that [msg_iov[0 .. msg_iovlen)] designate, in order. *)
Fixpoint read_slots (iov : list field) (l : list (option (list byte)))
    (ws : list (option iovec)) : res (list (list byte)) :=
  match ws with
  | [] => Ok []
  | None :: _ => Fault
  | Some v :: ws' =>
      b ← read_iovec iov l v;
      bs ← read_slots iov l ws';
      Ok (b :: bs)
  end.

(** The segments of a finished frame, as the bytes they designate. *)
Definition segments (iov : list field) (st : frame) : res (list (list byte)) :=
  if (0 <=? fr_j st) && (fr_j st <=? Z.of_nat (length (fr_w st)))
  then read_slots iov (fr_l st) (take (Z.to_nat (fr_j st)) (fr_w st))
  else Fault.

(* ================================================================= *)
(** ** The kernel and the world *)

(** The kernel's reply to a system call: the value returned and the value
    of [errno] after a failure. *)
Record sysret : Type := { sys_ret : Z; sys_errno : Z }.

(** The reply to the k-th system call of the run. *)
Definition kernel := nat -> sysret.

Inductive event : Type :=
| E_socket (ret : Z)
| E_close (fd : Z)
| E_sendmsg (fd : Z) (name : list byte) (data : list byte) (ret : Z).

(** The state outside the call: the [static int fd_plus_one] of
    [journal_fd] and the system calls made so far, oldest first. *)
Record World : Type := { fd_plus_one : Z; trace : list event }.

Definition set_fd_plus_one (v : Z) (s : World) : World :=
  {| fd_plus_one := v; trace := trace s |}.

Definition log (e : event) (s : World) : World :=
  {| fd_plus_one := fd_plus_one s; trace := trace s ++ [e] |}.

(** The reply that the next system call gets. *)
Definition reply (K : kernel) (s : World) : sysret := K (length (trace s)).

(** [socket(AF_UNIX, SOCK_DGRAM|SOCK_CLOEXEC, 0)] *)
Definition socket (K : kernel) (s : World) : sysret * World :=
  let r := reply K s in (r, log (E_socket (sys_ret r)) s).

(** Modelled from the spec: close_nointr_nofail of util.c is not among
    the sources.  The spec has the loser of the race discard "its newly
    created socket (closing it without side effects)": the descriptor is
    closed and nothing is reported. *)
Definition close_nointr_nofail (fd : Z) (s : World) : World :=
  log (E_close fd) s.

(** [__sync_bool_compare_and_swap(&fd_plus_one, oldval, newval)] *)
Definition sync_bool_compare_and_swap (oldval newval : Z) (s : World) : bool * World :=
  if fd_plus_one s =? oldval then (true, set_fd_plus_one newval s) else (false, s).

(** The datagrams that left the process: the payloads of the [sendmsg]
    calls that did not fail.  A datagram socket transmits the segments of
    one [sendmsg] as one message or fails without transmitting. *)
Fixpoint datagrams (tr : list event) : list (list byte) :=
  match tr with
  | [] => []
  | E_sendmsg _ _ data ret :: tr' =>
      if ret <? 0 then datagrams tr' else data :: datagrams tr'
  | _ :: tr' => datagrams tr'
  end.

(** The descriptors that [socket] handed out. *)
Fixpoint sockets (tr : list event) : list Z :=
  match tr with
  | [] => []
  | E_socket ret :: tr' => if ret <? 0 then sockets tr' else ret :: sockets tr'
  | _ :: tr' => sockets tr'
  end.

(* ================================================================= *)
(** ** [journal_fd] (lines 35-53) *)

(** One thread running alone.  Every [goto retry] uses one unit of
    [fuel]; [None] is a run that needs more. *)
Fixpoint journal_fd (fuel : nat) (K : kernel) (s : World) : option (Z * World) :=
  match fuel with
  | O => None
  | S fuel' =>
      if 0 <? fd_plus_one s then Some (wrap_int (fd_plus_one s - 1), s)
      else
        let '(r, s1) := socket K s in
        let fd := sys_ret r in
        if fd <? 0 then Some (wrap_int (- sys_errno r), s1)
        else
          match sync_bool_compare_and_swap 0 (wrap_int (fd + 1)) s1 with
          | (false, s2) => journal_fd fuel' K (close_nointr_nofail fd s2)
          | (true, s2) => Some (fd, s2)
          end
  end.

(** The same code as a machine that several threads run at once: a
    program counter per call, named after the line it is about to
    execute, and one atomic action per step. *)
Inductive jfd_pc : Type :=
| L40               (* if (fd_plus_one > 0) *)
| L41               (* return fd_plus_one - 1; *)
| L43               (* fd = socket(...); if (fd < 0) return -errno; *)
| L47 (fd : Z)      (* if (!__sync_bool_compare_and_swap(...)) *)
| L48 (fd : Z)      (* close_nointr_nofail(fd); goto retry; *)
| L_ret (r : Z).    (* returned r *)

(** One step of a call; [r] is the kernel's reply, should the step make a
    system call.  [errno] is per thread, so line 45 reads the value that
    line 43 left. *)
Definition jfd_step (r : sysret) (pc : jfd_pc) (s : World) : jfd_pc * World :=
  match pc with
  | L40 => (if 0 <? fd_plus_one s then L41 else L43, s)
  | L41 => (L_ret (wrap_int (fd_plus_one s - 1)), s)
  | L43 =>
      let fd := sys_ret r in
      (if fd <? 0 then L_ret (wrap_int (- sys_errno r)) else L47 fd,
       log (E_socket fd) s)
  | L47 fd =>
      match sync_bool_compare_and_swap 0 (wrap_int (fd + 1)) s with
      | (false, s') => (L48 fd, s')
      | (true, s') => (L_ret fd, s')
      end
  | L48 fd => (L40, close_nointr_nofail fd s)
  | L_ret v => (L_ret v, s)
  end.

Definition returned (pc : jfd_pc) : bool :=
  match pc with L_ret _ => true | _ => false end.

(** A process: the shared world and the calls of [journal_fd] that have
    begun, in the order in which they began. *)
Record process : Type := { shared : World; calls : list jfd_pc }.

Inductive process_step : process -> process -> Prop :=
| step_begin (p : process) :
    process_step p {| shared := shared p; calls := calls p ++ [L40] |}
| step_run (p : process) (t : nat) (pc : jfd_pc) (r : sysret) :
    calls p !! t = Some pc ->
    returned pc = false ->
    process_step p
      {| shared := (jfd_step r pc (shared p)).2;
         calls := <[t := (jfd_step r pc (shared p)).1]> (calls p) |}.

(** The calls that begin once [d] is published: they are at line 40, at
    line 41, or have returned [d]. *)
Definition late_call (d : Z) (pc : jfd_pc) : Prop :=
  pc = L40 \/ pc = L41 \/ pc = L_ret d.

(** The invariant of a process in which [d] is published, for the calls
    from index [k] on. *)
Definition published (d : Z) (k : nat) (p : process) : Prop :=
  fd_plus_one (shared p) = d + 1 /\
  forall t pc, (k <= t)%nat -> calls p !! t = Some pc -> late_call d pc.

(** A single thread that runs the machine to its end with the replies
    of [K]. *)
Fixpoint jfd_run (steps : nat) (K : kernel) (pc : jfd_pc) (s : World) : jfd_pc * World :=
  match steps with
  | O => (pc, s)
  | S steps' =>
      let '(pc', s') := jfd_step (reply K s) pc s in
      jfd_run steps' K pc' s'
  end.

(* ================================================================= *)
(** ** [sd_journal_sendv] (lines 124-196) *)

(** The path that line 184 copies into [sa.sun_path]. *)
Definition journal_path : list byte :=
  list_byte_of_string "/run/systemd/journal".

(** [sendmsg(fd, &mh, MSG_NOSIGNAL)] with [mh.msg_name] the address
    [name], [mh.msg_iov = w] and [mh.msg_iovlen = j]: the kernel gathers
    the segments and replies. *)
Definition sendmsg (K : kernel) (fd : Z) (name : list byte)
    (iov : list field) (st : frame) (s : World) : res (sysret * World) :=
  segs ← segments iov st;
  let r := reply K s in
  Ok (r, log (E_sendmsg fd name (concat segs) (sys_ret r)) s).

(** [iov = None] is the null pointer.  The result is the value returned
    and the world after the call; [None] stands for a run without a
    defined result ([Fault], or [journal_fd] out of [fuel]). *)
Definition sd_journal_sendv (fuel : nat) (K : kernel)
    (iov : option (list field)) (n : Z) (s : World) : option (Z * World) :=
  match iov with
  | None => Some (- EINVAL, s)
  | Some iov =>
      if n <=? 0 then Some (- EINVAL, s)
      else
        match encode iov n with
        | Return r => Some (r, s)
        | Fault => None
        | Ok st =>
            match journal_fd fuel K s with
            | None => None
            | Some (fd, s1) =>
                if fd <? 0 then Some (fd, s1)
                else
                  match sendmsg K fd (take (Z.to_nat (strlen journal_path)) journal_path)
                                iov st s1 with
                  | Ok (r, s2) =>
                      if sys_ret r <? 0 then Some (wrap_int (- sys_errno r), s2)
                      else Some (0, s2)
                  | _ => None
                  end
            end
        end
  end.

(** A system call that fails leaves a positive [errno]. *)
Definition errno_set (K : kernel) : Prop :=
  forall k, sys_ret (K k) < 0 -> 0 < sys_errno (K k) <= INT_MAX.

(** No system call fails. *)
Definition kernel_succeeds (K : kernel) : Prop :=
  forall k, 0 <= sys_ret (K k).

(* ================================================================= *)
(** ** [sd_journal_printv] and [sd_journal_print] (lines 55-79) *)

(** [<limits.h>] on Linux. *)
Definition LINE_MAX : Z := 2048.

(** sizeof(buffer) for [char buffer[8 + LINE_MAX]] *)
Definition sizeof_buffer : Z := 8 + LINE_MAX.

(** [vsnprintf(dst, size, format, ap)] where [text] is the characters
    that the conversion of [format] with [ap] produces: at most
    [size - 1] of them are stored, followed by a NUL. *)
Definition vsnprintf (dst : list byte) (size : Z) (text : list byte) : list byte :=
  if size <=? 0 then dst
  else
    let out := take (Z.to_nat (size - 1)) text ++ [NUL] in
    memcpy dst out (length out).

(** Modelled from the spec: the macro char_array_0(x) of util.h is not
    among the sources.  The message is "NUL-terminated": the macro
    stores 0 in the last element of the array. *)
Definition char_array_0 (x : list byte) : list byte :=
  <[Nat.pred (length x) := NUL]> x.

(** Lines 70-73.  [buffer] is the array as the call finds it on the
    stack; [text] is what [format] and [ap] expand to. *)
Definition printv_buffer (buffer : list byte) (text : list byte) : list byte :=
  let buffer := memcpy buffer (list_byte_of_string "MESSAGE=") 8 in
  let buffer := take 8 buffer ++ vsnprintf (drop 8 buffer) (sizeof_buffer - 8) text in
  char_array_0 buffer.

(** Lines 75-78.  IOVEC_SET_STRING(iov, buffer) makes the one segment
    handed on: [buffer] up to its first NUL. *)
Definition sd_journal_printv (fuel : nat) (K : kernel)
    (buffer : list byte) (text : list byte) (s : World) : option (Z * World) :=
  let buffer := printv_buffer buffer text in
  let iov := take (Z.to_nat (strlen buffer)) buffer in
  sd_journal_sendv fuel K (Some [iov]) 1 s.

(** [s] up to its first NUL. *)
Definition c_string (s : list byte) : list byte := take (Z.to_nat (strlen s)) s.

(** The field that [sd_journal_printv] hands on, as a function of the
    formatted text: "MESSAGE=" and the first [LINE_MAX - 1] characters of
    the text, up to a NUL if there is one among them. *)
Definition message_field (text : list byte) : field :=
  list_byte_of_string "MESSAGE=" ++ c_string (take (Z.to_nat (LINE_MAX - 1)) text).

(** [va_start], the call, [va_end]. *)
Definition sd_journal_print (fuel : nat) (K : kernel)
    (buffer : list byte) (text : list byte) (s : World) : option (Z * World) :=
  sd_journal_printv fuel K buffer text s.

(* ================================================================= *)
(** ** Fields and the grammar of the wire format *)

(** [bs] up to its first byte that satisfies [stop], that byte, and the
    bytes after it. *)
Fixpoint break (stop : byte -> bool) (bs : list byte)
  : list byte * option (byte * list byte) :=
  match bs with
  | [] => ([], None)
  | b :: bs' =>
      if stop b then ([], Some (b, bs'))
      else let '(pre, post) := break stop bs' in (b :: pre, post)
  end.

Definition is_EQ (b : byte) : bool := Byte.eqb b EQ.
Definition is_NL (b : byte) : bool := Byte.eqb b NL.

(** The name of a field: the bytes before its first '='. *)
Definition field_name (f : field) : list byte := (break is_EQ f).1.

(** The value of a field: the bytes after its first '='. *)
Definition field_value (f : field) : list byte :=
  match (break is_EQ f).2 with
  | Some (_, v) => v
  | None => []
  end.

Definition has_byte (c : byte) (bs : list byte) : bool :=
  existsb (fun b => Byte.eqb b c) bs.

(** The invariant of a Field in the spec: there is an '=', and no '\n'
    comes before the first one. *)
Definition well_formed (f : field) : bool :=
  has_byte EQ f && negb (has_byte NL (field_name f)).

(** The value has an embedded newline. *)
Definition binary_safe (f : field) : bool := has_byte NL (field_value f).

(** Modelled from the spec: the parser of the collector is not among the
    sources.  It follows the grammar of the wire format,
      simple      := NAME "=" VALUE "\n"
      binary_safe := NAME "\n" LEN(u64, little-endian, 8 bytes) VALUE "\n"
    where the byte that ends NAME tells the two forms apart. *)
Definition parse_field (bs : list byte)
  : option ((list byte * list byte) * list byte) :=
  match break (fun b => is_EQ b || is_NL b) bs with
  | (name, Some (d, rest)) =>
      if is_EQ d then
        match break is_NL rest with
        | (value, Some (_, rest')) => Some ((name, value), rest')
        | (_, None) => None
        end
      else
        let len := le_value (take 8 rest) in
        let body := drop 8 rest in
        if (Z.of_nat (length rest) <? 8) || (Z.of_nat (length body) <=? len) then None
        else
          match drop (Z.to_nat len) body with
          | b :: rest' =>
              if is_NL b then Some ((name, take (Z.to_nat len) body), rest')
              else None
          | [] => None
          end
  | (_, None) => None
  end.

(** Modelled from the spec: record := field*.  Every field takes at
    least one byte, so [fuel] as large as the input is enough. *)
Fixpoint parse_fields (fuel : nat) (bs : list byte)
  : option (list (list byte * list byte)) :=
  match bs with
  | [] => Some []
  | _ :: _ =>
      match fuel with
      | O => None
      | S fuel' =>
          match parse_field bs with
          | Some (nv, rest) =>
              match parse_fields fuel' rest with
              | Some nvs => Some (nv :: nvs)
              | None => None
              end
          | None => None
          end
      end
  end.

Definition parse_record (bs : list byte) : option (list (list byte * list byte)) :=
  parse_fields (length bs) bs.

(** The record that a successful [encode] hands to [sendmsg], as one
    byte string. *)
Definition encode_bytes (iov : list field) (n : Z) : res (list byte) :=
  st ← encode iov n;
  segs ← segments iov st;
  Ok (concat segs).

(** The segments that [encode] lays out, as the bytes they designate. *)
Definition encode_segments (iov : list field) (n : Z) : res (list (list byte)) :=
  st ← encode iov n;
  segments iov st.

(** Number of slots of an array that were written. *)
Definition is_written {A} (o : option A) : bool :=
  match o with Some _ => true | None => false end.

Definition written {A} (a : list (option A)) : nat :=
  length (List.filter is_written a).

(** Number of elements that satisfy [p]. *)
Definition count_if {A} (p : A -> bool) (xs : list A) : nat :=
  length (List.filter p xs).

(** A field that the spec calls malformed: no '=' at all, or a '\n'
    before the first '='. *)
Definition malformed (f : field) : Prop :=
  has_byte EQ f = false \/ has_byte NL (field_name f) = true.

(* ================================================================= *)
(** ** The layout that the loop produces, written as functions

    These definitions are not in the source: they describe the frame
    that [encode_loop] is proved to build. *)

(** SIZE_MAX of the 64-bit targets: the largest [iov_len]. *)
Definition SIZE_MAX : Z := 2 ^ 64 - 1.

Definition fits_size_t (f : field) : bool := field_len f <=? SIZE_MAX.

(** Offset of the first '=' of a field. *)
Definition eq_offset (f : field) : Z := Z.of_nat (length (field_name f)).

(** The segments of the field at index [i]. *)
Definition field_iovecs (i : Z) (f : field) : list iovec :=
  if binary_safe f then
    [ {| iov_base := P_iov i 0; iov_len := eq_offset f |};
      IOVEC_SET_STRING lit_newline;
      {| iov_base := P_l i; iov_len := sizeof_uint64_t |};
      {| iov_base := P_iov i (eq_offset f + 1);
         iov_len := wrap_u64 (field_len f - eq_offset f - 1) |};
      IOVEC_SET_STRING lit_newline ]
  else
    [ {| iov_base := P_iov i 0; iov_len := field_len f |};
      IOVEC_SET_STRING lit_newline ].

(** The segments of the fields [fs], the first of which has index [i]. *)
Fixpoint layout (i : Z) (fs : list field) : list iovec :=
  match fs with
  | [] => []
  | f :: fs' => field_iovecs i f ++ layout (i + 1) fs'
  end.

(** The slot of [l] that belongs to a field. *)
Definition prefix_slot (f : field) : option (list byte) :=
  if binary_safe f then Some (htole64 (field_len f - eq_offset f - 1)) else None.

(** A frame with capacities [cw] and [cl] whose first slots hold [ws]
    and [ls]. *)
Definition frame_of (cw cl : nat) (ws : list iovec) (ls : list (option (list byte)))
  : frame :=
  {| fr_w := (Some <$> ws) ++ replicate (cw - length ws) None;
     fr_l := ls ++ replicate (cl - length ls) None;
     fr_j := Z.of_nat (length ws) |}.

(** The byte ranges of one encoded field. *)
Definition field_segments (f : field) : list (list byte) :=
  if binary_safe f then
    [ field_name f; [NL];
      le_bytes 8 (Z.of_nat (length (field_value f)));
      field_value f; [NL] ]
  else [ f; [NL] ].

(** The bytes of an encoded record. *)
Definition wire (fs : list field) : list byte :=
  concat (concat (map field_segments fs)).

(** Name and value of a field. *)
Definition split_field (f : field) : list byte * list byte :=
  (field_name f, field_value f).

(* ================================================================= *)
(** ** Concrete data for the examples *)

Definition bytes (s : string) : list byte := list_byte_of_string s.

(** A kernel whose every call succeeds and returns 3. *)
Definition kernel_fine : kernel := fun _ => {| sys_ret := 3; sys_errno := 0 |}.

(** A kernel whose every call fails with EMFILE. *)
Definition kernel_emfile : kernel := fun _ => {| sys_ret := -1; sys_errno := 24 |}.

(** The world in which the process starts. *)
Definition world0 : World := {| fd_plus_one := 0; trace := [] |}.

(** "a\nb=c\nd": a newline in the name and another in the value. *)
Definition field_nl_both : field := [x61; NL; x62; EQ; x63; NL; x64].

(** "a\nb=c": a newline in the name only. *)
Definition field_nl_name : field := [x61; NL; x62; EQ; x63].

(** "a=b\nc": a newline in the value only. *)
Definition field_nl_value : field := [x61; EQ; x62; NL; x63].

(** "DATA=line1\nline2" *)
Definition field_data : field := bytes "DATA=line1" ++ [NL] ++ bytes "line2".

(** "BLOB=" and a value with a NUL, a newline, bytes that are not UTF-8
    and an '='. *)
Definition field_blob : field := bytes "BLOB=" ++ [x00; NL; xff; xfe; EQ; xc3].

(** A process in which descriptor 3 is published; a second call, which
    began before that, holds the socket 5 that it created and is about to
    try the compare-and-swap. *)
Definition process_racing : process :=
  {| shared := {| fd_plus_one := 4; trace := [E_socket 3; E_socket 5] |};
     calls := [L_ret 3; L47 5] |}.

(** The same process later: the second call lost, closed its socket and
    is back at line 40; a third call began and is at line 41. *)
Definition process_settled : process :=
  {| shared := {| fd_plus_one := 4; trace := [E_socket 3; E_socket 5; E_close 5] |};
     calls := [L_ret 3; L40; L41] |}.

(** A kernel that hands out descriptor 3 and then fails every call
    with ECONNREFUSED (111). *)
Definition kernel_refused : kernel :=
  fun k => match k with
           | O => {| sys_ret := 3; sys_errno := 0 |}
           | S _ => {| sys_ret := -1; sys_errno := 111 |}
           end.

(** A formatted text of 3000 characters with a newline at its end, and
    what the stack holds where [buffer] is placed. *)
Definition long_text : list byte := replicate 2999 x78 ++ [NL].
Definition stack_junk : list byte := replicate 2056 xaa.

(* ================================================================= *)
(** ** Bookkeeping of descriptors

    These definitions are not in the source: they count what the calls
    of [journal_fd] do with the sockets they create. *)

(** The calls of [close] in a trace. *)
Fixpoint closes (tr : list event) : nat :=
  match tr with
  | [] => O
  | E_close _ :: tr' => S (closes tr')
  | _ :: tr' => closes tr'
  end.





(** The descriptors on which [sendmsg] was called. *)
Fixpoint sends_on (tr : list event) : list Z :=
  match tr with
  | [] => []
  | E_sendmsg fd _ _ _ :: tr' => fd :: sends_on tr'
  | _ :: tr' => sends_on tr'
  end.

(** A record on which the loop of lines 138-176 ends without an error. *)
Definition sendable (fs : list field) (n : Z) : Prop :=
  0 < n /\ n = Z.of_nat (length fs) /\ n * 5 <= INT_MAX /\
  forallb well_formed fs = true /\ forallb fits_size_t fs = true.

(** A kernel whose first call fails with EMFILE and whose later calls
    succeed. *)
Definition kernel_late : kernel :=
  fun k => match k with
           | O => {| sys_ret := -1; sys_errno := 24 |}
           | S _ => {| sys_ret := 3; sys_errno := 0 |}
           end.




(** The cached descriptor, if there is one, is a descriptor that [socket]
    returned to this process. *)
Definition cache_sound (s : World) : Prop :=
  fd_plus_one s = 0 \/ In (fd_plus_one s - 1) (sockets (trace s)).

(** The kernel hands out descriptors below [INT_MAX]. *)
Definition descriptors_small (K : kernel) : Prop :=
  forall k, sys_ret (K k) < INT_MAX.

(** A world in which descriptor 3 is published. *)
Definition world_published : World := {| fd_plus_one := 4; trace := [E_socket 3] |}.

(* ================================================================= *)
(** ** The heap: [realloc], [vasprintf], [free]

    A block of the heap is named by a number.  The heap records which
    blocks are allocated; whether a request for memory is granted is up
    to an oracle, like the replies of the kernel.  Freeing a block that
    is not allocated, or reading through a pointer to one, is [Fault]. *)

(** [<errno.h>] on Linux. *)
Definition ENOMEM : Z := 12.

(** Whether the k-th request for memory of the run (a call of [realloc]
    or of [vasprintf]) is granted. *)
Definition allocator := nat -> bool.

(** The number of requests made so far and the blocks that are
    allocated. *)
Record Heap : Type := { requests : nat; live : gset nat }.

(** A request for a new block: the block, or [None] for the null
    pointer. *)
Definition allocate (A : allocator) (h : Heap) : option nat * Heap :=
  let b := requests h in
  if A b then (Some b, {| requests := S b; live := {[ b ]} ∪ live h |})
  else (None, {| requests := S b; live := live h |}).

(** [realloc(p, size)] with [size > 0]: like [malloc] for the null
    pointer; otherwise the contents move to a new block and the old one
    is freed, or, when the request is refused, the null pointer is
    returned and the old block stays as it is. *)
Definition realloc (A : allocator) (p : option nat) (h : Heap) : res (option nat * Heap) :=
  match p with
  | None => Ok (allocate A h)
  | Some b =>
      if decide (b ∈ live h) then
        match allocate A h with
        | (Some c, h') => Ok (Some c, {| requests := requests h'; live := live h' ∖ {[ b ]} |})
        | (None, h') => Ok (None, h')
        end
      else Fault
  end.

(** [free(p)]: nothing for the null pointer. *)
Definition free (p : option nat) (h : Heap) : res Heap :=
  match p with
  | None => Ok h
  | Some b =>
      if decide (b ∈ live h)
      then Ok {| requests := requests h; live := live h ∖ {[ b ]} |}
      else Fault
  end.

(** A [char *] into the heap: the block and the characters in it. *)
Record heap_string : Type := { hs_block : nat; hs_bytes : list byte }.

(** [vasprintf(&buffer, format, ap)] where [text] is the characters that
    the conversion of [format] with [ap] produces: a new block that holds
    them and a NUL, or a negative result ([None]) and no block. *)
Definition vasprintf (A : allocator) (text : list byte) (h : Heap)
    : option heap_string * Heap :=
  match allocate A h with
  | (Some b, h') => (Some {| hs_block := b; hs_bytes := text ++ [NUL] |}, h')
  | (None, h') => (None, h')
  end.

(* ================================================================= *)
(** ** [sd_journal_send] (lines 81-122)

    The arguments are a format, the values it converts, the next format,
    and so on up to a null pointer.  The embedding takes, for every
    format before the null pointer, the characters that its conversion
    produces: [formats]; the end of the list is the null pointer. *)

(** Modelled from the spec: the macro MAX of util.h is not among the
    sources.  The variadic variant "collects an arbitrary number" of
    fields, so the array has to grow with [i]: MAX is the larger of its
    two arguments. *)
Definition MAX (a b : Z) : Z := Z.max a b.

(** An element of the array [iov] of [sd_journal_send]. *)
Record send_iovec : Type := { si_base : heap_string; si_len : Z }.

(** Modelled from the spec: IOVEC_SET_STRING(i, s) of util.h, as above,
    here for a string in the heap. *)
Definition IOVEC_SET_HEAP_STRING (s : heap_string) : send_iovec :=
  {| si_base := s; si_len := strlen (hs_bytes s) |}.

(** The [si_len] bytes at [si_base]. *)
Definition si_field (v : send_iovec) : field :=
  take (Z.to_nat (si_len v)) (hs_bytes (si_base v)).

(** The locals [iov], [n] and [i]; [sf_arr] is what the block [iov]
    holds. *)
Record send_frame : Type := {
  sf_iov : option nat;
  sf_arr : list (option send_iovec);
  sf_n : Z;
  sf_i : Z
}.

(** How control leaves the loop: the condition fails (line 87), or
    [goto fail] with [r] set. *)
Inductive loop_exit : Type :=
| Fell_through
| Goto_fail (r : Z).

(** Lines 91-100.  [false] is [goto fail]. *)
Definition send_grow (A : allocator) (f : send_frame) (h : Heap)
    : res (bool * send_frame * Heap) :=
  if sf_n f <=? sf_i f then
    let n := MAX (wrap_int (sf_i f * 2)) 4 in
    '(c, h1) ← realloc A (sf_iov f) h;
    match c with
    | None =>
        Ok (false,
            {| sf_iov := sf_iov f; sf_arr := sf_arr f; sf_n := n; sf_i := sf_i f |}, h1)
    | Some c =>
        Ok (true,
            {| sf_iov := Some c; sf_arr := resize (Z.to_nat n) None (sf_arr f);
               sf_n := n; sf_i := sf_i f |}, h1)
    end
  else Ok (true, f, h).

(** Lines 102-107.  [false] is [goto fail]. *)
Definition send_add (A : allocator) (text : list byte) (f : send_frame) (h : Heap)
    : res (bool * send_frame * Heap) :=
  match vasprintf A text h with
  | (None, h1) => Ok (false, f, h1)
  | (Some buffer, h1) =>
      arr ← store (sf_arr f) (sf_i f) (IOVEC_SET_HEAP_STRING buffer);
      Ok (true,
          {| sf_iov := sf_iov f; sf_arr := arr; sf_n := sf_n f;
             sf_i := wrap_int (sf_i f + 1) |}, h1)
  end.

(** Lines 87-110. *)
Fixpoint send_loop (A : allocator) (formats : list (list byte))
    (f : send_frame) (h : Heap) : res (loop_exit * send_frame * Heap) :=
  match formats with
  | [] => Ok (Fell_through, f, h)
  | text :: rest =>
      '(go, f1, h1) ← send_grow A f h;
      if go : bool then
        '(go, f2, h2) ← send_add A text f1 h1;
        if go : bool then send_loop A rest f2 h2
        else Ok (Goto_fail (- ENOMEM), f2, h2)
      else Ok (Goto_fail (- ENOMEM), f1, h1)
  end.

(** [iov[j]], ..., for [count] elements. *)
Fixpoint send_entries (arr : list (option send_iovec)) (j : Z) (count : nat)
    : res (list send_iovec) :=
  match count with
  | O => Ok []
  | S count' =>
      v ← load arr j;
      vs ← send_entries arr (j + 1) count';
      Ok (v :: vs)
  end.

(** The fields that [iov] and [i] designate at line 113, as
    [sd_journal_sendv] takes them: the null pointer, or the first [i]
    elements of the array, each a string in an allocated block. *)
Definition send_fields (f : send_frame) (h : Heap) : res (option (list field)) :=
  match sf_iov f with
  | None => Ok None
  | Some b =>
      if decide (b ∈ live h) then
        vs ← send_entries (sf_arr f) 0 (Z.to_nat (sf_i f));
        if forallb (fun v => bool_decide (hs_block (si_base v) ∈ live h)) vs
        then Ok (Some (si_field <$> vs))
        else Fault
      else Fault
  end.

(** Lines 116-117, from [j] on, for [count] iterations. *)
Fixpoint send_free_strings (arr : list (option send_iovec)) (j : Z) (count : nat)
    (h : Heap) : res Heap :=
  match count with
  | O => Ok h
  | S count' =>
      v ← load arr j;
      h1 ← free (Some (hs_block (si_base v))) h;
      send_free_strings arr (wrap_int (j + 1)) count' h1
  end.

(** Lines 115-119. *)
Definition send_cleanup (f : send_frame) (h : Heap) : res Heap :=
  h1 ← send_free_strings (sf_arr f) 0 (Z.to_nat (sf_i f)) h;
  free (sf_iov f) h1.

(** The result is the value returned, the world and the heap after the
    call. *)
Definition sd_journal_send (fuel : nat) (A : allocator) (K : kernel)
    (formats : list (list byte)) (s : World) (h : Heap) : option (Z * World * Heap) :=
  let f0 := {| sf_iov := None; sf_arr := []; sf_n := 0; sf_i := 0 |} in
  match send_loop A formats f0 h with
  | Ok (e, f, h1) =>
      let sent :=
        match e with
        | Goto_fail r => Some (r, s)
        | Fell_through =>
            match send_fields f h1 with
            | Ok iov => sd_journal_sendv fuel K iov (sf_i f) s
            | _ => None
            end
        end in
      match sent with
      | Some (r, s') =>
          match send_cleanup f h1 with
          | Ok h2 => Some (r, s', h2)
          | _ => None
          end
      | None => None
      end
  | _ => None
  end.

(** The heap before the first request. *)
Definition heap0 : Heap := {| requests := 0; live := ∅ |}.

(** Every request is granted. *)
Definition allocator_fine : allocator := fun _ => true.

(** The fourth request is refused, every other is granted. *)
Definition allocator_tight : allocator := fun k => negb (k =? 3)%nat.

(** Five fields. *)
Definition five_fields : list (list byte) :=
  [bytes "MESSAGE=hello"; bytes "PRIORITY=6"; bytes "A=1"; bytes "B=2"; bytes "C=3"].

(* ================================================================= *)
(** ** Bookkeeping of the heap

    These definitions are not in the source: they say which blocks a
    running call of [sd_journal_send] owns. *)

(** The blocks of the strings that the elements [es] point to. *)
Definition string_blocks (es : list send_iovec) : list nat :=
  (fun v => hs_block (si_base v)) <$> es.

(** The block of the array, if there is one. *)
Definition array_block (f : send_frame) : gset nat :=
  match sf_iov f with
  | Some c => {[ c ]}
  | None => ∅
  end.

(** No allocated block is named by a number that a later request can
    return. *)
Definition heap_ok (h : Heap) : Prop :=
  forall b, b ∈ live h -> (b < requests h)%nat.

(** What the call owns while it runs: the first [i] elements of the
    array are [es], their strings and the array are distinct allocated
    blocks, and the other allocated blocks are those of the caller,
    [base]. *)
Record send_owns (base : gset nat) (f : send_frame) (h : Heap)
    (es : list send_iovec) : Prop := {
  owns_i : sf_i f = Z.of_nat (length es);
  owns_arr : take (length es) (sf_arr f) = Some <$> es;
  owns_len : (length es <= length (sf_arr f))%nat;
  owns_null : sf_iov f = None -> sf_arr f = [];
  owns_nodup : NoDup (string_blocks es);
  owns_live : live h = base ∪ array_block f ∪ list_to_set (string_blocks es);
  owns_base : base ## array_block f ∪ list_to_set (string_blocks es);
  owns_array : array_block f ## list_to_set (string_blocks es);
  owns_fresh : heap_ok h
}.


(* ================================================================= *)
(** * Proofs *)

(** [test_is b v]: the test [b] on integers, which the hypotheses decide,
    is replaced by its value [v]. *)
Ltac test_is b v :=
  replace b with v
    by (symmetry;
        first [ apply Z.ltb_lt | apply Z.ltb_ge | apply Z.leb_le | apply Z.leb_gt
              | apply Z.eqb_eq | apply Z.eqb_neq
              | apply andb_true_iff; split;
                first [ apply Z.leb_le | apply Z.ltb_lt ] ];
        lia).

(* ================================================================= *)
(** ** Integers and bytes *)

Lemma wrap_int_id (z : Z) : INT_MIN <= z <= INT_MAX -> wrap_int z = z.
Proof.
  unfold wrap_int, INT_MIN, INT_MAX. intros Hz.
  rewrite Z.mod_small; lia.
Qed.

Lemma wrap_u64_id (z : Z) : 0 <= z <= SIZE_MAX -> wrap_u64 z = z.
Proof.
  unfold wrap_u64, SIZE_MAX. intros Hz. apply Z.mod_small. lia.
Qed.

Lemma byte_eqb_true (a b : byte) : Byte.eqb a b = true <-> a = b.
Proof.
  split; [apply Byte.byte_dec_bl | apply Byte.byte_dec_lb].
Qed.

Lemma Z_of_byte_range (b : byte) : 0 <= Z_of_byte b < 256.
Proof.
  unfold Z_of_byte. pose proof (Byte.to_N_bounded b). lia.
Qed.

Lemma Z_of_byte_of_Z (z : Z) : 0 <= z < 256 -> Z_of_byte (byte_of_Z z) = z.
Proof.
  intros Hz. unfold Z_of_byte, byte_of_Z.
  destruct (Byte.of_N (Z.to_N z)) as [b|] eqn:E.
  - apply Byte.to_of_N in E. rewrite E. lia.
  - apply Byte.of_N_None_iff in E. lia.
Qed.

Lemma length_le_bytes (k : nat) (v : Z) : length (le_bytes k v) = k.
Proof.
  revert v. induction k as [|k IH]; intros v; simpl; [reflexivity|].
  now rewrite IH.
Qed.

(** Decoding undoes encoding on the numbers that fit in [k] bytes. *)
Lemma le_value_le_bytes (k : nat) (v : Z) :
  0 <= v < 256 ^ Z.of_nat k -> le_value (le_bytes k v) = v.
Proof.
  revert v. induction k as [|k IH]; intros v Hv.
  - simpl in *. lia.
  - cbn [le_bytes le_value].
    rewrite Z_of_byte_of_Z by (apply Z.mod_pos_bound; lia).
    rewrite IH.
    + pose proof (Z.div_mod v 256). lia.
    + rewrite Nat2Z.inj_succ, Z.pow_succ_r in Hv by lia.
      split; [apply Z.div_pos; lia|].
      apply Z.div_lt_upper_bound; lia.
Qed.

Lemma le_value_htole64 (x : Z) :
  0 <= x <= SIZE_MAX -> le_value (htole64 x) = x.
Proof.
  intros Hx. unfold htole64. rewrite wrap_u64_id by assumption.
  apply le_value_le_bytes. unfold SIZE_MAX in Hx.
  change (256 ^ Z.of_nat 8) with (2 ^ 64). lia.
Qed.

(* ================================================================= *)
(** ** Searching a buffer *)

Section Break.

Variable stop : byte -> bool.

Lemma break_app (pre : list byte) (b : byte) (post : list byte) :
  forallb (fun x => negb (stop x)) pre = true ->
  stop b = true ->
  break stop (pre ++ b :: post) = (pre, Some (b, post)).
Proof.
  induction pre as [|x pre IH]; simpl; intros Hpre Hb.
  - now rewrite Hb.
  - apply andb_true_iff in Hpre as [Hx Hpre].
    apply negb_true_iff in Hx. rewrite Hx, IH by assumption. reflexivity.
Qed.

Lemma break_Some (s pre : list byte) (b : byte) (post : list byte) :
  break stop s = (pre, Some (b, post)) ->
  s = pre ++ b :: post /\ stop b = true /\
  forallb (fun x => negb (stop x)) pre = true.
Proof.
  revert pre. induction s as [|x s IH]; simpl; intros pre H; [discriminate|].
  destruct (stop x) eqn:Hx.
  - injection H as <- <- <-. auto.
  - destruct (break stop s) as [pre' post'] eqn:E.
    injection H as <- ->.
    destruct (IH pre' eq_refl) as (-> & Hb & Hpre).
    simpl. rewrite Hx. auto.
Qed.

Lemma break_None (s pre : list byte) :
  break stop s = (pre, None) -> pre = s /\ existsb stop s = false.
Proof.
  revert pre. induction s as [|x s IH]; simpl; intros pre H.
  - injection H as <-. auto.
  - destruct (stop x) eqn:Hx; [discriminate|].
    destruct (break stop s) as [pre' post'] eqn:E.
    injection H as <- ->.
    destruct (IH pre' eq_refl) as [-> Hs]. auto.
Qed.

Lemma break_none_intro (s : list byte) :
  existsb stop s = false -> break stop s = (s, None).
Proof.
  induction s as [|x s IH]; simpl; intros H; [reflexivity|].
  apply orb_false_iff in H as [Hx Hs]. now rewrite Hx, IH.
Qed.

Lemma break_cases (s : list byte) :
  (existsb stop s = false /\ break stop s = (s, None)) \/
  (exists pre b post,
      s = pre ++ b :: post /\ stop b = true /\
      forallb (fun x => negb (stop x)) pre = true /\
      break stop s = (pre, Some (b, post))).
Proof.
  destruct (break stop s) as [pre [[b post]|]] eqn:E.
  - right. exists pre, b, post.
    apply break_Some in E as (? & ? & ?). auto.
  - left. apply break_None in E as [-> ?]. auto.
Qed.

End Break.

(** [memchr] over the whole buffer finds what [break] finds. *)
Lemma memchr_break (c : byte) (s : list byte) :
  memchr s c (length s) =
  match break (fun b => Byte.eqb b c) s with
  | (pre, Some _) => Some (Z.of_nat (length pre))
  | (_, None) => None
  end.
Proof.
  induction s as [|x s IH]; simpl; [reflexivity|].
  destruct (Byte.eqb x c); [reflexivity|].
  rewrite IH. destruct (break _ s) as [pre [p|]]; [|reflexivity].
  simpl. f_equal. lia.
Qed.

Lemma has_byte_app (c : byte) (a b : list byte) :
  has_byte c (a ++ b) = has_byte c a || has_byte c b.
Proof. unfold has_byte. apply existsb_app. Qed.

Lemma has_byte_false_forallb (c : byte) (s : list byte) :
  has_byte c s = false ->
  forallb (fun x => negb (Byte.eqb x c)) s = true.
Proof.
  unfold has_byte. induction s as [|x s IH]; simpl; [reflexivity|].
  intros H. apply orb_false_iff in H as [Hx Hs].
  rewrite Hx, IH by assumption. reflexivity.
Qed.

Lemma forallb_has_byte_false (c : byte) (s : list byte) :
  forallb (fun x => negb (Byte.eqb x c)) s = true ->
  has_byte c s = false.
Proof.
  unfold has_byte. induction s as [|x s IH]; simpl; [reflexivity|].
  intros H. apply andb_true_iff in H as [Hx Hs].
  apply negb_true_iff in Hx. rewrite Hx, IH by assumption. reflexivity.
Qed.

(** A field with an '=' splits into its name, the '=' and its value. *)
Lemma field_split (f : field) :
  has_byte EQ f = true ->
  f = field_name f ++ EQ :: field_value f /\ has_byte EQ (field_name f) = false.
Proof.
  unfold field_name, field_value, has_byte. intros H.
  destruct (break is_EQ f) as [pre [[b post]|]] eqn:E.
  - apply break_Some in E as (-> & Hb & Hpre).
    apply byte_eqb_true in Hb as ->. simpl.
    split; [reflexivity|]. now apply forallb_has_byte_false.
  - apply break_None in E as [_ E]. unfold is_EQ in E. congruence.
Qed.

(** The name and the value of [name ++ EQ :: value]. *)
Lemma field_name_value (name value : list byte) :
  has_byte EQ name = false ->
  field_name (name ++ EQ :: value) = name /\
  field_value (name ++ EQ :: value) = value.
Proof.
  intros H. unfold field_name, field_value.
  rewrite (break_app is_EQ name EQ value)
    by (try apply has_byte_false_forallb; auto).
  auto.
Qed.

(** Line 141: the offset of the '=' that the code finds. *)
Lemma memchr_EQ (f : field) :
  memchr f EQ (length f) =
  if has_byte EQ f then Some (eq_offset f) else None.
Proof.
  rewrite memchr_break. unfold eq_offset, field_name, has_byte.
  change (fun b => Byte.eqb b EQ) with is_EQ.
  destruct (break_cases is_EQ f) as [[Hn ->]|(pre & b & post & -> & Hb & Hpre & ->)].
  - now rewrite Hn.
  - rewrite existsb_app. simpl. rewrite Hb, orb_true_r. reflexivity.
Qed.

(** Line 145: where the first newline of a field with an '=' lies. *)
Lemma memchr_NL (f : field) :
  has_byte EQ f = true ->
  match memchr f NL (length f) with
  | None => has_byte NL (field_name f) = false /\ binary_safe f = false
  | Some nl =>
      (nl < eq_offset f /\ has_byte NL (field_name f) = true) \/
      (eq_offset f < nl /\ has_byte NL (field_name f) = false /\
       binary_safe f = true)
  end.
Proof.
  intros HEQ. destruct (field_split f HEQ) as [Hf Hname].
  unfold binary_safe, eq_offset.
  set (name := field_name f) in *. set (value := field_value f) in *.
  clearbody name value. subst f. rewrite memchr_break.
  change (fun b => Byte.eqb b NL) with is_NL.
  destruct (break_cases is_NL name)
    as [[Hn _]|(a & b & post & -> & Hb & Ha & _)].
  - destruct (break_cases is_NL value)
      as [[Hv _]|(a & b & post & -> & Hb & Ha & _)].
    + rewrite break_none_intro.
      * auto.
      * rewrite existsb_app. simpl. now rewrite Hn, Hv.
    + replace (name ++ EQ :: a ++ b :: post)
        with ((name ++ EQ :: a) ++ b :: post)
        by (now rewrite <- app_assoc).
      rewrite (break_app is_NL (name ++ EQ :: a) b post).
      * right. rewrite length_app. simpl. split; [lia|].
        split; [exact Hn|]. unfold has_byte.
        rewrite existsb_app. simpl.
        change (Byte.eqb b NL) with (is_NL b).
        now rewrite Hb, orb_true_r.
      * rewrite forallb_app. simpl. rewrite Ha, andb_true_r.
        clear -Hn. induction name as [|x name IH]; simpl in *; [reflexivity|].
        apply orb_false_iff in Hn as [Hx Hn]. now rewrite Hx, IH.
      * exact Hb.
  - rewrite <- app_assoc. simpl.
    rewrite (break_app is_NL a b (post ++ EQ :: value)) by assumption.
    left. rewrite length_app. simpl. split; [lia|].
    unfold has_byte. rewrite existsb_app. simpl.
    change (Byte.eqb b NL) with (is_NL b). now rewrite Hb, orb_true_r.
Qed.

(* ================================================================= *)
(** ** One iteration of the loop *)

(** Frames of capacities [cw] and [cl]. *)
Section Frame.

Variables cw cl : nat.

Lemma length_frame_w ws ls :
  (length ws <= cw)%nat -> length (fr_w (frame_of cw cl ws ls)) = cw.
Proof.
  intros H. simpl. rewrite length_app, length_fmap, length_replicate. lia.
Qed.

Lemma length_frame_l ws ls :
  (length ls <= cl)%nat -> length (fr_l (frame_of cw cl ws ls)) = cl.
Proof.
  intros H. simpl. rewrite length_app, length_replicate. lia.
Qed.

(** [w[j++] = v] fills the next free slot. *)
Lemma push_w_frame_of ws ls (v : iovec) :
  (length ws < cw)%nat ->
  Z.of_nat (length ws) + 1 <= INT_MAX ->
  push_w v (frame_of cw cl ws ls) = Ok (frame_of cw cl (ws ++ [v]) ls).
Proof.
  intros Hcap Hint. unfold push_w, store.
  rewrite length_frame_w by lia.
  cbn [frame_of fr_w fr_l fr_j].
  test_is ((0 <=? Z.of_nat (length ws)) && (Z.of_nat (length ws) <? Z.of_nat cw)) true.
  cbn [mbind res_mbind res_bind].
  rewrite Nat2Z.id.
  rewrite wrap_int_id by (unfold INT_MIN, INT_MAX in *; lia).
  unfold frame_of. f_equal. f_equal.
  - rewrite insert_app_r_alt by (rewrite length_fmap; lia).
    rewrite length_fmap, Nat.sub_diag.
    destruct (cw - length ws)%nat as [|m] eqn:E; [lia|].
    rewrite fmap_app, <- app_assoc. simpl. do 3 f_equal.
    rewrite length_app. simpl. lia.
  - rewrite length_app. simpl. lia.
Qed.

(** [l[i] = v] fills the slot of the current field. *)
Lemma set_l_frame_of ws ls (v : list byte) :
  (length ls < cl)%nat ->
  set_l (Z.of_nat (length ls)) v (frame_of cw cl ws ls)
  = Ok (frame_of cw cl ws (ls ++ [Some v])).
Proof.
  intros Hcap. unfold set_l, store.
  rewrite length_frame_l by lia.
  cbn [frame_of fr_w fr_l fr_j].
  test_is ((0 <=? Z.of_nat (length ls)) && (Z.of_nat (length ls) <? Z.of_nat cl)) true.
  cbn [mbind res_mbind res_bind].
  rewrite Nat2Z.id. unfold frame_of. f_equal. f_equal.
  rewrite insert_app_r_alt by lia. rewrite Nat.sub_diag.
  destruct (cl - length ls)%nat as [|m] eqn:E; [lia|].
  rewrite <- app_assoc. simpl. do 3 f_equal.
  rewrite length_app. simpl. lia.
Qed.

(** A slot of [l] that stays as it was allocated. *)
Lemma skip_l_frame_of ws ls :
  (length ls < cl)%nat ->
  frame_of cw cl ws ls = frame_of cw cl ws (ls ++ [None]).
Proof.
  intros Hcap. unfold frame_of. f_equal.
  destruct (cl - length ls)%nat as [|m] eqn:E; [lia|].
  rewrite <- app_assoc. simpl. do 3 f_equal.
  rewrite length_app. simpl. lia.
Qed.

End Frame.

Lemma iov_at_lookup (iov : list field) (i : nat) (f : field) :
  iov !! i = Some f -> iov_at iov (Z.of_nat i) = Ok f.
Proof.
  intros H. unfold iov_at.
  test_is (0 <=? Z.of_nat i) true.
  now rewrite Nat2Z.id, H.
Qed.

(** Lines 141-148: a field that is not well formed ends the call. *)
Lemma encode_field_bad (iov : list field) (i : nat) (f : field) (st : frame) :
  iov !! i = Some f ->
  well_formed f = false ->
  encode_field iov (Z.of_nat i) st = Return (- EINVAL).
Proof.
  intros Hi Hwf. unfold encode_field.
  rewrite (iov_at_lookup _ _ _ Hi). cbn [mbind res_mbind res_bind].
  rewrite memchr_EQ. unfold well_formed in Hwf.
  destruct (has_byte EQ f) eqn:HEQ; [|reflexivity].
  simpl in Hwf. apply negb_false_iff in Hwf.
  pose proof (memchr_NL f HEQ) as HNL.
  destruct (memchr f NL (length f)) as [nl|].
  - destruct HNL as [[Hlt _]|(_ & Hn & _)]; [|congruence].
    test_is (nl <? eq_offset f) true.
    reflexivity.
  - destruct HNL as [Hn _]. congruence.
Qed.

(** Lines 150-175: a well-formed field adds its segments. *)
Lemma encode_field_ok (iov : list field) (f : field) (cw cl : nat) ws ls :
  iov !! length ls = Some f ->
  well_formed f = true ->
  (length ls < cl)%nat ->
  (length ws + 5 <= cw)%nat ->
  Z.of_nat (length ws) + 5 <= INT_MAX ->
  encode_field iov (Z.of_nat (length ls)) (frame_of cw cl ws ls)
  = Ok (frame_of cw cl (ws ++ field_iovecs (Z.of_nat (length ls)) f)
                       (ls ++ [prefix_slot f])).
Proof.
  intros Hi Hwf Hcl Hcw Hint. unfold encode_field.
  rewrite (iov_at_lookup _ _ _ Hi). cbn [mbind res_mbind res_bind].
  rewrite memchr_EQ. unfold well_formed in Hwf.
  apply andb_true_iff in Hwf as [HEQ Hname]. apply negb_true_iff in Hname.
  rewrite HEQ. pose proof (memchr_NL f HEQ) as HNL.
  unfold field_iovecs, prefix_slot.
  destruct (memchr f NL (length f)) as [nl|].
  - destruct HNL as [[_ Hn]|(Hlt & _ & Hbin)]; [congruence|].
    test_is (nl <? eq_offset f) false.
    rewrite Hbin.
    rewrite push_w_frame_of by lia. cbn [mbind res_mbind res_bind].
    rewrite push_w_frame_of by (rewrite ?length_app; simpl; lia).
    cbn [mbind res_mbind res_bind].
    rewrite set_l_frame_of by lia. cbn [mbind res_mbind res_bind].
    rewrite push_w_frame_of by (rewrite ?length_app; simpl; lia).
    cbn [mbind res_mbind res_bind].
    rewrite push_w_frame_of by (rewrite ?length_app; simpl; lia).
    cbn [mbind res_mbind res_bind].
    rewrite push_w_frame_of by (rewrite ?length_app; simpl; lia).
    rewrite <- !app_assoc. reflexivity.
  - destruct HNL as [_ Hbin]. rewrite Hbin.
    rewrite push_w_frame_of by lia. cbn [mbind res_mbind res_bind].
    rewrite push_w_frame_of by (rewrite ?length_app; simpl; lia).
    rewrite <- !app_assoc. simpl.
    now rewrite <- skip_l_frame_of by lia.
Qed.

Lemma length_field_iovecs (i : Z) (f : field) :
  length (field_iovecs i f) = if binary_safe f then 5%nat else 2%nat.
Proof. unfold field_iovecs. now destruct (binary_safe f). Qed.

Lemma length_field_iovecs_le (i : Z) (f : field) :
  (length (field_iovecs i f) <= 5)%nat.
Proof. rewrite length_field_iovecs. destruct (binary_safe f); lia. Qed.

(* ================================================================= *)
(** ** The loop *)

(** The loop over well-formed fields [fs] of [iov], started at the index
    of the first of them, ends in the frame that [layout] describes. *)
Lemma encode_loop_run (iov : list field) (cw cl : nat) (fs : list field) :
  forall (k : nat) ws ls,
    (forall m f, fs !! m = Some f -> iov !! (length ls + m)%nat = Some f) ->
    forallb well_formed fs = true ->
    (length ls + length fs <= cl)%nat ->
    (length ws + 5 * length fs <= cw)%nat ->
    Z.of_nat (length ws) + 5 * Z.of_nat (length fs) <= INT_MAX ->
    encode_loop (length fs + k) iov (Z.of_nat (length ls)) (frame_of cw cl ws ls)
    = encode_loop k iov (Z.of_nat (length ls + length fs))
        (frame_of cw cl (ws ++ layout (Z.of_nat (length ls)) fs)
                        (ls ++ map prefix_slot fs)).
Proof.
  induction fs as [|f fs IH]; intros k ws ls Hsub Hwf Hcl Hcw Hint.
  - simpl. now rewrite !app_nil_r, Nat.add_0_r.
  - simpl in Hwf. apply andb_true_iff in Hwf as [Hf Hwf].
    cbn [length] in *. cbn [Nat.add encode_loop].
    rewrite (encode_field_ok iov f); try lia; try assumption.
    2: { specialize (Hsub 0%nat f eq_refl). now rewrite Nat.add_0_r in Hsub. }
    cbn [mbind res_mbind res_bind].
    pose proof (length_field_iovecs_le (Z.of_nat (length ls)) f) as H5.
    replace (Z.of_nat (length ls) + 1)
      with (Z.of_nat (length (ls ++ [prefix_slot f])))
      by (rewrite length_app; simpl; lia).
    rewrite IH.
    + rewrite length_app. cbn [length layout map].
      rewrite <- !app_assoc. cbn [app].
      replace (Z.of_nat (length ls + 1)) with (Z.of_nat (length ls) + 1) by lia.
      replace (length ls + 1 + length fs)%nat
        with (length ls + S (length fs))%nat by lia.
      reflexivity.
    + intros m g Hg. rewrite length_app. cbn [length].
      replace (length ls + 1 + m)%nat with (length ls + S m)%nat by lia.
      now apply Hsub.
    + exact Hwf.
    + rewrite length_app. cbn [length]. lia.
    + rewrite length_app. lia.
    + rewrite length_app. lia.
Qed.

(** [encode] on a record of well-formed fields. *)
Lemma encode_ok (iov : list field) (n : Z) :
  n = Z.of_nat (length iov) ->
  n * 5 <= INT_MAX ->
  forallb well_formed iov = true ->
  encode iov n
  = Ok (frame_of (5 * length iov) (length iov) (layout 0 iov) (map prefix_slot iov)).
Proof.
  intros -> Hint Hwf. unfold encode, alloca_frame.
  rewrite Nat2Z.id.
  replace (Z.to_nat (Z.of_nat (length iov) * 5)) with (5 * length iov)%nat by lia.
  pose proof (encode_loop_run iov (5 * length iov) (length iov) iov 0 [] []) as H.
  cbn [length app Nat.add Z.of_nat encode_loop] in H.
  rewrite Nat.add_0_r in H.
  unfold frame_of in H at 1. cbn [length fmap list_fmap app Z.of_nat] in H.
  rewrite !Nat.sub_0_r in H. apply H; try assumption; try lia.
  intros m f Hm. exact Hm.
Qed.

(** [encode] on a record whose first field that is not well formed has
    index [length pre]: whatever follows that field, and however many
    fields the caller announced. *)
Lemma encode_bad (pre : list field) (bad : field) (post : list field) (n : Z) :
  forallb well_formed pre = true ->
  well_formed bad = false ->
  Z.of_nat (length pre) < n ->
  n * 5 <= INT_MAX ->
  encode (pre ++ bad :: post) n = Return (- EINVAL).
Proof.
  intros Hpre Hbad Hn Hint. unfold encode, alloca_frame.
  set (iov := pre ++ bad :: post).
  set (st0 := {| fr_w := replicate (Z.to_nat (n * 5)) None;
                 fr_l := replicate (Z.to_nat n) None; fr_j := 0 |}).
  replace (Z.to_nat n) with (length pre + S (Z.to_nat n - length pre - 1))%nat by lia.
  subst st0.
  pose proof (encode_loop_run iov (Z.to_nat (n * 5)) (Z.to_nat n) pre
                (S (Z.to_nat n - length pre - 1)) [] []) as H.
  unfold frame_of in H at 1. cbn [length fmap list_fmap app Z.of_nat Nat.add] in H.
  change (Z.of_nat 0) with 0 in H.
  rewrite !Nat.sub_0_r in H. rewrite H; try assumption; try lia.
  - cbn [encode_loop].
    rewrite (encode_field_bad iov (length pre) bad); [reflexivity| |assumption].
    unfold iov. rewrite lookup_app_r by lia. now rewrite Nat.sub_diag.
  - intros m f Hm. unfold iov. now apply lookup_app_l_Some.
Qed.

Lemma forallb_false_split {A} (p : A -> bool) (xs : list A) :
  forallb p xs = false ->
  exists pre bad post,
    xs = pre ++ bad :: post /\ forallb p pre = true /\ p bad = false.
Proof.
  induction xs as [|x xs IH]; simpl; intros H; [discriminate|].
  destruct (p x) eqn:Hx.
  - destruct (IH H) as (pre & bad & post & -> & Hpre & Hbad).
    exists (x :: pre), bad, post. simpl. now rewrite Hx.
  - exists [], x, xs. auto.
Qed.

(* ================================================================= *)
(** ** What the segments designate *)

Lemma IOVEC_SET_STRING_newline :
  IOVEC_SET_STRING lit_newline = {| iov_base := P_str [NL; NUL]; iov_len := 1 |}.
Proof. reflexivity. Qed.

Lemma load_lookup {A} (a : list (option A)) (i : nat) (v : A) :
  a !! i = Some (Some v) -> load a (Z.of_nat i) = Ok v.
Proof.
  intros H. unfold load. pose proof (lookup_lt_Some _ _ _ H) as Hlt.
  test_is ((0 <=? Z.of_nat i) && (Z.of_nat i <? Z.of_nat (length a))) true.
  now rewrite Nat2Z.id, H.
Qed.

(** The length of a field with an '='. *)
Lemma field_len_split (f : field) :
  has_byte EQ f = true ->
  field_len f = eq_offset f + 1 + Z.of_nat (length (field_value f)).
Proof.
  intros H. destruct (field_split f H) as [Hf _].
  unfold field_len, eq_offset. rewrite Hf at 1.
  rewrite length_app. cbn [length]. lia.
Qed.

Lemma take_field_name (f : field) :
  has_byte EQ f = true ->
  take (Z.to_nat (eq_offset f)) f = field_name f.
Proof.
  intros H. destruct (field_split f H) as [Hf _].
  unfold eq_offset. rewrite Nat2Z.id.
  transitivity (take (length (field_name f)) (field_name f ++ EQ :: field_value f)).
  - now rewrite <- Hf.
  - apply take_app_length.
Qed.

Lemma drop_field_value (f : field) :
  has_byte EQ f = true ->
  drop (Z.to_nat (eq_offset f + 1)) f = field_value f.
Proof.
  intros H. destruct (field_split f H) as [Hf _].
  unfold eq_offset.
  replace (Z.to_nat (Z.of_nat (length (field_name f)) + 1))
    with (length (field_name f ++ [EQ])) by (rewrite length_app; simpl; lia).
  transitivity (drop (length (field_name f ++ [EQ]))
                  ((field_name f ++ [EQ]) ++ field_value f)).
  - rewrite <- app_assoc. cbn [app]. now rewrite <- Hf.
  - apply drop_app_length.
Qed.

(** The segments of one well-formed field designate [field_segments]. *)
Lemma read_slots_field (iov : list field) (l : list (option (list byte)))
    (i : nat) (f : field) (rest : list iovec) :
  iov !! i = Some f ->
  l !! i = Some (prefix_slot f) ->
  well_formed f = true ->
  fits_size_t f = true ->
  read_slots iov l (Some <$> (field_iovecs (Z.of_nat i) f ++ rest))
  = (bs ← read_slots iov l (Some <$> rest); Ok (field_segments f ++ bs)).
Proof.
  intros Hi Hl Hwf Hfit.
  apply andb_true_iff in Hwf as [HEQ _].
  pose proof (field_len_split f HEQ) as Hlen.
  destruct (field_split f HEQ) as [Hf _].
  apply Z.leb_le in Hfit.
  assert (Hoff : 0 <= eq_offset f) by (unfold eq_offset; lia).
  unfold field_iovecs, field_segments, prefix_slot in *.
  destruct (binary_safe f).
  - rewrite IOVEC_SET_STRING_newline.
    cbn [app fmap list_fmap read_slots read_iovec iov_base iov_len].
    rewrite (iov_at_lookup _ _ _ Hi), (load_lookup _ _ _ Hl).
    destruct (read_slots iov l (Some <$> rest)) as [bs| |];
      cbn [mbind res_mbind res_bind]; try reflexivity.
    assert (Hw : wrap_u64 (field_len f - eq_offset f - 1)
                 = Z.of_nat (length (field_value f)))
      by (rewrite wrap_u64_id; lia).
    unfold htole64. rewrite Hw.
    change (drop (Z.to_nat 0) f) with f.
    rewrite (take_field_name f HEQ), (drop_field_value f HEQ).
    rewrite Nat2Z.id, firstn_all.
    replace (take (Z.to_nat sizeof_uint64_t)
               (le_bytes 8 (Z.of_nat (length (field_value f)))))
      with (le_bytes 8 (Z.of_nat (length (field_value f))))
      by (symmetry; apply firstn_all2; rewrite length_le_bytes;
          unfold sizeof_uint64_t; lia).
    reflexivity.
  - rewrite IOVEC_SET_STRING_newline.
    cbn [app fmap list_fmap read_slots read_iovec iov_base iov_len].
    rewrite (iov_at_lookup _ _ _ Hi).
    destruct (read_slots iov l (Some <$> rest)) as [bs| |];
      cbn [mbind res_mbind res_bind]; try reflexivity.
    unfold field_len. rewrite Nat2Z.id.
    change (drop (Z.to_nat 0) f) with f.
    now rewrite firstn_all.
Qed.

(** The segments that [layout] describes designate the segments of the
    fields, one field after the other. *)
Lemma read_slots_layout (iov : list field) (l : list (option (list byte)))
    (fs : list field) :
  forall (i : nat),
    (forall m f, fs !! m = Some f ->
                 iov !! (i + m)%nat = Some f /\ l !! (i + m)%nat = Some (prefix_slot f)) ->
    forallb well_formed fs = true ->
    forallb fits_size_t fs = true ->
    read_slots iov l (Some <$> layout (Z.of_nat i) fs)
    = Ok (concat (map field_segments fs)).
Proof.
  induction fs as [|f fs IH]; intros i Hsub Hwf Hfit; [reflexivity|].
  simpl in Hwf, Hfit.
  apply andb_true_iff in Hwf as [Hf Hwf].
  apply andb_true_iff in Hfit as [Hff Hfit].
  cbn [layout map concat].
  destruct (Hsub 0%nat f eq_refl) as [Hi Hl]. rewrite Nat.add_0_r in Hi, Hl.
  rewrite (read_slots_field iov l i f) by assumption.
  replace (Z.of_nat i + 1) with (Z.of_nat (S i)) by lia.
  rewrite IH; [reflexivity| |assumption|assumption].
  intros m g Hg. replace (S i + m)%nat with (i + S m)%nat by lia.
  now apply Hsub.
Qed.

(** The segments of the frame that [encode] builds. *)
Lemma segments_frame (iov : list field) :
  forallb well_formed iov = true ->
  forallb fits_size_t iov = true ->
  segments iov (frame_of (5 * length iov) (length iov) (layout 0 iov)
                         (map prefix_slot iov))
  = Ok (concat (map field_segments iov)).
Proof.
  intros Hwf Hfit. unfold segments.
  assert (Hcap : forall fs i, (length (layout i fs) <= 5 * length fs)%nat).
  { induction fs as [|f fs IH]; intros i; cbn [layout length]; [lia|].
    rewrite length_app. specialize (IH (i + 1)).
    pose proof (length_field_iovecs_le i f). lia. }
  specialize (Hcap iov 0).
  rewrite length_frame_w by assumption.
  cbn [frame_of fr_w fr_l fr_j].
  assert (Hb : (0 <=? Z.of_nat (length (layout 0 iov))) &&
           (Z.of_nat (length (layout 0 iov)) <=? Z.of_nat (5 * length iov)) = true).
  { apply andb_true_iff; split; apply Z.leb_le; lia. }
  rewrite Hb.
  rewrite Nat2Z.id.
  rewrite take_app_length' by now rewrite length_fmap.
  rewrite length_map, Nat.sub_diag. cbn [replicate]. rewrite app_nil_r.
  apply (read_slots_layout iov (map prefix_slot iov) iov 0%nat); try assumption.
  intros m f Hm. cbn [Nat.add]. split; [assumption|].
  change (map prefix_slot iov) with (prefix_slot <$> iov).
  now rewrite list_lookup_fmap, Hm.
Qed.

(** The segments of a record of well-formed fields. *)
Lemma encode_segments_ok (iov : list field) (n : Z) :
  n = Z.of_nat (length iov) ->
  n * 5 <= INT_MAX ->
  forallb well_formed iov = true ->
  forallb fits_size_t iov = true ->
  encode_segments iov n = Ok (concat (map field_segments iov)).
Proof.
  intros Hn Hint Hwf Hfit. unfold encode_segments.
  rewrite (encode_ok iov n) by assumption.
  cbn [mbind res_mbind res_bind]. now apply segments_frame.
Qed.

(* ================================================================= *)
(** ** The encoding of one field (C1, C2) *)

Lemma forallb_app_inv {A} (p : A -> bool) (xs : list A) (x : A) (ys : list A) :
  forallb p (xs ++ x :: ys) = true ->
  forallb p xs = true /\ p x = true /\ forallb p ys = true.
Proof.
  rewrite forallb_app. simpl. rewrite !andb_true_iff. tauto.
Qed.

(** The segments of a record are those of the fields before [f], those
    of [f] and those of the fields after [f]. *)
Lemma encode_segments_split (pre post : list field) (f : field) (n : Z) :
  n = Z.of_nat (length (pre ++ f :: post)) ->
  n * 5 <= INT_MAX ->
  forallb well_formed (pre ++ f :: post) = true ->
  forallb fits_size_t (pre ++ f :: post) = true ->
  exists before after,
    encode_segments pre (Z.of_nat (length pre)) = Ok before /\
    encode_segments post (Z.of_nat (length post)) = Ok after /\
    encode_segments (pre ++ f :: post) n = Ok (before ++ field_segments f ++ after).
Proof.
  intros Hn Hint Hwf Hfit.
  rewrite length_app in Hn. cbn [length] in Hn.
  destruct (forallb_app_inv _ _ _ _ Hwf) as (Hwf1 & _ & Hwf2).
  destruct (forallb_app_inv _ _ _ _ Hfit) as (Hfit1 & _ & Hfit2).
  exists (concat (map field_segments pre)), (concat (map field_segments post)).
  split; [|split].
  - apply encode_segments_ok; try assumption; try reflexivity. lia.
  - apply encode_segments_ok; try assumption; try reflexivity. lia.
  - rewrite (encode_segments_ok _ n); try assumption.
    + now rewrite map_app, concat_app.
    + rewrite length_app. cbn [length]. exact Hn.
Qed.

(** C1 (amended): a field with an '=', no newline before the first '=' and
    a newline in its value is laid out as five segments, in this order: the
    name, a newline, the eight little-endian bytes of the length of the
    value, the value as it is, a newline. *)
Theorem binary_safe_field_encoding
    (pre post : list field) (f : field) (n : Z) :
  has_byte EQ f = true ->
  has_byte NL (field_name f) = false ->
  has_byte NL (field_value f) = true ->
  n = Z.of_nat (length (pre ++ f :: post)) ->
  n * 5 <= INT_MAX ->
  forallb well_formed (pre ++ post) = true ->
  forallb fits_size_t (pre ++ f :: post) = true ->
  exists before after,
    encode_segments pre (Z.of_nat (length pre)) = Ok before /\
    encode_segments post (Z.of_nat (length post)) = Ok after /\
    encode_segments (pre ++ f :: post) n
    = Ok (before ++
          [ field_name f; [NL];
            le_bytes 8 (Z.of_nat (length (field_value f)));
            field_value f; [NL] ] ++ after) /\
    length (le_bytes 8 (Z.of_nat (length (field_value f)))) = 8%nat /\
    le_value (le_bytes 8 (Z.of_nat (length (field_value f))))
    = Z.of_nat (length (field_value f)).
Proof.
  intros HEQ Hname Hvalue Hn Hint Hwf Hfit.
  assert (Hwf' : forallb well_formed (pre ++ f :: post) = true).
  { rewrite forallb_app in *. simpl. unfold well_formed at 2.
    rewrite HEQ, Hname. exact Hwf. }
  destruct (encode_segments_split pre post f n Hn Hint Hwf' Hfit)
    as (before & after & Hb & Ha & Hall).
  exists before, after.
  split; [exact Hb|]. split; [exact Ha|]. split; [|split].
  - rewrite Hall. unfold field_segments, binary_safe. now rewrite Hvalue.
  - apply length_le_bytes.
  - apply le_value_le_bytes.
    destruct (forallb_app_inv _ _ _ _ Hfit) as (_ & Hf & _).
    apply Z.leb_le in Hf. rewrite (field_len_split f HEQ) in Hf.
    unfold SIZE_MAX, eq_offset in Hf.
    change (256 ^ Z.of_nat 8) with (2 ^ 64). lia.
Qed.

(** The spec's second scenario, "DATA=line1\nline2" after a simple
    field: the binary-safe form and its length prefix 11. *)
Lemma binary_safe_field_encoding_witness :
  exists before after,
    encode_segments [bytes "MESSAGE=hello world"] 1 = Ok before /\
    encode_segments [] 0 = Ok after /\
    encode_segments [bytes "MESSAGE=hello world"; field_data] 2
    = Ok (before ++
          [ field_name field_data; [NL];
            le_bytes 8 (Z.of_nat (length (field_value field_data)));
            field_value field_data; [NL] ] ++ after) /\
    length (le_bytes 8 (Z.of_nat (length (field_value field_data)))) = 8%nat /\
    le_value (le_bytes 8 (Z.of_nat (length (field_value field_data))))
    = Z.of_nat (length (field_value field_data)).
Proof.
  apply (binary_safe_field_encoding [bytes "MESSAGE=hello world"] [] field_data 2);
    first [ reflexivity | vm_compute; discriminate ].
Defined.

(** C1 as stated fails on "a\nb=c\nd": the field has an '=' and its value
    has a newline, and the call ends with -EINVAL at line 148 without
    laying out a segment. *)
Lemma binary_safe_field_counterexample :
  has_byte EQ field_nl_both = true /\
  has_byte NL (field_value field_nl_both) = true /\
  encode_segments [field_nl_both] 1 = Return (- EINVAL) /\
  encode_segments [field_nl_both] 1
  <> Ok [ field_name field_nl_both; [NL];
          le_bytes 8 (Z.of_nat (length (field_value field_nl_both)));
          field_value field_nl_both; [NL] ] /\
  sd_journal_sendv 1 kernel_fine (Some [field_nl_both]) 1 world0
  = Some (- EINVAL, world0).
Proof.
  repeat split; try reflexivity. vm_compute. discriminate.
Qed.

(** C2 (amended): a field with an '=', no newline before the first '=' and
    no newline in its value is laid out as two segments: the field as it
    is, and a newline; together they are NAME=VALUE\n. *)
Theorem simple_field_encoding
    (pre post : list field) (f : field) (n : Z) :
  has_byte EQ f = true ->
  has_byte NL (field_name f) = false ->
  has_byte NL (field_value f) = false ->
  n = Z.of_nat (length (pre ++ f :: post)) ->
  n * 5 <= INT_MAX ->
  forallb well_formed (pre ++ post) = true ->
  forallb fits_size_t (pre ++ f :: post) = true ->
  exists before after,
    encode_segments pre (Z.of_nat (length pre)) = Ok before /\
    encode_segments post (Z.of_nat (length post)) = Ok after /\
    encode_segments (pre ++ f :: post) n = Ok (before ++ [ f; [NL] ] ++ after) /\
    concat [ f; [NL] ] = field_name f ++ [EQ] ++ field_value f ++ [NL].
Proof.
  intros HEQ Hname Hvalue Hn Hint Hwf Hfit.
  assert (Hwf' : forallb well_formed (pre ++ f :: post) = true).
  { rewrite forallb_app in *. simpl. unfold well_formed at 2.
    rewrite HEQ, Hname. exact Hwf. }
  destruct (encode_segments_split pre post f n Hn Hint Hwf' Hfit)
    as (before & after & Hb & Ha & Hall).
  exists before, after.
  split; [exact Hb|]. split; [exact Ha|]. split.
  - rewrite Hall. unfold field_segments, binary_safe. now rewrite Hvalue.
  - destruct (field_split f HEQ) as [Hf _]. cbn [concat].
    rewrite Hf at 1. now rewrite <- app_assoc.
Qed.

(** The spec's first scenario, "MESSAGE=hello world". *)
Lemma simple_field_encoding_witness :
  exists before after,
    encode_segments [] 0 = Ok before /\
    encode_segments [field_data] 1 = Ok after /\
    encode_segments [bytes "MESSAGE=hello world"; field_data] 2
    = Ok (before ++ [ bytes "MESSAGE=hello world"; [NL] ] ++ after) /\
    concat [ bytes "MESSAGE=hello world"; [NL] ]
    = field_name (bytes "MESSAGE=hello world") ++ [EQ] ++
      field_value (bytes "MESSAGE=hello world") ++ [NL].
Proof.
  apply (simple_field_encoding [] [field_data] (bytes "MESSAGE=hello world") 2);
    first [ reflexivity | vm_compute; discriminate ].
Defined.

(** C2 as stated fails on "a\nb=c": the field has an '=' and its value
    has no newline, and the call ends with -EINVAL at line 148. *)
Lemma simple_field_counterexample :
  has_byte EQ field_nl_name = true /\
  has_byte NL (field_value field_nl_name) = false /\
  encode_segments [field_nl_name] 1 = Return (- EINVAL) /\
  encode_segments [field_nl_name] 1 <> Ok [ field_nl_name; [NL] ] /\
  sd_journal_sendv 1 kernel_fine (Some [field_nl_name]) 1 world0
  = Some (- EINVAL, world0).
Proof.
  repeat split; try reflexivity. vm_compute. discriminate.
Qed.

(* ================================================================= *)
(** ** Malformed fields *)

Lemma well_formed_false_iff (f : field) : well_formed f = false <-> malformed f.
Proof.
  unfold well_formed, malformed. rewrite andb_false_iff, negb_false_iff. tauto.
Qed.

Lemma well_formed_true_iff (f : field) : well_formed f = true <-> ~ malformed f.
Proof.
  rewrite <- well_formed_false_iff. destruct (well_formed f); intuition congruence.
Qed.

Lemma forallb_well_formed_true (iov : list field) :
  forallb well_formed iov = true <-> Forall (fun f => ~ malformed f) iov.
Proof.
  rewrite forallb_forall, Forall_forall.
  split; intros H f Hf.
  - apply well_formed_true_iff, H, list_elem_of_In, Hf.
  - apply well_formed_true_iff, H, list_elem_of_In, Hf.
Qed.

Lemma forallb_well_formed_false (iov : list field) :
  forallb well_formed iov = false <-> Exists malformed iov.
Proof.
  split.
  - intros H. apply forallb_false_split in H as (pre & bad & post & -> & _ & Hbad).
    apply Exists_app. right. apply Exists_cons_hd.
    now apply well_formed_false_iff.
  - intros H. destruct (forallb well_formed iov) eqn:E; [|reflexivity].
    apply forallb_well_formed_true in E.
    apply Exists_exists in H as (f & Hf & Hbad).
    rewrite Forall_forall in E. now destruct (E f Hf).
Qed.

(* ================================================================= *)
(** ** Counting the slots that are written *)

(** A write is in bounds exactly when it does not go wrong. *)
Lemma store_in_bounds {A} (a : list (option A)) (k : Z) (v : A) :
  (exists a', store a k v = Ok a') <-> 0 <= k < Z.of_nat (length a).
Proof.
  unfold store.
  destruct (0 <=? k) eqn:E1; destruct (k <? Z.of_nat (length a)) eqn:E2; cbn [andb];
    split; intros H; try (destruct H as [a' H]; discriminate); try lia; eauto.
Qed.

Lemma written_app {A} (a b : list (option A)) :
  written (a ++ b) = (written a + written b)%nat.
Proof. unfold written. now rewrite List.filter_app, length_app. Qed.

Lemma written_replicate_None {A} (k : nat) :
  written (replicate k (@None A)) = 0%nat.
Proof. induction k as [|k IH]; [reflexivity|exact IH]. Qed.

Lemma written_Some {A} (xs : list A) : written (Some <$> xs) = length xs.
Proof.
  unfold written. induction xs as [|x xs IH]; [reflexivity|].
  cbn. now rewrite <- IH.
Qed.

Lemma written_prefix_slots (fs : list field) :
  written (map prefix_slot fs) = count_if binary_safe fs.
Proof.
  unfold written, count_if. induction fs as [|f fs IH]; [reflexivity|].
  cbn [map List.filter]. unfold prefix_slot at 1.
  destruct (binary_safe f); cbn [is_written length]; now rewrite IH.
Qed.

Lemma length_layout (fs : list field) (i : Z) :
  Z.of_nat (length (layout i fs))
  = 2 * Z.of_nat (count_if (fun f => negb (binary_safe f)) fs)
    + 5 * Z.of_nat (count_if binary_safe fs).
Proof.
  unfold count_if. revert i. induction fs as [|f fs IH]; intros i; [reflexivity|].
  cbn [layout List.filter]. rewrite length_app, length_field_iovecs.
  specialize (IH (i + 1)).
  destruct (binary_safe f); cbn [negb length]; lia.
Qed.

Lemma count_if_le {A} (p : A -> bool) (xs : list A) :
  (count_if p xs <= length xs)%nat.
Proof. unfold count_if. apply List.filter_length_le. Qed.

Lemma count_if_split {A} (p : A -> bool) (xs : list A) :
  (count_if (fun x => negb (p x)) xs + count_if p xs = length xs)%nat.
Proof.
  unfold count_if. induction xs as [|x xs IH]; [reflexivity|].
  cbn [List.filter]. destruct (p x); cbn [negb length]; lia.
Qed.

(* ================================================================= *)
(** ** Parsing an encoded record *)

Lemma forallb_neither (name : list byte) :
  has_byte EQ name = false ->
  has_byte NL name = false ->
  forallb (fun x => negb (is_EQ x || is_NL x)) name = true.
Proof.
  unfold has_byte, is_EQ, is_NL.
  induction name as [|x name IH]; simpl; intros H1 H2; [reflexivity|].
  apply orb_false_iff in H1 as [Hx1 H1]. apply orb_false_iff in H2 as [Hx2 H2].
  rewrite Hx1, Hx2, IH by assumption. reflexivity.
Qed.

(** The parser reads back one encoded field and leaves what follows. *)
Lemma parse_field_encoded (f : field) (rest : list byte) :
  well_formed f = true ->
  fits_size_t f = true ->
  parse_field (concat (field_segments f) ++ rest) = Some (split_field f, rest).
Proof.
  intros Hwf Hfit. apply andb_true_iff in Hwf as [HEQ Hname].
  apply negb_true_iff in Hname.
  destruct (field_split f HEQ) as [Hf HnameEQ].
  pose proof (field_len_split f HEQ) as Hlen.
  apply Z.leb_le in Hfit.
  unfold field_segments, split_field, parse_field, binary_safe.
  set (name := field_name f) in *. set (value := field_value f) in *.
  destruct (has_byte NL value) eqn:Hbin.
  - replace (concat [name; [NL]; le_bytes 8 (Z.of_nat (length value)); value; [NL]] ++ rest)
      with (name ++ NL :: (le_bytes 8 (Z.of_nat (length value)) ++ value ++ NL :: rest))
      by (cbn [concat]; rewrite <- !app_assoc; reflexivity).
    rewrite break_app; [|now apply forallb_neither|reflexivity].
    change (is_EQ NL) with false. cbn iota.
    assert (H8 : length (le_bytes 8 (Z.of_nat (length value))) = 8%nat)
      by apply length_le_bytes.
    rewrite take_app_length' by exact H8.
    rewrite drop_app_length' by exact H8.
    rewrite le_value_le_bytes.
    2: { unfold SIZE_MAX, eq_offset in *. change (256 ^ Z.of_nat 8) with (2 ^ 64). lia. }
    rewrite Nat2Z.id, drop_app_length, take_app_length.
    replace ((Z.of_nat (length (le_bytes 8 (Z.of_nat (length value)) ++ value ++ NL :: rest)) <? 8)
             || (Z.of_nat (length (value ++ NL :: rest)) <=? Z.of_nat (length value)))
      with false.
    + reflexivity.
    + symmetry. apply orb_false_iff. rewrite !length_app, H8. cbn [length].
      split; [apply Z.ltb_ge|apply Z.leb_gt]; lia.
  - replace (concat [f; [NL]] ++ rest) with (name ++ EQ :: (value ++ NL :: rest)).
    2: { cbn [concat]. rewrite Hf at 1. rewrite <- !app_assoc. reflexivity. }
    rewrite break_app; [|now apply forallb_neither|reflexivity].
    change (is_EQ EQ) with true. cbn iota.
    rewrite break_app; [reflexivity| |reflexivity].
    now apply has_byte_false_forallb.
Qed.

Lemma wire_cons (f : field) (fs : list field) :
  wire (f :: fs) = concat (field_segments f) ++ wire fs.
Proof. unfold wire. cbn [map concat]. now rewrite concat_app. Qed.

Lemma field_wire_nonempty (f : field) (rest : list byte) :
  (1 <= length (concat (field_segments f) ++ rest))%nat /\
  (length rest < length (concat (field_segments f) ++ rest))%nat.
Proof.
  unfold field_segments. destruct (binary_safe f); cbn [concat];
    rewrite !length_app; cbn [length]; lia.
Qed.

Lemma length_wire (fs : list field) : (length fs <= length (wire fs))%nat.
Proof.
  induction fs as [|f fs IH]; [simpl; lia|].
  rewrite wire_cons. pose proof (field_wire_nonempty f (wire fs)).
  cbn [length]. lia.
Qed.

(** The parser reads back an encoded record, field by field. *)
Lemma parse_fields_wire (fs : list field) :
  forall fuel,
    (length fs <= fuel)%nat ->
    forallb well_formed fs = true ->
    forallb fits_size_t fs = true ->
    parse_fields fuel (wire fs) = Some (map split_field fs).
Proof.
  induction fs as [|f fs IH]; intros fuel Hfuel Hwf Hfit.
  - destruct fuel; reflexivity.
  - simpl in Hwf, Hfit.
    apply andb_true_iff in Hwf as [Hf Hwf].
    apply andb_true_iff in Hfit as [Hff Hfit].
    destruct fuel as [|fuel]; [simpl in Hfuel; lia|].
    rewrite wire_cons.
    pose proof (field_wire_nonempty f (wire fs)) as [Hne _].
    pose proof (parse_field_encoded f (wire fs) Hf Hff) as Hp.
    destruct (concat (field_segments f) ++ wire fs) as [|b bs'] eqn:E;
      [simpl in Hne; lia|].
    cbn [parse_fields]. rewrite Hp.
    rewrite IH; [reflexivity| |assumption|assumption].
    simpl in Hfuel. lia.
Qed.

(* ================================================================= *)
(** ** Whole records (C3, C4, C9) *)

(** A record [iov] of [n] fields, few enough for the fill count [j]
    to stay an [int]. *)
Section Record_.

Variables (iov : list field) (n : Z).
Hypothesis Hn : n = Z.of_nat (length iov).
Hypothesis Hint : n * 5 <= INT_MAX.

(** A record with a malformed field is refused. *)
Lemma encode_malformed :
  Exists malformed iov ->
  encode iov n = Return (- EINVAL).
Proof.
  intros H. apply forallb_well_formed_false in H.
  apply forallb_false_split in H as (pre & bad & post & -> & Hpre & Hb).
  apply encode_bad; try assumption.
  rewrite Hn, length_app. cbn [length]. lia.
Qed.

Lemma sendv_malformed (fuel : nat) (K : kernel) (s : World) :
  Exists malformed iov ->
  sd_journal_sendv fuel K (Some iov) n s = Some (- EINVAL, s).
Proof.
  intros H. unfold sd_journal_sendv.
  rewrite (encode_malformed H).
  destruct (n <=? 0); reflexivity.
Qed.

(** C4: [encode] returns -EINVAL exactly when some field has no '=' or
    has a newline before its first '='; it then returns at the first such
    field, whatever follows it in the array, and the call makes no system
    call; every record without such a field is encoded. *)
Theorem encode_raises_iff_malformed :
  (encode iov n = Return (- EINVAL) <-> Exists malformed iov) /\
  ((exists st, encode iov n = Ok st) <-> Forall (fun f => ~ malformed f) iov) /\
  (forall pre bad post post',
      iov = pre ++ bad :: post ->
      Forall (fun f => ~ malformed f) pre ->
      malformed bad ->
      encode (pre ++ bad :: post') n = Return (- EINVAL)) /\
  (forall fuel K s,
      Exists malformed iov ->
      sd_journal_sendv fuel K (Some iov) n s = Some (- EINVAL, s)).
Proof.
  assert (Hbad : Exists malformed iov -> encode iov n = Return (- EINVAL))
    by apply encode_malformed.
  assert (Hgood : Forall (fun f => ~ malformed f) iov -> exists st, encode iov n = Ok st).
  { intros H. apply forallb_well_formed_true in H.
    eexists. now apply encode_ok. }
  assert (Hdec : Exists malformed iov \/ Forall (fun f => ~ malformed f) iov).
  { destruct (forallb well_formed iov) eqn:E.
    - right. now apply forallb_well_formed_true.
    - left. now apply forallb_well_formed_false. }
  split; [|split; [|split]].
  - split; [|exact Hbad]. intros H.
    destruct Hdec as [?|Hg]; [assumption|].
    destruct (Hgood Hg) as [st Hst]. congruence.
  - split; [|exact Hgood]. intros [st Hst].
    destruct Hdec as [Hb|?]; [|assumption].
    rewrite (Hbad Hb) in Hst. discriminate.
  - intros pre bad post post' -> Hpre Hb.
    apply encode_bad; try assumption.
    + now apply forallb_well_formed_true.
    + now apply well_formed_false_iff.
    + rewrite Hn, length_app. cbn [length]. lia.
  - intros fuel K s Hb. now apply sendv_malformed.
Qed.

(** C9 (amended): on a record of [n] well-formed fields no access goes
    wrong; the loop fills two slots of [w] for a simple field and five for
    a binary-safe one, at most [5 * n] of the [5 * n] there are; it fills
    one slot of [l] for every binary-safe field and none for a simple one,
    at most [n] of the [n] there are. *)
Theorem segment_count_bound :
  forallb well_formed iov = true ->
  exists st,
    encode iov n = Ok st /\
    Z.of_nat (length (fr_w st)) = 5 * n /\
    Z.of_nat (length (fr_l st)) = n /\
    fr_j st = 2 * Z.of_nat (count_if (fun f => negb (binary_safe f)) iov)
              + 5 * Z.of_nat (count_if binary_safe iov) /\
    0 <= fr_j st <= 5 * n /\
    Z.of_nat (written (fr_w st)) = fr_j st /\
    written (fr_l st) = count_if binary_safe iov /\
    Z.of_nat (written (fr_l st)) <= n.
Proof.
  intros Hwf. eexists. split; [now apply encode_ok|].
  pose proof (length_layout iov 0) as Hlay.
  pose proof (count_if_split binary_safe iov) as Hsplit.
  pose proof (count_if_le binary_safe iov) as Hle.
  assert (Hcap : (length (layout 0 iov) <= 5 * length iov)%nat) by lia.
  rewrite length_frame_w by assumption.
  rewrite length_frame_l by now rewrite length_map.
  cbn [frame_of fr_w fr_l fr_j].
  rewrite !written_app, !written_replicate_None, written_Some, !Nat.add_0_r.
  rewrite written_prefix_slots.
  repeat split; lia.
Qed.

Lemma encode_bytes_ok :
  forallb well_formed iov = true ->
  forallb fits_size_t iov = true ->
  encode_bytes iov n = Ok (wire iov).
Proof.
  intros Hwf Hfit.
  pose proof (encode_segments_ok iov n Hn Hint Hwf Hfit) as H.
  unfold encode_bytes, encode_segments in *.
  destruct (encode iov n) as [st| |]; cbn [mbind res_mbind res_bind] in *;
    try discriminate.
  now rewrite H.
Qed.

(** C3: the bytes that [encode] hands to [sendmsg] for a non-empty record
    of well-formed fields, parsed by the grammar of the wire format, give
    back the names and the values of the fields, in the order of the
    caller; the values are arbitrary bytes. *)
Theorem encode_parse_round_trip :
  iov <> [] ->
  forallb well_formed iov = true ->
  forallb fits_size_t iov = true ->
  exists data,
    encode_bytes iov n = Ok data /\
    parse_record data = Some (map split_field iov) /\
    Forall (fun f => f = (split_field f).1 ++ EQ :: (split_field f).2) iov.
Proof.
  intros _ Hwf Hfit. exists (wire iov).
  split; [now apply encode_bytes_ok|]. split.
  - unfold parse_record. apply parse_fields_wire; try assumption.
    apply length_wire.
  - apply Forall_forall. intros f Hf. apply list_elem_of_In in Hf.
    rewrite forallb_forall in Hwf. specialize (Hwf f Hf).
    apply andb_true_iff in Hwf as [HEQ _].
    exact (proj1 (field_split f HEQ)).
Qed.

End Record_.

(** The fields of the spec's examples: "novalue" and "a\nb=c" are
    refused, "=v" (an empty name) and "a=b\nc" are accepted. *)
Lemma encode_raises_iff_malformed_witness :
  (encode [bytes "=v"; bytes "novalue"; field_nl_name] 3 = Return (- EINVAL)
   <-> Exists malformed [bytes "=v"; bytes "novalue"; field_nl_name]) /\
  ((exists st, encode [bytes "=v"; bytes "novalue"; field_nl_name] 3 = Ok st)
   <-> Forall (fun f => ~ malformed f) [bytes "=v"; bytes "novalue"; field_nl_name]) /\
  (forall pre bad post post',
      [bytes "=v"; bytes "novalue"; field_nl_name] = pre ++ bad :: post ->
      Forall (fun f => ~ malformed f) pre ->
      malformed bad ->
      encode (pre ++ bad :: post') 3 = Return (- EINVAL)) /\
  (forall fuel K s,
      Exists malformed [bytes "=v"; bytes "novalue"; field_nl_name] ->
      sd_journal_sendv fuel K (Some [bytes "=v"; bytes "novalue"; field_nl_name]) 3 s
      = Some (- EINVAL, s)).
Proof.
  apply (encode_raises_iff_malformed [bytes "=v"; bytes "novalue"; field_nl_name] 3).
  - reflexivity.
  - vm_compute. discriminate.
Defined.

(** The fields that the spec names: "novalue" and "a\nb=c" are refused,
    "a=b\nc" takes the binary-safe form, and an empty name is accepted. *)
Example encode_named_fields :
  encode [bytes "novalue"] 1 = Return (- EINVAL) /\
  encode [field_nl_name] 1 = Return (- EINVAL) /\
  encode_segments [field_nl_value] 1
  = Ok [ [x61]; [NL]; [x03; x00; x00; x00; x00; x00; x00; x00]; [x62; NL; x63]; [NL] ] /\
  encode_segments [bytes "=v"] 1 = Ok [ bytes "=v"; [NL] ].
Proof. repeat split; reflexivity. Qed.

(** The first malformed field ends the loop: the fields after it are not
    looked at, here not even there. *)
Example encode_stops_at_malformed :
  encode [bytes "A=1"; bytes "novalue"] 5 = Return (- EINVAL) /\
  encode [bytes "A=1"; bytes "B=2"] 5 = Fault.
Proof. split; reflexivity. Qed.

(** Two simple fields and a binary-safe one: nine segments, one length
    prefix. *)
Lemma segment_count_bound_witness :
  exists st,
    encode [bytes "MESSAGE=hello"; field_data; bytes "PRIORITY=6"] 3 = Ok st /\
    Z.of_nat (length (fr_w st)) = 5 * 3 /\
    Z.of_nat (length (fr_l st)) = 3 /\
    fr_j st
    = 2 * Z.of_nat (count_if (fun f => negb (binary_safe f))
                      [bytes "MESSAGE=hello"; field_data; bytes "PRIORITY=6"])
      + 5 * Z.of_nat (count_if binary_safe
                        [bytes "MESSAGE=hello"; field_data; bytes "PRIORITY=6"]) /\
    0 <= fr_j st <= 5 * 3 /\
    Z.of_nat (written (fr_w st)) = fr_j st /\
    written (fr_l st)
    = count_if binary_safe [bytes "MESSAGE=hello"; field_data; bytes "PRIORITY=6"] /\
    Z.of_nat (written (fr_l st)) <= 3.
Proof.
  apply (segment_count_bound
           [bytes "MESSAGE=hello"; field_data; bytes "PRIORITY=6"] 3);
    first [ reflexivity | vm_compute; discriminate ].
Defined.

(** C9 as stated fails on the record of the one field "MESSAGE=hello":
    the loop fills two slots of [w] and no slot of [l], not [n = 1] of
    them. *)
Lemma segment_count_counterexample :
  exists st,
    encode [bytes "MESSAGE=hello"] 1 = Ok st /\
    fr_j st = 2 /\
    written (fr_l st) = 0%nat /\
    Z.of_nat (written (fr_l st)) <> 1.
Proof.
  eexists. split; [vm_compute; reflexivity|].
  repeat split. vm_compute. discriminate.
Qed.

(** A record with a simple field, a field with an embedded newline and
    a field of binary data. *)
Lemma encode_parse_round_trip_witness :
  exists data,
    encode_bytes [bytes "MESSAGE=hello world"; field_data; field_blob] 3 = Ok data /\
    parse_record data
    = Some (map split_field [bytes "MESSAGE=hello world"; field_data; field_blob]) /\
    Forall (fun f => f = (split_field f).1 ++ EQ :: (split_field f).2)
      [bytes "MESSAGE=hello world"; field_data; field_blob].
Proof.
  apply (encode_parse_round_trip
           [bytes "MESSAGE=hello world"; field_data; field_blob] 3);
    first [ reflexivity | vm_compute; discriminate | discriminate ].
Defined.

(* ================================================================= *)
(** ** Invalid arguments (C5) *)

(** C5: a call with a null [iov] or with [n <= 0] returns -EINVAL and
    leaves the world as it was: [journal_fd] is not called, no system
    call is made. *)
Theorem sendv_rejects_empty
    (fuel : nat) (K : kernel) (iov : option (list field)) (n : Z) (s : World) :
  iov = None \/ n <= 0 ->
  sd_journal_sendv fuel K iov n s = Some (- EINVAL, s).
Proof.
  intros [-> | Hn]; [reflexivity|].
  unfold sd_journal_sendv. destruct iov as [fs|]; [|reflexivity].
  now test_is (n <=? 0) true.
Qed.

(** A count of zero, with fields at hand and no fuel for [journal_fd]. *)
Lemma sendv_rejects_empty_witness :
  sd_journal_sendv 0 kernel_fine (Some [bytes "MESSAGE=hello"]) 0 world0
  = Some (- EINVAL, world0).
Proof.
  apply (sendv_rejects_empty 0 kernel_fine (Some [bytes "MESSAGE=hello"]) 0 world0).
  right. lia.
Defined.

(* ================================================================= *)
(** ** The shared descriptor (C6, C7) *)

Lemma fd_plus_one_log (e : event) (s : World) :
  fd_plus_one (log e s) = fd_plus_one s.
Proof. reflexivity. Qed.

(** One call of [journal_fd] in a world where [fd_plus_one] is not
    negative: the three ways through the function. *)
Lemma journal_fd_cases (fuel : nat) (K : kernel) (s : World) :
  0 <= fd_plus_one s ->
  journal_fd (S fuel) K s
  = Some (if 0 <? fd_plus_one s then (wrap_int (fd_plus_one s - 1), s)
          else if sys_ret (reply K s) <? 0
               then (wrap_int (- sys_errno (reply K s)),
                     log (E_socket (sys_ret (reply K s))) s)
               else (sys_ret (reply K s),
                     set_fd_plus_one (wrap_int (sys_ret (reply K s) + 1))
                       (log (E_socket (sys_ret (reply K s))) s))).
Proof.
  intros H0. cbn [journal_fd].
  destruct (0 <? fd_plus_one s) eqn:E; [reflexivity|].
  apply Z.ltb_ge in E. unfold socket.
  destruct (sys_ret (reply K s) <? 0); [reflexivity|].
  unfold sync_bool_compare_and_swap. rewrite fd_plus_one_log.
  now test_is (fd_plus_one s =? 0) true.
Qed.

(** [fd_plus_one] is never negative: it is 0 or a descriptor plus one,
    as long as the kernel hands out descriptors below [INT_MAX]. *)
Lemma journal_fd_nonneg (fuel : nat) (K : kernel) (s : World) (r : Z) (s' : World) :
  0 <= fd_plus_one s ->
  (forall k, sys_ret (K k) < INT_MAX) ->
  journal_fd (S fuel) K s = Some (r, s') ->
  0 <= fd_plus_one s'.
Proof.
  intros H0 HK H. rewrite journal_fd_cases in H by assumption.
  destruct (0 <? fd_plus_one s); [now injection H as _ <-|].
  destruct (Z.ltb_spec (sys_ret (reply K s)) 0) as [Hneg | Hpos];
    injection H as _ <-; [exact H0|].
  cbn [set_fd_plus_one fd_plus_one].
  pose proof (HK (length (trace s))) as Hlt. fold (reply K s) in Hlt.
  rewrite wrap_int_id; unfold INT_MIN, INT_MAX in *; lia.
Qed.

Lemma sendv_nonneg (fuel : nat) (K : kernel) (iov : option (list field)) (n : Z)
    (s : World) (r : Z) (s' : World) :
  0 <= fd_plus_one s ->
  (forall k, sys_ret (K k) < INT_MAX) ->
  sd_journal_sendv (S fuel) K iov n s = Some (r, s') ->
  0 <= fd_plus_one s'.
Proof.
  intros H0 HK H. unfold sd_journal_sendv in H.
  destruct iov as [fs|]; [|now injection H as _ <-].
  destruct (n <=? 0); [now injection H as _ <-|].
  destruct (encode fs n) as [st | r0 |]; [|now injection H as _ <-|discriminate].
  destruct (journal_fd (S fuel) K s) as [[fd s1]|] eqn:Hfd; [|discriminate].
  pose proof (journal_fd_nonneg fuel K s fd s1 H0 HK Hfd) as H1.
  destruct (fd <? 0); [now injection H as _ <-|].
  unfold sendmsg in H. destruct (segments fs st); cbn in H; try discriminate.
  destruct (sys_ret (reply K s1) <? 0); now injection H as _ <-.
Qed.

(** A step of the machine does not touch a published descriptor. *)
Lemma jfd_step_published (r : sysret) (pc : jfd_pc) (s : World) :
  0 < fd_plus_one s ->
  fd_plus_one (jfd_step r pc s).2 = fd_plus_one s.
Proof.
  intros Hpub. destruct pc; cbn [jfd_step snd]; try reflexivity.
  unfold sync_bool_compare_and_swap.
  now test_is (fd_plus_one s =? 0) false.
Qed.

Lemma jfd_run_add (a b : nat) (K : kernel) (pc : jfd_pc) (s : World) :
  jfd_run (a + b) K pc s
  = jfd_run b K (jfd_run a K pc s).1 (jfd_run a K pc s).2.
Proof.
  revert pc s. induction a as [|a IH]; intros pc s; [reflexivity|].
  cbn [Nat.add jfd_run].
  destruct (jfd_step (reply K s) pc s) as [pc' s']. apply IH.
Qed.

(** The function [journal_fd] is the machine run by one thread: a call
    that returns is a run of the machine from line 40 to the return. *)
Lemma journal_fd_runs_machine (fuel : nat) (K : kernel) :
  forall (s : World) (r : Z) (s' : World),
    journal_fd fuel K s = Some (r, s') ->
    exists steps, jfd_run steps K L40 s = (L_ret r, s').
Proof.
  induction fuel as [|fuel IH]; intros s r s' H; [discriminate|].
  cbn [journal_fd] in H.
  destruct (0 <? fd_plus_one s) eqn:E40.
  - injection H as <- <-. exists 2%nat. cbn [jfd_run jfd_step]. now rewrite E40.
  - unfold socket in H.
    destruct (sys_ret (reply K s) <? 0) eqn:E44.
    + injection H as <- <-. exists 2%nat. cbn [jfd_run jfd_step].
      rewrite E40. cbn [jfd_run jfd_step]. now rewrite E44.
    + destruct (sync_bool_compare_and_swap 0 (wrap_int (sys_ret (reply K s) + 1))
                  (log (E_socket (sys_ret (reply K s))) s)) as [[|] s2] eqn:E47.
      * injection H as <- <-. exists 3%nat. cbn [jfd_run jfd_step].
        rewrite E40. cbn [jfd_run jfd_step]. rewrite E44.
        cbn [jfd_run jfd_step]. now rewrite E47.
      * destruct (IH _ _ _ H) as [steps Hrun].
        exists (4 + steps)%nat. rewrite jfd_run_add.
        cbn [jfd_run jfd_step]. rewrite E40. cbn [jfd_run jfd_step].
        rewrite E44. cbn [jfd_run jfd_step]. rewrite E47.
        cbn [jfd_run jfd_step fst snd]. exact Hrun.
Qed.

(** A process in which the descriptor [d] is published. *)
Section Published.

Variable d : Z.
Hypothesis Hd : 0 <= d < INT_MAX.

Lemma late_call_step (r : sysret) (pc : jfd_pc) (s : World) :
  fd_plus_one s = d + 1 ->
  late_call d pc ->
  late_call d (jfd_step r pc s).1 /\ (jfd_step r pc s).2 = s.
Proof.
  intros Hpub [-> | [-> | ->]]; cbn [jfd_step fst snd].
  - split; [|reflexivity].
    test_is (0 <? fd_plus_one s) true.
    right; left; reflexivity.
  - split; [|reflexivity]. right; right.
    rewrite Hpub. f_equal.
    rewrite wrap_int_id; unfold INT_MIN, INT_MAX in *; lia.
  - split; [|reflexivity]. right; right; reflexivity.
Qed.

Lemma published_step (k : nat) (p p' : process) :
  published d k p ->
  process_step p p' ->
  published d k p'.
Proof.
  intros [Hpub Hlate] Hstep. destruct Hstep as [p | p t pc r Ht Hrun].
  - split; [exact Hpub|]. cbn [calls]. intros t pc Hk Ht.
    apply lookup_app_Some in Ht as [Ht | [_ Ht]].
    + now apply (Hlate t).
    + apply list_lookup_singleton_Some in Ht as [_ <-]. left; reflexivity.
  - split.
    + cbn [shared]. rewrite jfd_step_published; [exact Hpub|lia].
    + cbn [calls]. intros t' pc' Hk Ht'.
      destruct (decide (t = t')) as [<- | Hne].
      * rewrite list_lookup_insert_eq in Ht' by now apply lookup_lt_Some in Ht.
        injection Ht' as <-.
        now apply (late_call_step r pc (shared p) Hpub), (Hlate t).
      * rewrite list_lookup_insert_ne in Ht' by assumption.
        now apply (Hlate t').
Qed.

Lemma published_steps (k : nat) (p p' : process) :
  published d k p ->
  rtc process_step p p' ->
  published d k p'.
Proof.
  intros Hp Hsteps. induction Hsteps as [p | p p1 p' Hstep _ IH].
  - exact Hp.
  - apply IH. exact (published_step k p p1 Hp Hstep).
Qed.

(** C6: the step that wins the compare-and-swap returns [d] and publishes
    it; from then on, whatever the calls of the process do and however
    they interleave, [fd_plus_one] keeps its value, every call that
    begins afterwards is at line 40 or 41 or has returned [d], none of
    its steps changes the world (it makes no system call, so it creates no
    socket), and a call that runs alone returns [d] and leaves the world
    as it is. *)
Theorem journal_fd_singleton (p0 p : process) :
  fd_plus_one (shared p0) = d + 1 ->
  rtc process_step p0 p ->
  (forall r s, fd_plus_one s = 0 ->
     jfd_step r (L47 d) s = (L_ret d, set_fd_plus_one (d + 1) s)) /\
  fd_plus_one (shared p) = d + 1 /\
  (forall t pc, (length (calls p0) <= t)%nat -> calls p !! t = Some pc ->
     pc = L40 \/ pc = L41 \/ pc = L_ret d) /\
  (forall t pc r, (length (calls p0) <= t)%nat -> calls p !! t = Some pc ->
     (jfd_step r pc (shared p)).2 = shared p) /\
  (forall fuel K, journal_fd (S fuel) K (shared p) = Some (d, shared p)).
Proof.
  intros Hpub Hsteps.
  assert (H0 : published d (length (calls p0)) p0).
  { split; [exact Hpub|]. intros t pc Hk Ht.
    apply lookup_lt_Some in Ht. lia. }
  destruct (published_steps _ p0 p H0 Hsteps) as [Hpub' Hlate].
  split; [|split; [|split; [|split]]].
  - intros r s Hs. cbn [jfd_step]. unfold sync_bool_compare_and_swap.
    rewrite Hs. cbn [Z.eqb].
    rewrite wrap_int_id by (unfold INT_MIN, INT_MAX in *; lia). reflexivity.
  - exact Hpub'.
  - intros t pc Hk Ht. exact (Hlate t pc Hk Ht).
  - intros t pc r Hk Ht.
    exact (proj2 (late_call_step r pc (shared p) Hpub' (Hlate t pc Hk Ht))).
  - intros fuel K. rewrite journal_fd_cases by lia.
    test_is (0 <? fd_plus_one (shared p)) true.
    rewrite Hpub'. do 2 f_equal.
    rewrite wrap_int_id; unfold INT_MIN, INT_MAX in *; lia.
Qed.

End Published.

Lemma process_racing_settles : rtc process_step process_racing process_settled.
Proof.
  pose (r := {| sys_ret := 0; sys_errno := 0 |}).
  eapply rtc_l; [eapply (step_run _ 1 (L47 5) r); reflexivity|].
  eapply rtc_l; [apply step_begin|].
  eapply rtc_l; [eapply (step_run _ 2 L40 r); reflexivity|].
  eapply rtc_l; [eapply (step_run _ 1 (L48 5) r); reflexivity|].
  apply rtc_refl.
Qed.

(** Descriptor 3 is published while a call that began earlier still holds
    a socket of its own. *)
Lemma journal_fd_singleton_witness :
  (forall r s, fd_plus_one s = 0 ->
     jfd_step r (L47 3) s = (L_ret 3, set_fd_plus_one (3 + 1) s)) /\
  fd_plus_one (shared process_settled) = 3 + 1 /\
  (forall t pc, (length (calls process_racing) <= t)%nat ->
     calls process_settled !! t = Some pc ->
     pc = L40 \/ pc = L41 \/ pc = L_ret 3) /\
  (forall t pc r, (length (calls process_racing) <= t)%nat ->
     calls process_settled !! t = Some pc ->
     (jfd_step r pc (shared process_settled)).2 = shared process_settled) /\
  (forall fuel K,
     journal_fd (S fuel) K (shared process_settled)
     = Some (3, shared process_settled)).
Proof.
  refine (journal_fd_singleton 3 _ process_racing process_settled _ _).
  - unfold INT_MAX. lia.
  - reflexivity.
  - exact process_racing_settles.
Defined.

(** C7: when [socket] fails in a world without a published descriptor,
    [journal_fd] returns minus the [errno] of the failure and leaves
    [fd_plus_one] at 0; the next call calls [socket] again. *)
Theorem journal_fd_failure_not_cached (fuel : nat) (K : kernel) (s : World) (e : Z) :
  fd_plus_one s = 0 ->
  sys_ret (reply K s) < 0 ->
  sys_errno (reply K s) = e ->
  0 < e <= INT_MAX ->
  exists s1,
    journal_fd (S fuel) K s = Some (- e, s1) /\
    fd_plus_one s1 = 0 /\
    trace s1 = trace s ++ [E_socket (sys_ret (reply K s))] /\
    sockets (trace s1) = sockets (trace s) /\
    (forall fuel', exists r2 s2,
        journal_fd (S fuel') K s1 = Some (r2, s2) /\
        trace s2 = trace s1 ++ [E_socket (sys_ret (reply K s1))]) /\
    jfd_step (reply K s) L43 s = (L_ret (- e), s1).
Proof.
  intros Hunpub Hfail He Hrange.
  exists (log (E_socket (sys_ret (reply K s))) s).
  assert (Hw : wrap_int (- e) = - e)
    by (apply wrap_int_id; unfold INT_MIN, INT_MAX in *; lia).
  split; [|split; [|split; [|split; [|split]]]].
  - rewrite journal_fd_cases by lia. rewrite Hunpub. cbn [Z.ltb Z.compare].
    test_is (sys_ret (reply K s) <? 0) true.
    now rewrite He, Hw.
  - exact Hunpub.
  - reflexivity.
  - cbn [log trace]. clear -Hfail. induction (trace s) as [|ev tr IH].
    + cbn. now test_is (sys_ret (reply K s) <? 0) true.
    + cbn [app sockets]. destruct ev; rewrite ?IH; reflexivity.
  - intros fuel'. rewrite journal_fd_cases by (rewrite fd_plus_one_log; lia).
    rewrite fd_plus_one_log, Hunpub. cbn [Z.ltb Z.compare].
    destruct (sys_ret (reply K (log (E_socket (sys_ret (reply K s))) s)) <? 0);
      eexists; eexists; split; reflexivity.
  - cbn [jfd_step].
    test_is (sys_ret (reply K s) <? 0) true.
    now rewrite He, Hw.
Qed.

(** The first call fails with EMFILE (24); so does the second. *)
Lemma journal_fd_failure_not_cached_witness :
  exists s1,
    journal_fd 1 kernel_emfile world0 = Some (- 24, s1) /\
    fd_plus_one s1 = 0 /\
    trace s1 = trace world0 ++ [E_socket (sys_ret (reply kernel_emfile world0))] /\
    sockets (trace s1) = sockets (trace world0) /\
    (forall fuel', exists r2 s2,
        journal_fd (S fuel') kernel_emfile s1 = Some (r2, s2) /\
        trace s2 = trace s1 ++ [E_socket (sys_ret (reply kernel_emfile s1))]) /\
    jfd_step (reply kernel_emfile world0) L43 world0 = (L_ret (- 24), s1).
Proof.
  apply (journal_fd_failure_not_cached 0 kernel_emfile world0 24).
  - reflexivity.
  - reflexivity.
  - reflexivity.
  - unfold INT_MAX. lia.
Defined.

(* ================================================================= *)
(** ** The datagram (C8) *)

Lemma datagrams_app (a b : list event) :
  datagrams (a ++ b) = datagrams a ++ datagrams b.
Proof.
  induction a as [|e a IH]; [reflexivity|].
  cbn [app datagrams]. destruct e; try exact IH.
  destruct (ret <? 0); [exact IH|]. cbn [app]. now rewrite IH.
Qed.

Lemma datagrams_log (e : event) (s : World) :
  datagrams (trace (log e s)) = datagrams (trace s) ++ datagrams [e].
Proof. cbn [log trace]. apply datagrams_app. Qed.

(** [journal_fd] sends nothing. *)
Lemma journal_fd_datagrams (fuel : nat) (K : kernel) (s : World) :
  0 <= fd_plus_one s ->
  exists fd s1,
    journal_fd (S fuel) K s = Some (fd, s1) /\
    datagrams (trace s1) = datagrams (trace s).
Proof.
  intros H0. rewrite journal_fd_cases by assumption.
  destruct (0 <? fd_plus_one s) eqn:E40.
  - eexists; eexists. split; reflexivity.
  - destruct (sys_ret (reply K s) <? 0) eqn:E44.
    + eexists; eexists. split; [reflexivity|].
      rewrite datagrams_log. cbn [datagrams]. apply app_nil_r.
    + eexists; eexists. split; [reflexivity|].
      cbn [set_fd_plus_one trace]. rewrite datagrams_log.
      cbn [datagrams]. apply app_nil_r.
Qed.

(** The call once the record is encoded and the descriptor is at hand:
    one [sendmsg], whose reply decides the result. *)
Lemma sendv_sends (fuel : nat) (K : kernel) (fs : list field) (n : Z)
    (s s1 : World) (fd : Z) :
  0 < n ->
  n = Z.of_nat (length fs) ->
  n * 5 <= INT_MAX ->
  forallb well_formed fs = true ->
  forallb fits_size_t fs = true ->
  journal_fd fuel K s = Some (fd, s1) ->
  0 <= fd ->
  sd_journal_sendv fuel K (Some fs) n s
  = Some (if sys_ret (reply K s1) <? 0 then wrap_int (- sys_errno (reply K s1)) else 0,
          log (E_sendmsg fd journal_path (wire fs) (sys_ret (reply K s1))) s1).
Proof.
  intros Hpos Hn Hint Hwf Hfit Hfd Hge. unfold sd_journal_sendv.
  test_is (n <=? 0) false.
  rewrite (encode_ok fs n) by assumption. rewrite Hfd.
  test_is (fd <? 0) false.
  unfold sendmsg. rewrite segments_frame by assumption.
  cbn [mbind res_mbind res_bind]. fold (wire fs).
  change (take (Z.to_nat (strlen journal_path)) journal_path) with journal_path.
  now destruct (sys_ret (reply K s1) <? 0).
Qed.

(** C8: a call returns 0 after one [sendmsg] that put the whole encoded
    record into one datagram, or it returns a negative value and no
    datagram left the process. *)
Theorem sendv_one_datagram_or_none
    (fuel : nat) (K : kernel) (iov : option (list field)) (n : Z) (s : World) :
  0 <= fd_plus_one s ->
  errno_set K ->
  (forall fs, iov = Some fs -> 0 < n ->
     n = Z.of_nat (length fs) /\ n * 5 <= INT_MAX /\ forallb fits_size_t fs = true) ->
  exists r s',
    sd_journal_sendv (S fuel) K iov n s = Some (r, s') /\
    ((r = 0 /\
      exists fs data,
        iov = Some fs /\ encode_bytes fs n = Ok data /\
        datagrams (trace s') = datagrams (trace s) ++ [data]) \/
     (r < 0 /\ datagrams (trace s') = datagrams (trace s))).
Proof.
  intros H0 Herrno Hargs.
  destruct iov as [fs|].
  2: { exists (- EINVAL), s. split; [reflexivity|]. right. split; [reflexivity|reflexivity]. }
  destruct (Z.leb_spec n 0) as [Hn0 | Hpos].
  { exists (- EINVAL), s. split.
    { unfold sd_journal_sendv. now test_is (n <=? 0) true. }
    right. split; reflexivity. }
  destruct (Hargs fs eq_refl Hpos) as (Hn & Hint & Hfit).
  destruct (forallb well_formed fs) eqn:Hwf.
  - destruct (journal_fd_datagrams fuel K s H0) as (fd & s1 & Hfd & Hdg).
    destruct (Z.ltb_spec fd 0) as [Hneg | Hge].
    + exists fd, s1. split.
      * unfold sd_journal_sendv.
        test_is (n <=? 0) false.
        rewrite (encode_ok fs n) by assumption. rewrite Hfd.
        now test_is (fd <? 0) true.
      * right. split; assumption.
    + eexists; eexists. split; [now apply (sendv_sends (S fuel) K fs n s s1 fd)|].
      rewrite datagrams_log, Hdg. cbn [datagrams].
      destruct (Z.ltb_spec (sys_ret (reply K s1)) 0) as [Hfail | Hok].
      * right. split; [|apply app_nil_r].
        pose proof (Herrno (length (trace s1)) Hfail) as [He1 He2].
        fold (reply K s1) in He1, He2.
        rewrite wrap_int_id; unfold INT_MIN, INT_MAX in *; lia.
      * left. split; [reflexivity|]. exists fs, (wire fs).
        split; [reflexivity|]. split; [now apply encode_bytes_ok|reflexivity].
  - exists (- EINVAL), s. split.
    + apply forallb_well_formed_false in Hwf.
      now apply sendv_malformed.
    + right. split; reflexivity.
Qed.

(** The spec's first scenario: one datagram, "MESSAGE=hello world\n". *)
Lemma sendv_one_datagram_or_none_witness :
  exists r s',
    sd_journal_sendv 1 kernel_fine (Some [bytes "MESSAGE=hello world"]) 1 world0
    = Some (r, s') /\
    ((r = 0 /\
      exists fs data,
        Some [bytes "MESSAGE=hello world"] = Some fs /\
        encode_bytes fs 1 = Ok data /\
        datagrams (trace s') = datagrams (trace world0) ++ [data]) \/
     (r < 0 /\ datagrams (trace s') = datagrams (trace world0))).
Proof.
  apply (sendv_one_datagram_or_none 0 kernel_fine
           (Some [bytes "MESSAGE=hello world"]) 1 world0).
  - simpl. lia.
  - intros k H. vm_compute in H. discriminate.
  - intros fs H _. injection H as <-.
    split; [reflexivity|]. split; [vm_compute; discriminate|reflexivity].
Defined.

(** What the three kernels of the examples do with the spec's first
    scenario. *)
Example sendv_hello_world :
  sd_journal_sendv 1 kernel_fine (Some [bytes "MESSAGE=hello world"]) 1 world0
  = Some (0, {| fd_plus_one := 4;
                trace := [E_socket 3;
                          E_sendmsg 3 (bytes "/run/systemd/journal")
                            (bytes "MESSAGE=hello world" ++ [NL]) 3] |}).
Proof. reflexivity. Qed.

Example sendv_no_descriptor :
  sd_journal_sendv 1 kernel_emfile (Some [bytes "MESSAGE=hello world"]) 1 world0
  = Some (- 24, {| fd_plus_one := 0; trace := [E_socket (-1)] |}).
Proof. reflexivity. Qed.

Example sendv_refused :
  sd_journal_sendv 1 kernel_refused (Some [bytes "MESSAGE=hello world"]) 1 world0
  = Some (- 111, {| fd_plus_one := 4;
                    trace := [E_socket 3;
                              E_sendmsg 3 (bytes "/run/systemd/journal")
                                (bytes "MESSAGE=hello world" ++ [NL]) (-1)] |})
  /\ datagrams [E_socket 3;
                E_sendmsg 3 (bytes "/run/systemd/journal")
                  (bytes "MESSAGE=hello world" ++ [NL]) (-1)] = [].
Proof. split; reflexivity. Qed.

(** The spec's second scenario: "DATA\n", the length 11 in eight bytes,
    "line1\nline2", "\n". *)
Example encode_bytes_data :
  encode_bytes [field_data] 1
  = Ok (bytes "DATA" ++ [NL] ++ [x0b; x00; x00; x00; x00; x00; x00; x00]
        ++ bytes "line1" ++ [NL] ++ bytes "line2" ++ [NL]).
Proof. reflexivity. Qed.

(* ================================================================= *)
(** ** The formatted message (C10) *)

Lemma strlen_nonneg (s : list byte) : 0 <= strlen s.
Proof.
  induction s as [|x s IH]; cbn [strlen]; [lia|].
  destruct (Byte.eqb x NUL); lia.
Qed.

Lemma c_string_cons (x : byte) (s : list byte) :
  c_string (x :: s) = if Byte.eqb x NUL then [] else x :: c_string s.
Proof.
  unfold c_string. cbn [strlen]. destruct (Byte.eqb x NUL); [reflexivity|].
  pose proof (strlen_nonneg s).
  replace (Z.to_nat (1 + strlen s)) with (S (Z.to_nat (strlen s))) by lia.
  reflexivity.
Qed.

Lemma c_string_nil : c_string [] = [].
Proof. reflexivity. Qed.

(** What follows the first NUL does not count. *)
Lemma c_string_app_NUL (t rest : list byte) :
  c_string (t ++ NUL :: rest) = c_string t.
Proof.
  induction t as [|x t IH]; [reflexivity|].
  cbn [app]. rewrite !c_string_cons, IH. reflexivity.
Qed.

Lemma c_string_app_prefix (a b : list byte) :
  has_byte NUL a = false -> c_string (a ++ b) = a ++ c_string b.
Proof.
  unfold has_byte. induction a as [|x a IH]; cbn [existsb app]; intros H;
    [reflexivity|].
  apply orb_false_iff in H as [Hx Ha].
  rewrite c_string_cons, Hx, IH by assumption. reflexivity.
Qed.

Lemma length_c_string (s : list byte) : (length (c_string s) <= length s)%nat.
Proof. unfold c_string. rewrite length_take. lia. Qed.

(** Line 73 stores a NUL over the last byte of an array that has a NUL
    before its end: the bytes up to that NUL stay. *)
Lemma char_array_0_after_NUL (pre junk0 : list byte) :
  exists junk, char_array_0 (pre ++ NUL :: junk0) = pre ++ NUL :: junk.
Proof.
  unfold char_array_0. rewrite length_app. cbn [length].
  replace (Nat.pred (length pre + S (length junk0)))
    with (length pre + length junk0)%nat by lia.
  rewrite insert_app_r.
  destruct junk0 as [|y junk0].
  - exists []. reflexivity.
  - exists (<[length junk0 := NUL]> (y :: junk0)). reflexivity.
Qed.

(** Lines 70-73 on any text: "MESSAGE=", the characters that fit, a NUL,
    and whatever the stack held after that. *)
Lemma printv_buffer_layout (buffer text : list byte) :
  exists junk,
    printv_buffer buffer text
    = list_byte_of_string "MESSAGE=" ++
      take (Z.to_nat (LINE_MAX - 1)) text ++ NUL :: junk.
Proof.
  unfold printv_buffer, memcpy, vsnprintf, sizeof_buffer.
  change (take 8 (list_byte_of_string "MESSAGE=")) with (list_byte_of_string "MESSAGE=").
  rewrite take_app_length' by reflexivity.
  rewrite drop_app_length' by reflexivity.
  replace (8 + LINE_MAX - 8) with LINE_MAX by lia.
  change (LINE_MAX <=? 0) with false. cbn iota. unfold memcpy.
  rewrite firstn_all.
  set (t := take (Z.to_nat (LINE_MAX - 1)) text).
  set (junk0 := drop (length (t ++ [NUL])) (drop 8 buffer)).
  replace (list_byte_of_string "MESSAGE=" ++ (t ++ [NUL]) ++ junk0)
    with ((list_byte_of_string "MESSAGE=" ++ t) ++ NUL :: junk0)
    by (rewrite <- !app_assoc; reflexivity).
  destruct (char_array_0_after_NUL (list_byte_of_string "MESSAGE=" ++ t) junk0)
    as [junk Hj].
  exists junk. rewrite Hj. now rewrite <- app_assoc.
Qed.

(** Lines 70-76 on any text: the segment handed to [sd_journal_sendv]. *)
Lemma printv_field (fuel : nat) (K : kernel) (buffer text : list byte) (s : World) :
  sd_journal_printv fuel K buffer text s
  = sd_journal_sendv fuel K (Some [message_field text]) 1 s.
Proof.
  unfold sd_journal_printv. cbv zeta.
  destruct (printv_buffer_layout buffer text) as [junk ->].
  fold (c_string (list_byte_of_string "MESSAGE=" ++
                  take (Z.to_nat (LINE_MAX - 1)) text ++ NUL :: junk)).
  rewrite c_string_app_prefix by reflexivity.
  now rewrite c_string_app_NUL.
Qed.

Lemma message_field_well_formed (text : list byte) :
  well_formed (message_field text) = true /\
  fits_size_t (message_field text) = true /\
  field_name (message_field text) = list_byte_of_string "MESSAGE" /\
  field_value (message_field text) = c_string (take (Z.to_nat (LINE_MAX - 1)) text).
Proof.
  unfold message_field.
  set (v := c_string (take (Z.to_nat (LINE_MAX - 1)) text)).
  change (list_byte_of_string "MESSAGE=" ++ v)
    with (list_byte_of_string "MESSAGE" ++ EQ :: v).
  destruct (field_name_value (list_byte_of_string "MESSAGE") v eq_refl)
    as [Hname Hvalue].
  split; [|split; [|split]]; try assumption.
  - unfold well_formed. rewrite Hname.
    rewrite has_byte_app. cbn [has_byte existsb]. 
    change (Byte.eqb EQ EQ) with true.
    now rewrite orb_true_r.
  - unfold fits_size_t, field_len. apply Z.leb_le.
    rewrite length_app. cbn [length].
    pose proof (length_c_string (take (Z.to_nat (LINE_MAX - 1)) text)) as Hc.
    fold v in Hc. rewrite length_take in Hc.
    change (length (list_byte_of_string "MESSAGE")) with 7%nat.
    unfold SIZE_MAX. unfold LINE_MAX in Hc. lia.
Qed.

(** With a kernel that does not fail, [journal_fd] returns a
    descriptor. *)
Lemma journal_fd_succeeds (fuel : nat) (K : kernel) (s : World) :
  0 <= fd_plus_one s <= INT_MAX ->
  kernel_succeeds K ->
  exists fd s1,
    journal_fd (S fuel) K s = Some (fd, s1) /\
    0 <= fd /\
    datagrams (trace s1) = datagrams (trace s).
Proof.
  intros H0 HK. rewrite journal_fd_cases by lia.
  destruct (Z.ltb_spec 0 (fd_plus_one s)) as [Hpub | Hunpub].
  - eexists; eexists. split; [reflexivity|]. split; [|reflexivity].
    rewrite wrap_int_id; unfold INT_MIN, INT_MAX in *; lia.
  - pose proof (HK (length (trace s))) as Hret. fold (reply K s) in Hret.
    test_is (sys_ret (reply K s) <? 0) false.
    eexists; eexists. split; [reflexivity|]. split; [exact Hret|].
    cbn [set_fd_plus_one trace]. rewrite datagrams_log.
    cbn [datagrams]. apply app_nil_r.
Qed.

(** A record of well-formed fields, a kernel that does not fail: the call
    returns 0 and the record is the one datagram sent. *)
Lemma sendv_succeeds (fuel : nat) (K : kernel) (fs : list field) (n : Z) (s : World) :
  0 < n ->
  n = Z.of_nat (length fs) ->
  n * 5 <= INT_MAX ->
  forallb well_formed fs = true ->
  forallb fits_size_t fs = true ->
  0 <= fd_plus_one s <= INT_MAX ->
  kernel_succeeds K ->
  exists s',
    sd_journal_sendv (S fuel) K (Some fs) n s = Some (0, s') /\
    datagrams (trace s') = datagrams (trace s) ++ [wire fs].
Proof.
  intros Hpos Hn Hint Hwf Hfit H0 HK.
  destruct (journal_fd_succeeds fuel K s H0 HK) as (fd & s1 & Hfd & Hge & Hdg).
  eexists. split.
  - rewrite (sendv_sends (S fuel) K fs n s s1 fd) by assumption.
    pose proof (HK (length (trace s1))) as Hret. fold (reply K s1) in Hret.
    now test_is (sys_ret (reply K s1) <? 0) false.
  - rewrite datagrams_log, Hdg. cbn [datagrams].
    pose proof (HK (length (trace s1))) as Hret. fold (reply K s1) in Hret.
    now test_is (sys_ret (reply K s1) <? 0) false.
Qed.

(** Lines 70-73 on a text that does not fit: the array is filled to its
    last byte. *)
Lemma printv_buffer_full (buffer text : list byte) :
  length buffer = Z.to_nat sizeof_buffer ->
  LINE_MAX <= Z.of_nat (length text) ->
  printv_buffer buffer text
  = list_byte_of_string "MESSAGE=" ++
    take (Z.to_nat (LINE_MAX - 1)) text ++ [NUL].
Proof.
  intros Hbuf Hlong.
  unfold printv_buffer, memcpy, vsnprintf, sizeof_buffer in *.
  change (take 8 (list_byte_of_string "MESSAGE=")) with (list_byte_of_string "MESSAGE=").
  rewrite take_app_length' by reflexivity.
  rewrite drop_app_length' by reflexivity.
  replace (8 + LINE_MAX - 8) with LINE_MAX by lia.
  change (LINE_MAX <=? 0) with false. cbn iota. unfold memcpy.
  rewrite firstn_all.
  set (t := take (Z.to_nat (LINE_MAX - 1)) text).
  assert (Ht : length t = Z.to_nat (LINE_MAX - 1)).
  { unfold t. rewrite length_take. unfold LINE_MAX in *. lia. }
  rewrite drop_ge.
  2: { rewrite length_drop, length_app, Ht, Hbuf. cbn [length].
       unfold LINE_MAX. lia. }
  rewrite app_nil_r. unfold char_array_0.
  replace (Nat.pred (length (list_byte_of_string "MESSAGE=" ++ t ++ [NUL])))
    with (length (list_byte_of_string "MESSAGE=" ++ t) + 0)%nat
    by (rewrite !length_app; cbn [length]; lia).
  rewrite app_assoc, insert_app_r. reflexivity.
Qed.

(** C10: when the formatted text and its NUL do not fit into the
    [LINE_MAX] bytes after "MESSAGE=", lines 70-73 leave "MESSAGE=", the
    first [LINE_MAX - 1] characters of the text and a NUL in [buffer], and
    the call is the call of [sd_journal_sendv] on that one field, which is
    well formed for every text: nothing reports the truncation, and with a
    kernel that does not fail the result is 0 and the truncated field is
    the datagram. *)
Theorem printv_truncates_silently
    (fuel : nat) (K : kernel) (buffer text : list byte) (s : World) :
  length buffer = Z.to_nat sizeof_buffer ->
  LINE_MAX <= Z.of_nat (length text) ->
  printv_buffer buffer text
  = list_byte_of_string "MESSAGE=" ++ take (Z.to_nat (LINE_MAX - 1)) text ++ [NUL] /\
  length (printv_buffer buffer text) = length buffer /\
  sd_journal_printv fuel K buffer text s
  = sd_journal_sendv fuel K (Some [message_field text]) 1 s /\
  sd_journal_print fuel K buffer text s
  = sd_journal_sendv fuel K (Some [message_field text]) 1 s /\
  Z.of_nat (length (message_field text)) < sizeof_buffer /\
  well_formed (message_field text) = true /\
  (0 <= fd_plus_one s <= INT_MAX ->
   kernel_succeeds K ->
   exists s',
     sd_journal_printv (S fuel) K buffer text s = Some (0, s') /\
     datagrams (trace s') = datagrams (trace s) ++ [wire [message_field text]]).
Proof.
  intros Hbuf Hlong.
  pose proof (printv_buffer_full buffer text Hbuf Hlong) as Hfull.
  destruct (message_field_well_formed text) as (Hwf & Hfit & _ & _).
  split; [exact Hfull|]. split; [|split; [|split; [|split; [|split]]]].
  - rewrite Hfull, Hbuf, !length_app, length_take.
    change (length (list_byte_of_string "MESSAGE=")) with 8%nat. cbn [length].
    unfold sizeof_buffer, LINE_MAX in *. lia.
  - apply printv_field.
  - unfold sd_journal_print. apply printv_field.
  - unfold message_field. rewrite length_app.
    pose proof (length_c_string (take (Z.to_nat (LINE_MAX - 1)) text)) as Hc.
    rewrite length_take in Hc.
    change (length (list_byte_of_string "MESSAGE=")) with 8%nat.
    unfold sizeof_buffer, LINE_MAX in *. lia.
  - exact Hwf.
  - intros H0 HK. rewrite printv_field.
    apply (sendv_succeeds fuel K [message_field text] 1 s).
    + lia.
    + reflexivity.
    + unfold INT_MAX. lia.
    + cbn [forallb]. now rewrite Hwf.
    + cbn [forallb]. now rewrite Hfit.
    + exact H0.
    + exact HK.
Qed.

(** A text of 3000 characters: 2047 of them are sent. *)
Lemma printv_truncates_silently_witness :
  printv_buffer stack_junk long_text
  = list_byte_of_string "MESSAGE=" ++ take (Z.to_nat (LINE_MAX - 1)) long_text ++ [NUL] /\
  length (printv_buffer stack_junk long_text) = length stack_junk /\
  sd_journal_printv 1 kernel_fine stack_junk long_text world0
  = sd_journal_sendv 1 kernel_fine (Some [message_field long_text]) 1 world0 /\
  sd_journal_print 1 kernel_fine stack_junk long_text world0
  = sd_journal_sendv 1 kernel_fine (Some [message_field long_text]) 1 world0 /\
  Z.of_nat (length (message_field long_text)) < sizeof_buffer /\
  well_formed (message_field long_text) = true /\
  (0 <= fd_plus_one world0 <= INT_MAX ->
   kernel_succeeds kernel_fine ->
   exists s',
     sd_journal_printv 2 kernel_fine stack_junk long_text world0 = Some (0, s') /\
     datagrams (trace s')
     = datagrams (trace world0) ++ [wire [message_field long_text]]).
Proof.
  apply (printv_truncates_silently 1 kernel_fine stack_junk long_text world0).
  - vm_compute. reflexivity.
  - vm_compute. discriminate.
Defined.

(** The message that goes out for the long text: "MESSAGE=" and 2047
    times 'x'; the newline at the end of the text is lost. *)
Example printv_long_text :
  message_field long_text = bytes "MESSAGE=" ++ replicate 2047 x78 /\
  exists s',
    sd_journal_printv 1 kernel_fine stack_junk long_text world0 = Some (0, s') /\
    datagrams (trace s') = [bytes "MESSAGE=" ++ replicate 2047 x78 ++ [NL]].
Proof.
  split; [vm_compute; reflexivity|].
  eexists. split; vm_compute; reflexivity.
Qed.

(* ================================================================= *)
(** * Further properties of the code *)

(* ================================================================= *)
(** ** The encoder reads [n] entries and no more *)

Lemma length_layout_le (fs : list field) (i : Z) :
  (length (layout i fs) <= 5 * length fs)%nat.
Proof.
  revert i. induction fs as [|f fs IH]; intros i; cbn [layout length]; [lia|].
  rewrite length_app. specialize (IH (i + 1)).
  pose proof (length_field_iovecs_le i f). lia.
Qed.

(** The frame that the loop builds from the first entries [fs] of [iov],
    read against [iov]. *)
Lemma segments_frame_prefix (iov fs : list field) :
  (forall m f, fs !! m = Some f -> iov !! m = Some f) ->
  forallb well_formed fs = true ->
  forallb fits_size_t fs = true ->
  segments iov (frame_of (5 * length fs) (length fs) (layout 0 fs)
                         (map prefix_slot fs))
  = Ok (concat (map field_segments fs)).
Proof.
  intros Hsub Hwf Hfit. unfold segments.
  pose proof (length_layout_le fs 0) as Hcap.
  rewrite length_frame_w by assumption.
  cbn [frame_of fr_w fr_l fr_j].
  assert (Hb : (0 <=? Z.of_nat (length (layout 0 fs))) &&
               (Z.of_nat (length (layout 0 fs)) <=? Z.of_nat (5 * length fs)) = true).
  { apply andb_true_iff; split; apply Z.leb_le; lia. }
  rewrite Hb, Nat2Z.id.
  rewrite take_app_length' by now rewrite length_fmap.
  rewrite length_map, Nat.sub_diag. cbn [replicate]. rewrite app_nil_r.
  apply (read_slots_layout iov (map prefix_slot fs) fs 0%nat); try assumption.
  intros m f Hm. cbn [Nat.add]. split; [now apply Hsub|].
  change (map prefix_slot fs) with (prefix_slot <$> fs).
  now rewrite list_lookup_fmap, Hm.
Qed.

Lemma encode_prefix_ok (iov : list field) (n : Z) :
  0 <= n <= Z.of_nat (length iov) ->
  n * 5 <= INT_MAX ->
  forallb well_formed (take (Z.to_nat n) iov) = true ->
  encode iov n
  = Ok (frame_of (5 * length (take (Z.to_nat n) iov)) (length (take (Z.to_nat n) iov))
          (layout 0 (take (Z.to_nat n) iov))
          (map prefix_slot (take (Z.to_nat n) iov))).
Proof.
  intros Hn Hint Hwf. unfold encode, alloca_frame.
  set (fs := take (Z.to_nat n) iov) in *.
  assert (Hlen : length fs = Z.to_nat n) by (unfold fs; rewrite length_take; lia).
  replace (Z.to_nat (n * 5)) with (5 * length fs)%nat by lia.
  rewrite <- Hlen.
  pose proof (encode_loop_run iov (5 * length fs) (length fs) fs 0 [] []) as H.
  cbn [length app Nat.add Z.of_nat encode_loop] in H.
  rewrite Nat.add_0_r in H.
  unfold frame_of in H at 1. cbn [length fmap list_fmap app Z.of_nat] in H.
  rewrite !Nat.sub_0_r in H. apply H; try assumption; try lia.
  intros m f Hm. unfold fs in Hm. apply lookup_take_Some in Hm. tauto.
Qed.

(** X1: the loop looks at [iov[0 .. n)] only.  Whatever the array holds
    from index [n] on, malformed entries included, the call encodes the
    first [n] entries as if they were the whole array. *)
Theorem encode_reads_first_n (iov : list field) (n : Z) :
  0 <= n <= Z.of_nat (length iov) ->
  n * 5 <= INT_MAX ->
  forallb fits_size_t (take (Z.to_nat n) iov) = true ->
  encode_bytes iov n = encode_bytes (take (Z.to_nat n) iov) n /\
  (forallb well_formed (take (Z.to_nat n) iov) = true ->
   encode_bytes iov n = Ok (wire (take (Z.to_nat n) iov))) /\
  (forallb well_formed (take (Z.to_nat n) iov) = false ->
   encode_bytes iov n = Return (- EINVAL)).
Proof.
  intros Hn Hint Hfit.
  set (fs := take (Z.to_nat n) iov) in *.
  assert (Hlen : n = Z.of_nat (length fs)) by (unfold fs; rewrite length_take; lia).
  assert (Hgood : forallb well_formed fs = true -> encode_bytes iov n = Ok (wire fs)).
  { intros Hwf. unfold encode_bytes.
    rewrite (encode_prefix_ok iov n) by assumption. fold fs.
    cbn [mbind res_mbind res_bind].
    rewrite segments_frame_prefix; [reflexivity| |assumption|assumption].
    intros m f Hm. unfold fs in Hm. apply lookup_take_Some in Hm. tauto. }
  assert (Hbad : forallb well_formed fs = false -> encode_bytes iov n = Return (- EINVAL)).
  { intros Hwf. unfold encode_bytes.
    apply forallb_false_split in Hwf as (pre & bad & post & Hfs & Hpre & Hb).
    assert (Hiov : iov = pre ++ bad :: (post ++ drop (Z.to_nat n) iov)).
    { rewrite <- (take_drop (Z.to_nat n) iov) at 1. fold fs. rewrite Hfs.
      now rewrite <- app_assoc. }
    rewrite Hiov at 1. rewrite encode_bad; [reflexivity|assumption|assumption| |assumption].
    rewrite Hlen, Hfs, length_app. cbn [length]. lia. }
  split; [|split; assumption].
  destruct (forallb well_formed fs) eqn:Hwf.
  - rewrite Hgood by reflexivity. symmetry.
    now apply encode_bytes_ok.
  - rewrite Hbad by reflexivity. symmetry. unfold encode_bytes.
    rewrite encode_malformed; [reflexivity|assumption|assumption|].
    now apply forallb_well_formed_false.
Qed.

(** An array of two entries, the second of them malformed, and a count
    of one. *)
Lemma encode_reads_first_n_witness :
  encode_bytes [bytes "A=1"; bytes "novalue"] 1
  = encode_bytes (take (Z.to_nat 1) [bytes "A=1"; bytes "novalue"]) 1 /\
  (forallb well_formed (take (Z.to_nat 1) [bytes "A=1"; bytes "novalue"]) = true ->
   encode_bytes [bytes "A=1"; bytes "novalue"] 1
   = Ok (wire (take (Z.to_nat 1) [bytes "A=1"; bytes "novalue"]))) /\
  (forallb well_formed (take (Z.to_nat 1) [bytes "A=1"; bytes "novalue"]) = false ->
   encode_bytes [bytes "A=1"; bytes "novalue"] 1 = Return (- EINVAL)).
Proof.
  apply (encode_reads_first_n [bytes "A=1"; bytes "novalue"] 1).
  - simpl. lia.
  - vm_compute. discriminate.
  - reflexivity.
Defined.

(* ================================================================= *)
(** ** The bytes of a record *)

Lemma wire_app (a b : list field) : wire (a ++ b) = wire a ++ wire b.
Proof. unfold wire. now rewrite map_app, !concat_app. Qed.

(** X2: the bytes of a record are the bytes of its fields one after the
    other: a record of the fields [a] followed by the fields [b] is encoded
    as the record [a] followed by the record [b]. *)
Theorem encode_bytes_app (a b : list field) (n : Z) :
  n = Z.of_nat (length (a ++ b)) ->
  n * 5 <= INT_MAX ->
  forallb well_formed (a ++ b) = true ->
  forallb fits_size_t (a ++ b) = true ->
  exists da db,
    encode_bytes a (Z.of_nat (length a)) = Ok da /\
    encode_bytes b (Z.of_nat (length b)) = Ok db /\
    encode_bytes (a ++ b) n = Ok (da ++ db).
Proof.
  intros Hn Hint Hwf Hfit.
  pose proof Hwf as Hwf'. pose proof Hfit as Hfit'.
  rewrite forallb_app in Hwf', Hfit'.
  apply andb_true_iff in Hwf' as [Hwa Hwb].
  apply andb_true_iff in Hfit' as [Hfa Hfb].
  rewrite length_app in Hn.
  exists (wire a), (wire b). split; [|split].
  - apply encode_bytes_ok; try assumption; try reflexivity. lia.
  - apply encode_bytes_ok; try assumption; try reflexivity. lia.
  - rewrite <- wire_app. apply encode_bytes_ok; try assumption.
    now rewrite length_app.
Qed.

Lemma encode_bytes_app_witness :
  exists da db,
    encode_bytes [bytes "MESSAGE=hello"] (Z.of_nat (length [bytes "MESSAGE=hello"])) = Ok da /\
    encode_bytes [field_data; field_blob] (Z.of_nat (length [field_data; field_blob])) = Ok db /\
    encode_bytes ([bytes "MESSAGE=hello"] ++ [field_data; field_blob]) 3 = Ok (da ++ db).
Proof.
  apply (encode_bytes_app [bytes "MESSAGE=hello"] [field_data; field_blob] 3);
    first [ reflexivity | vm_compute; discriminate ].
Defined.

Lemma length_field_wire (f : field) :
  Z.of_nat (length (concat (field_segments f)))
  = Z.of_nat (length f) + 1 + (if binary_safe f then 8 else 0).
Proof.
  unfold field_segments. destruct (binary_safe f) eqn:Hbin.
  - assert (HEQ : has_byte EQ f = true).
    { unfold binary_safe, field_value, has_byte in *.
      destruct (break_cases is_EQ f) as [[_ E]|(pre & b & post & -> & Hb & _ & _)].
      - rewrite E in Hbin. cbn in Hbin. discriminate.
      - rewrite existsb_app. cbn [existsb]. unfold is_EQ in Hb.
        now rewrite Hb, orb_true_r. }
    destruct (field_split f HEQ) as [Hf _].
    cbn [concat]. rewrite !length_app, length_le_bytes. cbn [length].
    rewrite Hf at 3. rewrite length_app. cbn [length]. lia.
  - cbn [concat]. rewrite !length_app. cbn [length]. lia.
Qed.

Lemma length_wire_sum (fs : list field) :
  Z.of_nat (length (wire fs))
  = Z.of_nat (length (concat fs)) + Z.of_nat (length fs)
    + 8 * Z.of_nat (count_if binary_safe fs).
Proof.
  unfold count_if. induction fs as [|f fs IH]; [reflexivity|].
  rewrite wire_cons. cbn [concat List.filter].
  rewrite !length_app, !Nat2Z.inj_add, IH, length_field_wire.
  destruct (binary_safe f); cbn [length]; lia.
Qed.

(** X3: the size of the datagram.  A record takes the bytes of its fields,
    one more byte for every field, and eight more for every field with a
    newline in its value. *)
Theorem datagram_size (iov : list field) (n : Z) :
  n = Z.of_nat (length iov) ->
  n * 5 <= INT_MAX ->
  forallb well_formed iov = true ->
  forallb fits_size_t iov = true ->
  exists data,
    encode_bytes iov n = Ok data /\
    Z.of_nat (length data)
    = Z.of_nat (length (concat iov)) + n + 8 * Z.of_nat (count_if binary_safe iov).
Proof.
  intros Hn Hint Hwf Hfit. exists (wire iov).
  split; [now apply encode_bytes_ok|].
  rewrite length_wire_sum. lia.
Qed.

Lemma datagram_size_witness :
  exists data,
    encode_bytes [bytes "MESSAGE=hello"; field_data] 2 = Ok data /\
    Z.of_nat (length data)
    = Z.of_nat (length (concat [bytes "MESSAGE=hello"; field_data])) + 2
      + 8 * Z.of_nat (count_if binary_safe [bytes "MESSAGE=hello"; field_data]).
Proof.
  apply (datagram_size [bytes "MESSAGE=hello"; field_data] 2);
    first [ reflexivity | vm_compute; discriminate ].
Defined.

Lemma split_field_inj (fs gs : list field) :
  forallb well_formed fs = true ->
  forallb well_formed gs = true ->
  map split_field fs = map split_field gs ->
  fs = gs.
Proof.
  revert gs. induction fs as [|f fs IH]; intros [|g gs] Hf Hg H; try discriminate.
  - reflexivity.
  - simpl in Hf, Hg, H.
    apply andb_true_iff in Hf as [Hf Hfs]. apply andb_true_iff in Hg as [Hg Hgs].
    unfold split_field in H at 1 3. injection H as Hname Hvalue Hrest.
    apply andb_true_iff in Hf as [HfEQ _]. apply andb_true_iff in Hg as [HgEQ _].
    destruct (field_split f HfEQ) as [Ef _]. destruct (field_split g HgEQ) as [Eg _].
    f_equal; [|now apply IH].
    rewrite Ef, Eg, Hname, Hvalue. reflexivity.
Qed.

Lemma encode_bytes_Ok_well_formed (iov : list field) (n : Z) (data : list byte) :
  n = Z.of_nat (length iov) ->
  n * 5 <= INT_MAX ->
  encode_bytes iov n = Ok data ->
  forallb well_formed iov = true.
Proof.
  intros Hn Hint H. destruct (forallb well_formed iov) eqn:E; [reflexivity|].
  apply forallb_well_formed_false in E.
  unfold encode_bytes in H. rewrite (encode_malformed iov n Hn Hint E) in H.
  discriminate.
Qed.

(** X4: the wire format is unambiguous.  Two records that the loop encodes
    to the same bytes are the same record: the same fields in the same
    order. *)
Theorem encode_bytes_injective (iov1 iov2 : list field) (n1 n2 : Z) (data : list byte) :
  n1 = Z.of_nat (length iov1) ->
  n2 = Z.of_nat (length iov2) ->
  n1 * 5 <= INT_MAX ->
  n2 * 5 <= INT_MAX ->
  forallb fits_size_t iov1 = true ->
  forallb fits_size_t iov2 = true ->
  encode_bytes iov1 n1 = Ok data ->
  encode_bytes iov2 n2 = Ok data ->
  iov1 = iov2.
Proof.
  intros Hn1 Hn2 Hi1 Hi2 Hf1 Hf2 H1 H2.
  pose proof (encode_bytes_Ok_well_formed iov1 n1 data Hn1 Hi1 H1) as Hw1.
  pose proof (encode_bytes_Ok_well_formed iov2 n2 data Hn2 Hi2 H2) as Hw2.
  rewrite (encode_bytes_ok iov1 n1) in H1 by assumption.
  rewrite (encode_bytes_ok iov2 n2) in H2 by assumption.
  injection H1 as E1. injection H2 as E2.
  apply split_field_inj; try assumption.
  pose proof (parse_fields_wire iov1 (length (wire iov1)) (length_wire iov1) Hw1 Hf1) as P1.
  pose proof (parse_fields_wire iov2 (length (wire iov2)) (length_wire iov2) Hw2 Hf2) as P2.
  rewrite E1 in P1. rewrite E2 in P2. congruence.
Qed.

Lemma encode_bytes_injective_witness :
  [bytes "A=1"; field_data] = [bytes "A=1"; field_data].
Proof.
  apply (encode_bytes_injective [bytes "A=1"; field_data] [bytes "A=1"; field_data] 2 2
           (wire [bytes "A=1"; field_data]));
    first [ reflexivity | vm_compute; discriminate ].
Defined.

(* ================================================================= *)
(** ** No socket is lost in the race *)

Lemma sockets_app (a b : list event) : sockets (a ++ b) = sockets a ++ sockets b.
Proof.
  induction a as [|e a IH]; [reflexivity|].
  cbn [app sockets]. destruct e; try exact IH.
  destruct (ret <? 0); [exact IH|]. cbn [app]. now rewrite IH.
Qed.

Lemma closes_app (a b : list event) : closes (a ++ b) = (closes a + closes b)%nat.
Proof.
  induction a as [|e a IH]; [reflexivity|].
  cbn [app closes]. destruct e; rewrite IH; reflexivity.
Qed.

Lemma sockets_nonneg (tr : list event) (fd : Z) : In fd (sockets tr) -> 0 <= fd.
Proof.
  induction tr as [|e tr IH]; cbn [sockets]; [intros []|].
  destruct e; try exact IH.
  destruct (Z.ltb_spec ret 0) as [Hneg | Hpos]; [exact IH|].
  intros [<- | Hin]; [assumption|now apply IH].
Qed.









(* ================================================================= *)
(** ** Successive calls of [sd_journal_sendv] *)

Lemma sendv_no_descriptor_returns (fuel : nat) (K : kernel) (fs : list field) (n : Z)
    (s s1 : World) (fd : Z) :
  0 < n ->
  n = Z.of_nat (length fs) ->
  n * 5 <= INT_MAX ->
  forallb well_formed fs = true ->
  journal_fd fuel K s = Some (fd, s1) ->
  fd < 0 ->
  sd_journal_sendv fuel K (Some fs) n s = Some (fd, s1).
Proof.
  intros Hpos Hn Hint Hwf Hfd Hneg. unfold sd_journal_sendv.
  test_is (n <=? 0) false.
  rewrite (encode_ok fs n) by assumption. rewrite Hfd.
  now test_is (fd <? 0) true.
Qed.

(** X6: the first record a process sends creates the socket, and the
    second is sent on the same descriptor with no further [socket] call:
    after two calls the system calls made are one [socket] and two
    [sendmsg], both to the journal's address, each carrying one encoded
    record. *)
Theorem sendv_twice_one_socket (fuel : nat) (K : kernel)
    (fs1 fs2 : list field) (n1 n2 : Z) (s : World) :
  fd_plus_one s = 0 ->
  kernel_succeeds K ->
  descriptors_small K ->
  sendable fs1 n1 ->
  sendable fs2 n2 ->
  exists s1 s2 r1 r2,
    sd_journal_sendv (S fuel) K (Some fs1) n1 s = Some (0, s1) /\
    sd_journal_sendv (S fuel) K (Some fs2) n2 s1 = Some (0, s2) /\
    trace s2
    = trace s ++ [E_socket (sys_ret (reply K s));
                  E_sendmsg (sys_ret (reply K s)) journal_path (wire fs1) r1;
                  E_sendmsg (sys_ret (reply K s)) journal_path (wire fs2) r2] /\
    fd_plus_one s1 = sys_ret (reply K s) + 1 /\
    fd_plus_one s2 = sys_ret (reply K s) + 1.
Proof.
  intros Hzero Hsucc Hsmall (Hpos1 & Hn1 & Hint1 & Hwf1 & Hfit1)
         (Hpos2 & Hn2 & Hint2 & Hwf2 & Hfit2).
  pose proof (Hsucc (length (trace s))) as Hfd0. fold (reply K s) in Hfd0.
  pose proof (Hsmall (length (trace s))) as Hfd1. fold (reply K s) in Hfd1.
  set (fd := sys_ret (reply K s)) in *.
  set (sa := set_fd_plus_one (fd + 1) (log (E_socket fd) s)).
  assert (Hjfd1 : journal_fd (S fuel) K s = Some (fd, sa)).
  { rewrite journal_fd_cases by lia. rewrite Hzero. cbn [Z.ltb Z.compare].
    fold fd. test_is (fd <? 0) false.
    rewrite wrap_int_id by (unfold INT_MIN, INT_MAX in *; lia). reflexivity. }
  set (s1 := log (E_sendmsg fd journal_path (wire fs1) (sys_ret (reply K sa))) sa).
  assert (Hjfd2 : journal_fd (S fuel) K s1 = Some (fd, s1)).
  { rewrite journal_fd_cases by (cbn; lia).
    change (fd_plus_one s1) with (fd + 1).
    test_is (0 <? fd + 1) true.
    rewrite wrap_int_id by (unfold INT_MIN, INT_MAX in *; lia).
    do 2 f_equal. lia. }
  exists s1, (log (E_sendmsg fd journal_path (wire fs2) (sys_ret (reply K s1))) s1),
    (sys_ret (reply K sa)), (sys_ret (reply K s1)).
  split; [|split; [|split; [|split]]].
  - rewrite (sendv_sends (S fuel) K fs1 n1 s sa fd) by assumption.
    pose proof (Hsucc (length (trace sa))) as Hr. fold (reply K sa) in Hr.
    now test_is (sys_ret (reply K sa) <? 0) false.
  - rewrite (sendv_sends (S fuel) K fs2 n2 s1 s1 fd) by assumption.
    pose proof (Hsucc (length (trace s1))) as Hr. fold (reply K s1) in Hr.
    now test_is (sys_ret (reply K s1) <? 0) false.
  - cbn [log trace s1 sa set_fd_plus_one]. rewrite <- !app_assoc. reflexivity.
  - reflexivity.
  - reflexivity.
Qed.

Lemma sendv_twice_one_socket_witness :
  exists s1 s2 r1 r2,
    sd_journal_sendv 1 kernel_fine (Some [bytes "MESSAGE=hello world"]) 1 world0
    = Some (0, s1) /\
    sd_journal_sendv 1 kernel_fine (Some [bytes "PRIORITY=6"; bytes "MESSAGE=a"]) 2 s1
    = Some (0, s2) /\
    trace s2
    = trace world0
      ++ [E_socket (sys_ret (reply kernel_fine world0));
          E_sendmsg (sys_ret (reply kernel_fine world0)) journal_path
            (wire [bytes "MESSAGE=hello world"]) r1;
          E_sendmsg (sys_ret (reply kernel_fine world0)) journal_path
            (wire [bytes "PRIORITY=6"; bytes "MESSAGE=a"]) r2] /\
    fd_plus_one s1 = sys_ret (reply kernel_fine world0) + 1 /\
    fd_plus_one s2 = sys_ret (reply kernel_fine world0) + 1.
Proof.
  apply (sendv_twice_one_socket 0 kernel_fine).
  - reflexivity.
  - intros k. cbn. lia.
  - intros k. cbn. unfold INT_MAX. lia.
  - repeat split; first [reflexivity | unfold INT_MAX; cbn; lia].
  - repeat split; first [reflexivity | unfold INT_MAX; cbn; lia].
Defined.

(** X7: when [sendmsg] fails on the published descriptor the call returns
    minus its [errno] after that one attempt: it does not try again,
    makes no other system call, and the descriptor stays published, so
    the next call uses it again. *)
Theorem sendv_send_failure (fuel : nat) (K : kernel)
    (fs : list field) (n : Z) (s : World) :
  0 < fd_plus_one s <= INT_MAX ->
  sendable fs n ->
  sys_ret (reply K s) < 0 ->
  0 < sys_errno (reply K s) <= INT_MAX ->
  exists s',
    sd_journal_sendv (S fuel) K (Some fs) n s = Some (- sys_errno (reply K s), s') /\
    trace s'
    = trace s ++ [E_sendmsg (fd_plus_one s - 1) journal_path (wire fs)
                    (sys_ret (reply K s))] /\
    fd_plus_one s' = fd_plus_one s /\
    datagrams (trace s') = datagrams (trace s) /\
    forall fuel' K', journal_fd (S fuel') K' s' = Some (fd_plus_one s - 1, s').
Proof.
  intros Hfd (Hpos & Hn & Hint & Hwf & Hfit) Hfail Herrno.
  assert (Hjfd : journal_fd (S fuel) K s = Some (fd_plus_one s - 1, s)).
  { rewrite journal_fd_cases by lia. test_is (0 <? fd_plus_one s) true.
    rewrite wrap_int_id by (unfold INT_MIN, INT_MAX in *; lia). reflexivity. }
  exists (log (E_sendmsg (fd_plus_one s - 1) journal_path (wire fs)
                 (sys_ret (reply K s))) s).
  split; [|split; [|split; [|split]]].
  - rewrite (sendv_sends (S fuel) K fs n s s (fd_plus_one s - 1)) by (assumption || lia).
    test_is (sys_ret (reply K s) <? 0) true.
    rewrite wrap_int_id by (unfold INT_MIN, INT_MAX in *; lia). reflexivity.
  - reflexivity.
  - reflexivity.
  - rewrite datagrams_log. cbn [datagrams].
    test_is (sys_ret (reply K s) <? 0) true. apply app_nil_r.
  - intros fuel' K'. rewrite journal_fd_cases by (cbn; lia).
    cbn [log fd_plus_one]. test_is (0 <? fd_plus_one s) true.
    rewrite wrap_int_id by (unfold INT_MIN, INT_MAX in *; lia). reflexivity.
Qed.

(** The journal refuses the datagram (ECONNREFUSED) on descriptor 3. *)
Lemma sendv_send_failure_witness :
  exists s',
    sd_journal_sendv 1 kernel_emfile (Some [bytes "MESSAGE=hello world"]) 1 world_published
    = Some (- sys_errno (reply kernel_emfile world_published), s') /\
    trace s'
    = trace world_published
      ++ [E_sendmsg (fd_plus_one world_published - 1) journal_path
            (wire [bytes "MESSAGE=hello world"])
            (sys_ret (reply kernel_emfile world_published))] /\
    fd_plus_one s' = fd_plus_one world_published /\
    datagrams (trace s') = datagrams (trace world_published) /\
    forall fuel' K',
      journal_fd (S fuel') K' s' = Some (fd_plus_one world_published - 1, s').
Proof.
  apply (sendv_send_failure 0 kernel_emfile).
  - cbn. unfold INT_MAX. lia.
  - repeat split; first [reflexivity | unfold INT_MAX; cbn; lia].
  - cbn. lia.
  - cbn. unfold INT_MAX. lia.
Defined.

(** X8: when [socket] fails the call returns minus its [errno] and the
    record is dropped: no [sendmsg] is made.  Nothing of the failure is
    kept: the next call creates a socket again, and if the kernel then
    succeeds it sends its own record, and only that one. *)
Theorem sendv_recovers_after_socket_failure (fuel : nat) (K : kernel)
    (fs1 fs2 : list field) (n1 n2 : Z) (s : World) :
  fd_plus_one s = 0 ->
  sendable fs1 n1 ->
  sendable fs2 n2 ->
  sys_ret (reply K s) < 0 ->
  0 < sys_errno (reply K s) <= INT_MAX ->
  0 <= sys_ret (K (S (length (trace s)))) < INT_MAX ->
  0 <= sys_ret (K (S (S (length (trace s))))) ->
  exists s1 s2,
    sd_journal_sendv (S fuel) K (Some fs1) n1 s = Some (- sys_errno (reply K s), s1) /\
    trace s1 = trace s ++ [E_socket (sys_ret (reply K s))] /\
    fd_plus_one s1 = 0 /\
    sd_journal_sendv (S fuel) K (Some fs2) n2 s1 = Some (0, s2) /\
    sends_on (trace s2) = sends_on (trace s) ++ [sys_ret (reply K s1)] /\
    datagrams (trace s2) = datagrams (trace s) ++ [wire fs2].
Proof.
  intros Hzero (Hpos1 & Hn1 & Hint1 & Hwf1 & Hfit1)
         (Hpos2 & Hn2 & Hint2 & Hwf2 & Hfit2) Hfail Herrno Hfd Hsend.
  set (s1 := log (E_socket (sys_ret (reply K s))) s).
  assert (Hjfd1 : journal_fd (S fuel) K s = Some (- sys_errno (reply K s), s1)).
  { rewrite journal_fd_cases by lia. rewrite Hzero. cbn [Z.ltb Z.compare].
    test_is (sys_ret (reply K s) <? 0) true.
    rewrite wrap_int_id by (unfold INT_MIN, INT_MAX in *; lia). reflexivity. }
  assert (Hlen1 : length (trace s1) = S (length (trace s))).
  { cbn [s1 log trace]. rewrite length_app. cbn [length]. lia. }
  assert (Hr1 : reply K s1 = K (S (length (trace s)))).
  { unfold reply. now rewrite Hlen1. }
  set (fd := sys_ret (reply K s1)).
  assert (Hfd' : 0 <= fd < INT_MAX) by (unfold fd; now rewrite Hr1).
  set (sa := set_fd_plus_one (fd + 1) (log (E_socket fd) s1)).
  assert (Hjfd2 : journal_fd (S fuel) K s1 = Some (fd, sa)).
  { rewrite journal_fd_cases by (cbn; lia).
    change (fd_plus_one s1) with (fd_plus_one s). rewrite Hzero. cbn [Z.ltb Z.compare].
    fold fd. test_is (fd <? 0) false.
    rewrite wrap_int_id by (unfold INT_MIN, INT_MAX in *; lia). reflexivity. }
  assert (Hra : reply K sa = K (S (S (length (trace s))))).
  { unfold reply. cbn [sa set_fd_plus_one log trace].
    rewrite length_app, Hlen1. cbn [length]. f_equal. lia. }
  exists s1, (log (E_sendmsg fd journal_path (wire fs2) (sys_ret (reply K sa))) sa).
  split; [|split; [|split; [|split; [|split]]]].
  - apply sendv_no_descriptor_returns; try assumption. lia.
  - reflexivity.
  - exact Hzero.
  - rewrite (sendv_sends (S fuel) K fs2 n2 s1 sa fd) by (assumption || lia).
    rewrite Hra. now test_is (sys_ret (K (S (S (length (trace s))))) <? 0) false.
  - cbn [log trace sa s1 set_fd_plus_one]. rewrite <- !app_assoc. cbn [app].
    generalize (trace s). intros tr.
    induction tr as [|e tr IH]; [reflexivity|].
    cbn [app sends_on]. destruct e; rewrite IH; reflexivity.
  - rewrite datagrams_log. cbn [sa set_fd_plus_one trace]. rewrite !datagrams_log.
    cbn [datagrams]. rewrite Hra.
    test_is (sys_ret (K (S (S (length (trace s))))) <? 0) false.
    unfold s1. rewrite datagrams_log. cbn [datagrams]. now rewrite !app_nil_r.
Qed.

(** The first call finds no descriptor to be had (EMFILE); the second
    gets descriptor 3 and sends. *)
Lemma sendv_recovers_after_socket_failure_witness :
  exists s1 s2,
    sd_journal_sendv 1 kernel_late (Some [bytes "MESSAGE=lost"]) 1 world0
    = Some (- sys_errno (reply kernel_late world0), s1) /\
    trace s1 = trace world0 ++ [E_socket (sys_ret (reply kernel_late world0))] /\
    fd_plus_one s1 = 0 /\
    sd_journal_sendv 1 kernel_late (Some [bytes "MESSAGE=hello world"]) 1 s1
    = Some (0, s2) /\
    sends_on (trace s2) = sends_on (trace world0) ++ [sys_ret (reply kernel_late s1)] /\
    datagrams (trace s2)
    = datagrams (trace world0) ++ [wire [bytes "MESSAGE=hello world"]].
Proof.
  apply (sendv_recovers_after_socket_failure 0 kernel_late).
  - reflexivity.
  - repeat split; first [reflexivity | unfold INT_MAX; cbn; lia].
  - repeat split; first [reflexivity | unfold INT_MAX; cbn; lia].
  - cbn. lia.
  - cbn. unfold INT_MAX. lia.
  - cbn. unfold INT_MAX. lia.
  - cbn. lia.
Defined.

(* ================================================================= *)
(** ** The descriptor that is used *)

Lemma sends_on_app (a b : list event) : sends_on (a ++ b) = sends_on a ++ sends_on b.
Proof.
  induction a as [|e a IH]; [reflexivity|].
  cbn [app sends_on]. destruct e; rewrite IH; reflexivity.
Qed.

Lemma cache_sound_nonneg (s : World) : cache_sound s -> 0 <= fd_plus_one s.
Proof.
  intros [-> | Hin]; [lia|]. apply sockets_nonneg in Hin. lia.
Qed.

(** [journal_fd] alone: the descriptor it returns is a socket of the
    process, and the only system call it makes is [socket]. *)
Lemma journal_fd_sound (fuel : nat) (K : kernel) (s : World) (fd : Z) (s1 : World) :
  cache_sound s ->
  fd_plus_one s <= INT_MAX ->
  descriptors_small K ->
  errno_set K ->
  journal_fd (S fuel) K s = Some (fd, s1) ->
  cache_sound s1 /\ fd_plus_one s1 <= INT_MAX /\
  (0 <= fd -> In fd (sockets (trace s1))) /\
  sends_on (trace s1) = sends_on (trace s) /\
  closes (trace s1) = closes (trace s).
Proof.
  intros Hsound Hmax Hsmall Herrno Hjfd.
  pose proof (cache_sound_nonneg s Hsound) as H0.
  rewrite journal_fd_cases in Hjfd by assumption.
  pose proof (Hsmall (length (trace s))) as Hfd. fold (reply K s) in Hfd.
  pose proof (Herrno (length (trace s))) as He. fold (reply K s) in He.
  destruct (Z.ltb_spec 0 (fd_plus_one s)) as [Hpub | Hnone].
  - injection Hjfd as <- <-.
    rewrite wrap_int_id by (unfold INT_MIN, INT_MAX in *; lia).
    repeat split; try assumption.
    intros _. destruct Hsound as [Hz | Hin]; [lia|exact Hin].
  - destruct (Z.ltb_spec (sys_ret (reply K s)) 0) as [Hneg | Hpos];
      injection Hjfd as <- <-.
    + rewrite wrap_int_id by (unfold INT_MIN, INT_MAX in *; lia).
      unfold cache_sound in *.
      cbn [log trace fd_plus_one]. rewrite sockets_app, sends_on_app, closes_app.
      cbn [sockets sends_on closes]. test_is (sys_ret (reply K s) <? 0) true.
      rewrite !app_nil_r.
      split; [assumption|split; [assumption|split; [lia|split; [reflexivity|lia]]]].
    + rewrite wrap_int_id by (unfold INT_MIN, INT_MAX in *; lia).
      unfold cache_sound in *.
      cbn [set_fd_plus_one log trace fd_plus_one].
      rewrite sockets_app, sends_on_app, closes_app.
      cbn [sockets sends_on closes]. test_is (sys_ret (reply K s) <? 0) false.
      rewrite !app_nil_r.
      split; [|split; [lia|split; [|split; [reflexivity|lia]]]].
      * right. apply in_or_app. right. left. lia.
      * intros _. apply in_or_app. right. now left.
Qed.

(** A call of [sd_journal_sendv] returns. *)
Lemma sendv_returns (fuel : nat) (K : kernel) (iov : option (list field)) (n : Z)
    (s : World) :
  0 <= fd_plus_one s ->
  (forall fs, iov = Some fs -> 0 < n ->
     n = Z.of_nat (length fs) /\ n * 5 <= INT_MAX /\ forallb fits_size_t fs = true) ->
  exists r s', sd_journal_sendv (S fuel) K iov n s = Some (r, s').
Proof.
  intros H0 Hargs.
  destruct iov as [fs|]; [|now exists (- EINVAL), s].
  destruct (Z.leb_spec n 0) as [Hn0 | Hpos].
  { exists (- EINVAL), s. unfold sd_journal_sendv. now test_is (n <=? 0) true. }
  destruct (Hargs fs eq_refl Hpos) as (Hn & Hint & Hfit).
  destruct (forallb well_formed fs) eqn:Hwf.
  - destruct (journal_fd_datagrams fuel K s H0) as (fd & s1 & Hfd & _).
    destruct (Z.ltb_spec fd 0) as [Hneg | Hge].
    + exists fd, s1. now apply sendv_no_descriptor_returns.
    + eexists _, _. now apply (sendv_sends (S fuel) K fs n s s1 fd).
  - exists (- EINVAL), s. apply sendv_malformed; try assumption.
    now apply forallb_well_formed_false.
Qed.

(** X9: [sd_journal_sendv] calls [sendmsg] only on a socket that the
    process created with [socket], it never closes a descriptor, and what
    it leaves in [fd_plus_one] is again 0 or such a socket plus one. *)
Theorem sendv_uses_own_socket (fuel : nat) (K : kernel)
    (iov : option (list field)) (n : Z) (s : World) :
  cache_sound s ->
  fd_plus_one s <= INT_MAX ->
  descriptors_small K ->
  errno_set K ->
  (forall fs, iov = Some fs -> 0 < n ->
     n = Z.of_nat (length fs) /\ n * 5 <= INT_MAX /\ forallb fits_size_t fs = true) ->
  exists r s',
    sd_journal_sendv (S fuel) K iov n s = Some (r, s') /\
    cache_sound s' /\ fd_plus_one s' <= INT_MAX /\
    (forall fd, In fd (sends_on (trace s')) ->
       In fd (sends_on (trace s)) \/ In fd (sockets (trace s'))) /\
    closes (trace s') = closes (trace s).
Proof.
  intros Hsound Hmax Hsmall Herrno Hargs.
  destruct (sendv_returns fuel K iov n s (cache_sound_nonneg s Hsound) Hargs)
    as (r & s' & Hrun).
  exists r, s'. split; [exact Hrun|].
  assert (Hsame : cache_sound s /\ fd_plus_one s <= INT_MAX /\
                  (forall fd, In fd (sends_on (trace s)) ->
                     In fd (sends_on (trace s)) \/ In fd (sockets (trace s))) /\
                  closes (trace s) = closes (trace s))
    by (repeat split; try assumption; intros fd Hin; now left).
  unfold sd_journal_sendv in Hrun.
  destruct iov as [fs|]; [|now injection Hrun as <- <-].
  destruct (n <=? 0); [now injection Hrun as <- <-|].
  destruct (encode fs n) as [st | r0 | ]; [|now injection Hrun as <- <-|discriminate].
  destruct (journal_fd (S fuel) K s) as [[fd s1]|] eqn:Hjfd; [|discriminate].
  destruct (journal_fd_sound fuel K s fd s1 Hsound Hmax Hsmall Herrno Hjfd)
    as (Hsound1 & Hmax1 & Hown & Hsends & Hcloses).
  destruct (Z.ltb_spec fd 0) as [Hneg | Hge].
  { injection Hrun as <- <-. repeat split; try assumption.
    intros fd' Hin. left. now rewrite <- Hsends. }
  unfold sendmsg in Hrun.
  destruct (segments fs st) as [segs | r0 | ]; cbn [mbind res_mbind res_bind] in Hrun;
    try discriminate.
  assert (Hs' : s' = log (E_sendmsg fd (take (Z.to_nat (strlen journal_path)) journal_path)
                         (concat segs) (sys_ret (reply K s1))) s1)
    by (destruct (sys_ret (reply K s1) <? 0); now injection Hrun as <- <-).
  rewrite Hs'. unfold cache_sound in *. cbn [log trace fd_plus_one].
  rewrite sockets_app, sends_on_app, closes_app. cbn [sockets sends_on closes].
  rewrite !app_nil_r.
  split; [assumption|split; [assumption|split; [|lia]]].
  intros fd' Hin. apply in_app_or in Hin as [Hin | [<- | []]].
  - left. now rewrite <- Hsends.
  - right. now apply Hown.
Qed.

(** A record sent from the world in which descriptor 3 is published. *)
Lemma sendv_uses_own_socket_witness :
  exists r s',
    sd_journal_sendv 1 kernel_fine (Some [bytes "MESSAGE=hello world"]) 1 world_published
    = Some (r, s') /\
    cache_sound s' /\ fd_plus_one s' <= INT_MAX /\
    (forall fd, In fd (sends_on (trace s')) ->
       In fd (sends_on (trace world_published)) \/ In fd (sockets (trace s'))) /\
    closes (trace s') = closes (trace world_published).
Proof.
  apply (sendv_uses_own_socket 0 kernel_fine).
  - right. cbn. now left.
  - cbn. unfold INT_MAX. lia.
  - intros k. cbn. unfold INT_MAX. lia.
  - intros k. cbn. lia.
  - intros fs Hfs _. injection Hfs as <-.
    repeat split; first [reflexivity | unfold INT_MAX; cbn; lia].
Defined.

(* ================================================================= *)
(** ** What [sd_journal_printv] sends for a text that fits *)

Lemma message_field_short (text : list byte) :
  Z.of_nat (length text) < LINE_MAX ->
  has_byte NUL text = false ->
  message_field text = list_byte_of_string "MESSAGE=" ++ text.
Proof.
  intros Hshort Hnul. unfold message_field.
  rewrite firstn_all2 by lia.
  rewrite <- (app_nil_r text) at 1.
  rewrite (c_string_app_prefix text [] Hnul). now rewrite app_nil_r.
Qed.

(** X10: a formatted text of fewer than [LINE_MAX] characters without a
    NUL is sent whole, whatever the stack held where [buffer] is placed:
    as the line MESSAGE=text when the text has no newline, and otherwise
    in the binary-safe form, MESSAGE, a newline, the length of the text
    as 8 little-endian bytes, the text and a newline. *)
Theorem printv_sends_whole_text
    (fuel : nat) (K : kernel) (buffer text : list byte) (s : World) :
  length buffer = Z.to_nat sizeof_buffer ->
  Z.of_nat (length text) < LINE_MAX ->
  has_byte NUL text = false ->
  0 <= fd_plus_one s <= INT_MAX ->
  kernel_succeeds K ->
  exists s',
    sd_journal_printv (S fuel) K buffer text s = Some (0, s') /\
    datagrams (trace s')
    = datagrams (trace s)
      ++ [if has_byte NL text
          then list_byte_of_string "MESSAGE" ++ [NL]
               ++ le_bytes 8 (Z.of_nat (length text)) ++ text ++ [NL]
          else list_byte_of_string "MESSAGE=" ++ text ++ [NL]].
Proof.
  intros _ Hshort Hnul H0 HK.
  destruct (message_field_well_formed text) as (Hwf & Hfit & Hname & Hvalue).
  pose proof (message_field_short text Hshort Hnul) as Hfield.
  assert (Hv : field_value (message_field text) = text).
  { rewrite Hvalue. apply (app_inv_head (list_byte_of_string "MESSAGE=")).
    now rewrite <- Hfield. }
  rewrite printv_field.
  assert (Hwf1 : forallb well_formed [message_field text] = true)
    by (cbn [forallb]; now rewrite Hwf).
  assert (Hfit1 : forallb fits_size_t [message_field text] = true)
    by (cbn [forallb]; now rewrite Hfit).
  assert (Hint : 1 * 5 <= INT_MAX) by (unfold INT_MAX; lia).
  destruct (sendv_succeeds fuel K [message_field text] 1 s
              ltac:(lia) eq_refl Hint Hwf1 Hfit1 H0 HK) as (s' & Hrun & Hdg).
  exists s'. split; [exact Hrun|]. rewrite Hdg. do 2 f_equal.
  unfold wire. cbn [map concat]. rewrite app_nil_r.
  unfold field_segments, binary_safe. rewrite Hv, Hname.
  destruct (has_byte NL text); cbn [concat]; rewrite ?app_nil_r.
  - reflexivity.
  - rewrite Hfield. now rewrite <- app_assoc.
Qed.

(** A text of two lines. *)
Lemma printv_sends_whole_text_witness :
  exists s',
    sd_journal_printv 1 kernel_fine stack_junk (bytes "two" ++ [NL] ++ bytes "lines") world0
    = Some (0, s') /\
    datagrams (trace s')
    = datagrams (trace world0)
      ++ [if has_byte NL (bytes "two" ++ [NL] ++ bytes "lines")
          then list_byte_of_string "MESSAGE" ++ [NL]
               ++ le_bytes 8 (Z.of_nat (length (bytes "two" ++ [NL] ++ bytes "lines")))
               ++ (bytes "two" ++ [NL] ++ bytes "lines") ++ [NL]
          else list_byte_of_string "MESSAGE="
               ++ (bytes "two" ++ [NL] ++ bytes "lines") ++ [NL]].
Proof.
  apply (printv_sends_whole_text 0 kernel_fine stack_junk).
  - reflexivity.
  - cbn. unfold LINE_MAX. lia.
  - reflexivity.
  - cbn. unfold INT_MAX. lia.
  - intros k. cbn. lia.
Defined.

(* ================================================================= *)
(** ** [sd_journal_send]: the array and the heap *)

Lemma load_lookup_Some {A} (a : list (option A)) (k : nat) (v : A) :
  a !! k = Some (Some v) -> load a (Z.of_nat k) = Ok v.
Proof.
  intros Hk. pose proof (lookup_lt_Some _ _ _ Hk) as Hlt. unfold load.
  test_is ((0 <=? Z.of_nat k) && (Z.of_nat k <? Z.of_nat (length a))) true.
  now rewrite Nat2Z.id, Hk.
Qed.

Lemma owned_lookup (arr : list (option send_iovec)) (es : list send_iovec)
    (k : nat) (v : send_iovec) :
  take (length es) arr = Some <$> es ->
  es !! k = Some v ->
  arr !! k = Some (Some v).
Proof.
  intros Htake Hk. pose proof (lookup_lt_Some _ _ _ Hk) as Hlt.
  rewrite <- (lookup_take_lt arr (length es) k) by assumption.
  rewrite Htake, list_lookup_fmap, Hk. reflexivity.
Qed.

Lemma fresh_not_live (h : Heap) : heap_ok h -> requests h ∉ live h.
Proof. intros Hok Hin. apply Hok in Hin. lia. Qed.

Lemma take_resize_owned {A} (l : list A) (k m : nat) (x : A) :
  (k <= length l)%nat -> (k <= m)%nat -> take k (resize m x l) = take k l.
Proof.
  intros Hk Hm. rewrite take_resize_le by assumption. now apply resize_le.
Qed.

(** Lines 91-100 keep what the call owns, and leave room for one more
    element when control goes on. *)
Lemma send_grow_spec (A : allocator) (base : gset nat) (f : send_frame) (h : Heap)
    (es : list send_iovec) :
  send_owns base f h es ->
  length (sf_arr f) = Z.to_nat (sf_n f) ->
  0 <= sf_n f ->
  Z.of_nat (length es) * 2 <= INT_MAX ->
  exists go f1 h1,
    send_grow A f h = Ok (go, f1, h1) /\
    send_owns base f1 h1 es /\
    (requests h <= requests h1)%nat /\
    (forall k, (requests h <= k < requests h1)%nat -> A k = go) /\
    (go = false -> requests h1 = S (requests h)) /\
    (go = true ->
     length (sf_arr f1) = Z.to_nat (sf_n f1) /\ 0 <= sf_n f1 /\ sf_i f1 < sf_n f1).
Proof.
  intros [Hi Harr Hlen Hnull Hnodup Hlive Hbase Harray Hfresh] Hcap Hn Hsmall.
  pose proof (fresh_not_live h Hfresh) as Hnew.
  destruct f as [iov arr n i]. cbn [sf_iov sf_arr sf_n sf_i] in *.
  unfold send_grow. cbn [sf_iov sf_arr sf_n sf_i].
  destruct (Z.leb_spec n i) as [Hfull | Hroom].
  2: { exists true, {| sf_iov := iov; sf_arr := arr; sf_n := n; sf_i := i |}, h.
       split; [reflexivity|]. split; [now constructor|].
       split; [lia|]. split; [intros k Hk; lia|]. split; [discriminate|].
       intros _. cbn [sf_arr sf_n sf_i]. lia. }
  rewrite wrap_int_id by (unfold INT_MIN, INT_MAX in *; lia).
  unfold MAX.
  set (n' := Z.max (i * 2) 4).
  assert (Hn' : i < n' /\ 4 <= n') by (unfold n'; lia).
  unfold realloc, allocate, array_block in *. cbn [sf_iov] in *.
  destruct iov as [b|].
  - assert (Hb : b ∈ live h) by (rewrite Hlive; set_solver).
    destruct (decide (b ∈ live h)) as [_|Hno]; [|contradiction].
    destruct (A (requests h)) eqn:HA; cbn [mbind res_mbind res_bind requests live].
    + eexists true, _, _. split; [reflexivity|]. split.
      * constructor; cbn [sf_iov sf_arr sf_n sf_i requests live]; try assumption.
        -- rewrite take_resize_owned by lia. exact Harr.
        -- rewrite length_resize. lia.
        -- discriminate.
        -- rewrite Hlive. set_solver.
        -- set_solver.
        -- rewrite Hlive in Hnew. set_solver.
        -- intros c Hc. cbn [requests live] in *. apply elem_of_difference in Hc as [Hc _].
           apply elem_of_union in Hc as [Hc | Hc].
           ++ apply elem_of_singleton in Hc. lia.
           ++ apply Hfresh in Hc. lia.
      * cbn [requests sf_arr sf_n sf_i]. split; [lia|].
        split; [intros k Hk; now replace k with (requests h) by lia|].
        split; [discriminate|]. intros _. rewrite length_resize. lia.
    + eexists false, _, _. split; [reflexivity|]. split.
      * constructor; cbn [sf_iov sf_arr sf_n sf_i requests live]; try assumption.
        intros c Hc. cbn [requests live] in *. apply Hfresh in Hc. lia.
      * cbn [requests]. split; [lia|].
        split; [intros k Hk; now replace k with (requests h) by lia|].
        split; [reflexivity|discriminate].
  - pose proof (Hnull eq_refl) as ->.
    destruct (A (requests h)) eqn:HA; cbn [mbind res_mbind res_bind requests live].
    + eexists true, _, _. split; [reflexivity|]. split.
      * constructor; cbn [sf_iov sf_arr sf_n sf_i requests live]; try assumption.
        -- rewrite take_resize_owned by (cbn [length] in *; lia). exact Harr.
        -- rewrite length_resize. lia.
        -- discriminate.
        -- rewrite Hlive. set_solver.
        -- rewrite Hlive in Hnew. set_solver.
        -- rewrite Hlive in Hnew. set_solver.
        -- intros c Hc. cbn [requests live] in *.
           apply elem_of_union in Hc as [Hc | Hc].
           ++ apply elem_of_singleton in Hc. lia.
           ++ apply Hfresh in Hc. lia.
      * cbn [requests sf_arr sf_n sf_i]. split; [lia|].
        split; [intros k Hk; now replace k with (requests h) by lia|].
        split; [discriminate|]. intros _. rewrite length_resize. lia.
    + eexists false, _, _. split; [reflexivity|]. split.
      * constructor; cbn [sf_iov sf_arr sf_n sf_i requests live]; try assumption.
        intros c Hc. cbn [requests live] in *. apply Hfresh in Hc. lia.
      * cbn [requests]. split; [lia|].
        split; [intros k Hk; now replace k with (requests h) by lia|].
        split; [reflexivity|discriminate].
Qed.

Lemma string_blocks_app (es : list send_iovec) (v : send_iovec) :
  string_blocks (es ++ [v]) = string_blocks es ++ [hs_block (si_base v)].
Proof. unfold string_blocks. now rewrite fmap_app. Qed.

(** Lines 102-107 add one element, or nothing when the request is
    refused. *)
Lemma send_add_spec (A : allocator) (base : gset nat) (text : list byte)
    (f : send_frame) (h : Heap) (es : list send_iovec) :
  send_owns base f h es ->
  sf_i f < Z.of_nat (length (sf_arr f)) ->
  sf_i f < INT_MAX ->
  exists go f2 h2,
    send_add A text f h = Ok (go, f2, h2) /\
    requests h2 = S (requests h) /\
    A (requests h) = go /\
    sf_n f2 = sf_n f /\
    length (sf_arr f2) = length (sf_arr f) /\
    (go = false -> send_owns base f2 h2 es) /\
    (go = true ->
     exists v, send_owns base f2 h2 (es ++ [v]) /\ si_field v = c_string text).
Proof.
  intros [Hi Harr Hlen Hnull Hnodup Hlive Hbase Harray Hfresh] Hroom Hsmall.
  pose proof (fresh_not_live h Hfresh) as Hnew.
  destruct f as [iov arr n i]. cbn [sf_iov sf_arr sf_n sf_i] in *.
  unfold send_add, vasprintf, allocate. cbn [sf_iov sf_arr sf_n sf_i].
  destruct (A (requests h)) eqn:HA.
  - set (v := IOVEC_SET_HEAP_STRING
                {| hs_block := requests h; hs_bytes := text ++ [NUL] |}).
    unfold store.
    test_is ((0 <=? i) && (i <? Z.of_nat (length arr))) true.
    cbn [mbind res_mbind res_bind].
    eexists true, _, _. split; [reflexivity|]. cbn [requests sf_arr sf_n].
    split; [reflexivity|]. split; [reflexivity|]. split; [reflexivity|].
    split; [apply length_insert|]. split; [discriminate|]. intros _.
    exists v. split.
    + assert (Hk : Z.to_nat i = length es) by lia.
      constructor; cbn [sf_iov sf_arr sf_n sf_i requests live].
      * rewrite wrap_int_id by (unfold INT_MIN, INT_MAX in *; lia).
        rewrite length_app. cbn [length]. lia.
      * rewrite Hk, length_app. cbn [length].
        replace (length es + 1)%nat with (S (length es)) by lia.
        rewrite (take_S_r _ _ (Some v)) by (apply list_lookup_insert_eq; lia).
        rewrite take_insert_ge by lia. rewrite Harr. now rewrite fmap_app.
      * rewrite length_insert, length_app. cbn [length]. lia.
      * intros Hnone. rewrite (Hnull Hnone) in Hroom. cbn [length] in Hroom. lia.
      * rewrite string_blocks_app. apply NoDup_app. split; [assumption|].
        split; [|apply NoDup_singleton].
        intros b Hb Hb'. apply list_elem_of_singleton in Hb'. subst b.
        apply Hnew. rewrite Hlive. cbn [v IOVEC_SET_HEAP_STRING si_base hs_block] in Hb.
        set_solver.
      * rewrite string_blocks_app, list_to_set_app_L, Hlive.
        cbn [v IOVEC_SET_HEAP_STRING si_base hs_block]. set_solver.
      * rewrite string_blocks_app, list_to_set_app_L.
        cbn [v IOVEC_SET_HEAP_STRING si_base hs_block].
        rewrite Hlive in Hnew. set_solver.
      * rewrite string_blocks_app, list_to_set_app_L.
        cbn [v IOVEC_SET_HEAP_STRING si_base hs_block].
        rewrite Hlive in Hnew. unfold array_block in *. cbn [sf_iov] in *. set_solver.
      * intros c Hc. cbn [requests live] in *.
        apply elem_of_union in Hc as [Hc | Hc].
        -- apply elem_of_singleton in Hc. lia.
        -- apply Hfresh in Hc. lia.
    + unfold si_field, v, IOVEC_SET_HEAP_STRING. cbn [si_len si_base hs_bytes].
      fold (c_string (text ++ [NUL])). apply c_string_app_NUL.
  - eexists false, _, _. split; [reflexivity|]. cbn [requests sf_arr sf_n].
    split; [reflexivity|]. split; [reflexivity|]. split; [reflexivity|].
    split; [reflexivity|]. split; [|discriminate]. intros _.
    constructor; cbn [sf_iov sf_arr sf_n sf_i requests live]; try assumption.
    intros c Hc. cbn [requests live] in *. apply Hfresh in Hc. lia.
Qed.

(** The loop of lines 87-110: it ends, what the call owns is kept, and
    it leaves either with one element per format or by [goto fail] after
    a request that was refused. *)
Lemma send_loop_spec (A : allocator) (base : gset nat) (formats : list (list byte)) :
  forall (f : send_frame) (h : Heap) (es : list send_iovec),
  send_owns base f h es ->
  length (sf_arr f) = Z.to_nat (sf_n f) ->
  0 <= sf_n f ->
  Z.of_nat (length es + length formats) * 2 <= INT_MAX ->
  exists e f' h' es',
    send_loop A formats f h = Ok (e, f', h') /\
    send_owns base f' h' es' /\
    (length es' <= length es + length formats)%nat /\
    match e with
    | Fell_through =>
        si_field <$> es' = (si_field <$> es) ++ (c_string <$> formats) /\
        (requests h + length formats <= requests h')%nat /\
        (forall k, (requests h <= k < requests h')%nat -> A k = true)
    | Goto_fail r =>
        r = - ENOMEM /\
        exists k, (requests h <= k < requests h')%nat /\ A k = false
    end.
Proof.
  induction formats as [|text rest IH]; intros f h es Howns Hcap Hn Hsmall.
  { exists Fell_through, f, h, es. split; [reflexivity|]. split; [assumption|].
    split; [lia|]. split; [now rewrite app_nil_r|]. cbn [length]. split; [lia|]. intros k Hk. lia. }
  cbn [length] in Hsmall.
  destruct (send_grow_spec A base f h es Howns Hcap Hn ltac:(lia))
    as (go & f1 & h1 & Hgrow & Howns1 & Hreq1 & HA1 & Hrefused1 & Hroom1).
  cbn [send_loop]. rewrite Hgrow. cbn [mbind res_mbind res_bind].
  destruct go.
  2: { exists (Goto_fail (- ENOMEM)), f1, h1, es.
       split; [reflexivity|]. split; [assumption|]. split; [cbn [length]; lia|].
       split; [reflexivity|]. specialize (Hrefused1 eq_refl). exists (requests h).
       split; [lia|]. apply HA1. lia. }
  destruct (Hroom1 eq_refl) as (Hcap1 & Hn1 & Hlt1).
  pose proof (owns_i _ _ _ _ Howns1) as Hi1.
  destruct (send_add_spec A base text f1 h1 es Howns1 ltac:(lia)
              ltac:(unfold INT_MAX in *; lia))
    as (go & f2 & h2 & Hadd & Hreq2 & HA2 & Hn2 & Hcap2 & Hfail2 & Hok2).
  rewrite Hadd. cbn [mbind res_mbind res_bind].
  destruct go.
  2: { exists (Goto_fail (- ENOMEM)), f2, h2, es.
       split; [reflexivity|]. split; [now apply Hfail2|]. split; [cbn [length]; lia|].
       split; [reflexivity|]. exists (requests h1). split; [lia|assumption]. }
  destruct (Hok2 eq_refl) as (v & Howns2 & Hv).
  destruct (IH f2 h2 (es ++ [v]) Howns2 ltac:(lia) ltac:(lia)
              ltac:(rewrite length_app; cbn [length]; lia))
    as (e & f' & h' & es' & Hloop & Howns' & Hcount & He).
  rewrite length_app in Hcount. cbn [length] in Hcount.
  exists e, f', h', es'. split; [exact Hloop|]. split; [assumption|].
  split; [cbn [length]; lia|]. destruct e as [|r].
  - destruct He as (Hfields & Hreq' & HA'). split; [|split].
    + rewrite Hfields, fmap_app, <- app_assoc. cbn [fmap list_fmap app]. now rewrite Hv.
    + cbn [length]. lia.
    + intros k Hk.
      destruct (decide (k < requests h1)%nat) as [Hlt | Hge]; [apply HA1; lia|].
      destruct (decide (k = requests h1)) as [-> | Hne]; [assumption|].
      apply HA'. lia.
  - destruct He as (Hr & k & Hk & HAk). split; [assumption|].
    exists k. split; [lia|assumption].
Qed.

Lemma send_entries_owned (arr : list (option send_iovec)) (rest : list send_iovec) :
  forall done : list send_iovec,
  take (length (done ++ rest)) arr = Some <$> (done ++ rest) ->
  send_entries arr (Z.of_nat (length done)) (length rest) = Ok rest.
Proof.
  induction rest as [|v rest IH]; intros done Harr; [reflexivity|].
  cbn [length send_entries].
  rewrite (load_lookup_Some arr (length done) v)
    by (apply (owned_lookup arr (done ++ v :: rest)); [assumption|apply list_lookup_middle; reflexivity]).
  cbn [mbind res_mbind res_bind].
  replace (Z.of_nat (length done) + 1) with (Z.of_nat (length (done ++ [v])))
    by (rewrite length_app; cbn [length]; lia).
  rewrite IH by now rewrite <- app_assoc.
  reflexivity.
Qed.

(** What [sd_journal_sendv] is handed at line 113. *)
Lemma send_fields_owned (base : gset nat) (f : send_frame) (h : Heap)
    (es : list send_iovec) :
  send_owns base f h es ->
  send_fields f h
  = Ok (match sf_iov f with
        | None => None
        | Some _ => Some (si_field <$> es)
        end).
Proof.
  intros [Hi Harr Hlen Hnull Hnodup Hlive Hbase Harray Hfresh].
  unfold send_fields. destruct (sf_iov f) as [b|] eqn:Hiov; [|reflexivity].
  unfold array_block in *. rewrite Hiov in *.
  destruct (decide (b ∈ live h)) as [_ | Hno]; [|exfalso; apply Hno; rewrite Hlive; set_solver].
  rewrite Hi, Nat2Z.id.
  pose proof (send_entries_owned (sf_arr f) es [] Harr) as Hread.
  change (Z.of_nat (length (@nil send_iovec))) with 0 in Hread. rewrite Hread.
  cbn [mbind res_mbind res_bind].
  replace (forallb (fun v => bool_decide (hs_block (si_base v) ∈ live h)) es) with true;
    [reflexivity|].
  symmetry. apply forallb_forall. intros v Hv. apply bool_decide_eq_true.
  rewrite Hlive. apply elem_of_union_r, elem_of_list_to_set.
  unfold string_blocks. apply list_elem_of_fmap. exists v. split; [reflexivity|].
  now apply list_elem_of_In.
Qed.

Lemma send_free_strings_owned (arr : list (option send_iovec)) (rest : list send_iovec) :
  forall (done : list send_iovec) (h : Heap),
  take (length (done ++ rest)) arr = Some <$> (done ++ rest) ->
  NoDup (string_blocks rest) ->
  (forall b, b ∈ string_blocks rest -> b ∈ live h) ->
  Z.of_nat (length (done ++ rest)) <= INT_MAX ->
  exists h',
    send_free_strings arr (Z.of_nat (length done)) (length rest) h = Ok h' /\
    requests h' = requests h /\
    live h' = live h ∖ list_to_set (string_blocks rest).
Proof.
  induction rest as [|v rest IH]; intros done h Harr Hnodup Hlive Hsmall.
  { exists h. split; [reflexivity|]. split; [reflexivity|].
    cbn [string_blocks fmap list_fmap list_to_set]. set_solver. }
  cbn [length send_free_strings].
  rewrite (load_lookup_Some arr (length done) v)
    by (apply (owned_lookup arr (done ++ v :: rest)); [assumption|apply list_lookup_middle; reflexivity]).
  cbn [mbind res_mbind res_bind]. unfold free.
  change (string_blocks (v :: rest)) with (hs_block (si_base v) :: string_blocks rest) in *.
  apply NoDup_cons in Hnodup as [Hv Hnodup].
  destruct (decide (hs_block (si_base v) ∈ live h)) as [_ | Hno];
    [|exfalso; apply Hno, Hlive; now left].
  cbn [mbind res_mbind res_bind].
  rewrite length_app in Hsmall. cbn [length] in Hsmall.
  rewrite wrap_int_id by (unfold INT_MIN, INT_MAX in *; lia).
  replace (Z.of_nat (length done) + 1) with (Z.of_nat (length (done ++ [v])))
    by (rewrite length_app; cbn [length]; lia).
  destruct (IH (done ++ [v])
              {| requests := requests h; live := live h ∖ {[ hs_block (si_base v) ]} |})
    as (h' & Hrun & Hreq & Hlive').
  - now rewrite <- app_assoc.
  - assumption.
  - intros b Hb. cbn [live]. apply elem_of_difference. split.
    + apply Hlive. now right.
    + intros Heq. apply elem_of_singleton in Heq. now subst b.
  - rewrite !length_app. cbn [length]. lia.
  - exists h'. split; [exact Hrun|]. split; [exact Hreq|].
    rewrite Hlive'. cbn [live list_to_set]. set_solver.
Qed.

(** Lines 115-119 free what the call owns and nothing else. *)
Lemma send_cleanup_owned (base : gset nat) (f : send_frame) (h : Heap)
    (es : list send_iovec) :
  send_owns base f h es ->
  Z.of_nat (length es) <= INT_MAX ->
  exists h',
    send_cleanup f h = Ok h' /\ live h' = base /\ requests h' = requests h.
Proof.
  intros [Hi Harr Hlen Hnull Hnodup Hlive Hbase Harray Hfresh] Hsmall.
  unfold send_cleanup. rewrite Hi, Nat2Z.id.
  destruct (send_free_strings_owned (sf_arr f) es [] h) as (h1 & Hrun & Hreq & Hlive1);
    try assumption.
  { intros b Hb. rewrite Hlive. set_solver. }
  change (Z.of_nat (length (@nil send_iovec))) with 0 in Hrun.
  rewrite Hrun. cbn [mbind res_mbind res_bind]. unfold free, array_block in *.
  destruct (sf_iov f) as [b|].
  - destruct (decide (b ∈ live h1)) as [_ | Hno].
    + eexists. split; [reflexivity|]. cbn [live requests]. split; [|assumption].
      rewrite Hlive1, Hlive. set_solver.
    + exfalso. apply Hno. rewrite Hlive1, Hlive. set_solver.
  - exists h1. split; [reflexivity|]. split; [|assumption].
    rewrite Hlive1, Hlive. set_solver.
Qed.

Lemma send_owns_start (h : Heap) :
  heap_ok h ->
  send_owns (live h) {| sf_iov := None; sf_arr := []; sf_n := 0; sf_i := 0 |} h [].
Proof.
  intros Hok. constructor; cbn [sf_iov sf_arr sf_n sf_i length string_blocks fmap list_fmap];
    unfold array_block; cbn [sf_iov list_to_set];
    first [ reflexivity | assumption | apply NoDup_nil_2 | set_solver ].
Qed.

Lemma send_owns_fields_nonempty (base : gset nat) (f : send_frame) (h : Heap)
    (es : list send_iovec) :
  send_owns base f h es -> es <> [] -> sf_iov f <> None.
Proof.
  intros Howns Hes Hnone.
  pose proof (owns_len _ _ _ _ Howns) as Hlen.
  rewrite (owns_null _ _ _ _ Howns Hnone) in Hlen.
  destruct es; [contradiction|]. cbn [length] in Hlen. lia.
Qed.

(** The loop from the state in which the call starts. *)
Lemma send_loop_start (A : allocator) (formats : list (list byte)) (h : Heap) :
  heap_ok h ->
  Z.of_nat (length formats) * 2 <= INT_MAX ->
  exists e f h1 es,
    send_loop A formats {| sf_iov := None; sf_arr := []; sf_n := 0; sf_i := 0 |} h
    = Ok (e, f, h1) /\
    send_owns (live h) f h1 es /\
    Z.of_nat (length es) <= INT_MAX /\
    (requests h <= requests h1)%nat /\
    match e with
    | Fell_through =>
        si_field <$> es = c_string <$> formats /\
        sf_i f = Z.of_nat (length formats) /\
        (formats <> [] -> sf_iov f <> None) /\
        (requests h + length formats <= requests h1)%nat /\
        (forall k, (requests h <= k < requests h1)%nat -> A k = true)
    | Goto_fail r =>
        r = - ENOMEM /\
        exists k, (requests h <= k < requests h1)%nat /\ A k = false
    end.
Proof.
  intros Hok Hsmall.
  destruct (send_loop_spec A (live h) formats _ h [] (send_owns_start h Hok)
              eq_refl ltac:(reflexivity) ltac:(cbn [length]; lia))
    as (e & f & h1 & es & Hloop & Howns & Hcount & He).
  cbn [length] in Hcount.
  exists e, f, h1, es. split; [exact Hloop|]. split; [exact Howns|].
  split; [unfold INT_MAX in *; lia|].
  destruct e as [|r].
  - destruct He as (Hfields & Hreq & HA). cbn [fmap list_fmap app] in Hfields.
    assert (Hlen : length es = length formats).
    { apply (f_equal length) in Hfields. now rewrite !length_fmap in Hfields. }
    split; [lia|]. split; [exact Hfields|].
    split; [rewrite (owns_i _ _ _ _ Howns); lia|].
    split; [|split; assumption].
    intros Hne. apply (send_owns_fields_nonempty _ _ _ _ Howns).
    intros ->. destruct formats; [contradiction|discriminate].
  - destruct He as (Hr & k & Hk & HAk). split; [lia|]. split; [assumption|].
    now exists k.
Qed.

(** X11: one thread running, [sd_journal_send] always returns, and it
    returns every block it allocated, whichever request for memory is
    refused and whatever the kernel replies: the blocks allocated after
    the call are those allocated before it.  On no path does it free a
    block twice or one that is not allocated, store outside the array or
    read an element that was never written (each of these is a [Fault],
    which is not a result). *)
Theorem send_releases_memory (fuel : nat) (A : allocator) (K : kernel)
    (formats : list (list byte)) (s : World) (h : Heap) :
  heap_ok h ->
  0 <= fd_plus_one s ->
  Z.of_nat (length formats) * 5 <= INT_MAX ->
  forallb fits_size_t (c_string <$> formats) = true ->
  exists r s' h',
    sd_journal_send (S fuel) A K formats s h = Some (r, s', h') /\
    live h' = live h /\
    (requests h <= requests h')%nat.
Proof.
  intros Hok H0 Hsmall Hfit.
  destruct (send_loop_start A formats h Hok ltac:(lia))
    as (e & f & h1 & es & Hloop & Howns & Hlen & Hreq & He).
  destruct (send_cleanup_owned _ f h1 es Howns Hlen) as (h2 & Hclean & Hlive & Hreq2).
  unfold sd_journal_send. rewrite Hloop.
  destruct e as [|r0].
  - destruct He as (Hfields & Hi & Hiov & _).
    rewrite (send_fields_owned _ f h1 es Howns), Hfields, Hi. cbv beta iota.
    match goal with
    | |- context [sd_journal_sendv _ _ ?iov _ _] =>
        destruct (sendv_returns fuel K iov (Z.of_nat (length formats)) s H0)
          as (r & s' & Hrun)
    end.
    { intros fs Hfs _. destruct (sf_iov f); [|discriminate]. injection Hfs as <-.
      rewrite length_fmap. split; [reflexivity|]. split; [lia|exact Hfit]. }
    rewrite Hrun, Hclean. exists r, s', h2. split; [reflexivity|]. split; [assumption|lia].
  - rewrite Hclean. exists r0, s, h2. split; [reflexivity|]. split; [assumption|lia].
Qed.

(** X12: when no request for memory is refused, [sd_journal_send] is
    [sd_journal_sendv] on the formatted strings, in the order of the
    arguments, each up to its first NUL, with [n] their number (and on
    the null pointer with [n = 0] when the first argument is the null
    pointer); the heap is then as before the call. *)
Theorem send_is_sendv (fuel : nat) (A : allocator) (K : kernel)
    (formats : list (list byte)) (s : World) (h : Heap) :
  heap_ok h ->
  Z.of_nat (length formats) * 2 <= INT_MAX ->
  (forall k, (requests h <= k)%nat -> A k = true) ->
  exists h',
    sd_journal_send fuel A K formats s h
    = match sd_journal_sendv fuel K
              (match formats with
               | [] => None
               | _ :: _ => Some (c_string <$> formats)
               end) (Z.of_nat (length formats)) s with
      | Some (r, s') => Some (r, s', h')
      | None => None
      end /\
    live h' = live h.
Proof.
  intros Hok Hsmall HA.
  destruct (send_loop_start A formats h Hok Hsmall)
    as (e & f & h1 & es & Hloop & Howns & Hlen & Hreq & He).
  destruct (send_cleanup_owned _ f h1 es Howns Hlen) as (h2 & Hclean & Hlive & Hreq2).
  exists h2. split; [|exact Hlive].
  unfold sd_journal_send. rewrite Hloop.
  destruct e as [|r0].
  2: { destruct He as (_ & k & Hk & HAk). rewrite HA in HAk by lia. discriminate. }
  destruct He as (Hfields & Hi & Hiov & _).
  rewrite (send_fields_owned _ f h1 es Howns), Hfields, Hi, Hclean. cbv beta iota.
  destruct formats as [|text rest].
  - destruct (sf_iov f); reflexivity.
  - destruct (sf_iov f); [|now destruct Hiov]. reflexivity.
Qed.

(** X13: when one of the first [length formats] requests for memory is
    refused, [sd_journal_send] returns -ENOMEM without a system call:
    the world is the one before the call, nothing of the record is sent,
    and the heap is as before the call. *)
Theorem send_out_of_memory (fuel : nat) (A : allocator) (K : kernel)
    (formats : list (list byte)) (s : World) (h : Heap) (k : nat) :
  heap_ok h ->
  Z.of_nat (length formats) * 2 <= INT_MAX ->
  (k < length formats)%nat ->
  A (requests h + k)%nat = false ->
  exists h',
    sd_journal_send fuel A K formats s h = Some (- ENOMEM, s, h') /\
    live h' = live h.
Proof.
  intros Hok Hsmall Hk HAk.
  destruct (send_loop_start A formats h Hok Hsmall)
    as (e & f & h1 & es & Hloop & Howns & Hlen & Hreq & He).
  destruct (send_cleanup_owned _ f h1 es Howns Hlen) as (h2 & Hclean & Hlive & Hreq2).
  exists h2. split; [|exact Hlive].
  unfold sd_journal_send. rewrite Hloop.
  destruct e as [|r0].
  { destruct He as (_ & _ & _ & Hmade & HA). rewrite HA in HAk by lia. discriminate. }
  destruct He as (-> & _). now rewrite Hclean.
Qed.

Lemma heap0_ok : heap_ok heap0.
Proof. intros b Hb. cbn [heap0 live] in Hb. set_solver. Qed.

(** Five fields, of which the third cannot be formatted for lack of
    memory. *)
Lemma send_releases_memory_witness :
  exists r s' h',
    sd_journal_send 1 allocator_tight kernel_fine five_fields world0 heap0
    = Some (r, s', h') /\
    live h' = live heap0 /\
    (requests heap0 <= requests h')%nat.
Proof.
  apply (send_releases_memory 0 allocator_tight kernel_fine five_fields world0 heap0).
  - exact heap0_ok.
  - cbn. lia.
  - cbn. unfold INT_MAX. lia.
  - reflexivity.
Defined.

Lemma send_is_sendv_witness :
  exists h',
    sd_journal_send 1 allocator_fine kernel_fine five_fields world0 heap0
    = match sd_journal_sendv 1 kernel_fine
              (match five_fields with
               | [] => None
               | _ :: _ => Some (c_string <$> five_fields)
               end) (Z.of_nat (length five_fields)) world0 with
      | Some (r, s') => Some (r, s', h')
      | None => None
      end /\
    live h' = live heap0.
Proof.
  apply (send_is_sendv 1 allocator_fine kernel_fine five_fields world0 heap0).
  - exact heap0_ok.
  - cbn. unfold INT_MAX. lia.
  - reflexivity.
Defined.

(** The fourth request, for the third string, is refused. *)
Lemma send_out_of_memory_witness :
  exists h',
    sd_journal_send 1 allocator_tight kernel_fine five_fields world0 heap0
    = Some (- ENOMEM, world0, h') /\
    live h' = live heap0.
Proof.
  apply (send_out_of_memory 1 allocator_tight kernel_fine five_fields world0 heap0 3).
  - exact heap0_ok.
  - cbn. unfold INT_MAX. lia.
  - cbn. lia.
  - reflexivity.
Defined.

(** X14: with memory granted and a kernel that does not fail,
    [sd_journal_send] on at least one format, each of whose strings is a
    well-formed field up to its first NUL, returns 0 after sending one
    datagram that holds these fields in the order of the arguments; the
    heap is then as before the call. *)
Theorem send_delivers (fuel : nat) (A : allocator) (K : kernel)
    (formats : list (list byte)) (s : World) (h : Heap) :
  heap_ok h ->
  formats <> [] ->
  Z.of_nat (length formats) * 5 <= INT_MAX ->
  (forall k, (requests h <= k)%nat -> A k = true) ->
  forallb well_formed (c_string <$> formats) = true ->
  forallb fits_size_t (c_string <$> formats) = true ->
  0 <= fd_plus_one s <= INT_MAX ->
  kernel_succeeds K ->
  exists s' h',
    sd_journal_send (S fuel) A K formats s h = Some (0, s', h') /\
    datagrams (trace s') = datagrams (trace s) ++ [wire (c_string <$> formats)] /\
    live h' = live h.
Proof.
  intros Hok Hne Hsmall HA Hwf Hfit H0 HK.
  destruct (send_loop_start A formats h Hok ltac:(lia))
    as (e & f & h1 & es & Hloop & Howns & Hlen & Hreq & He).
  destruct (send_cleanup_owned _ f h1 es Howns Hlen) as (h2 & Hclean & Hlive & Hreq2).
  destruct e as [|r0].
  2: { destruct He as (_ & k & Hk & HAk). rewrite HA in HAk by lia. discriminate. }
  destruct He as (Hfields & Hi & Hiov & _).
  destruct (sendv_succeeds fuel K (c_string <$> formats) (Z.of_nat (length formats)) s)
    as (s' & Hrun & Hdg); try assumption.
  { destruct formats; [contradiction|]. cbn [length]. lia. }
  { now rewrite length_fmap. }
  exists s', h2. split; [|split; assumption].
  unfold sd_journal_send. rewrite Hloop.
  rewrite (send_fields_owned _ f h1 es Howns), Hfields, Hi. cbv beta iota.
  destruct (sf_iov f); [|now destruct (Hiov Hne)].
  now rewrite Hrun, Hclean.
Qed.

Lemma send_delivers_witness :
  exists s' h',
    sd_journal_send 1 allocator_fine kernel_fine five_fields world0 heap0
    = Some (0, s', h') /\
    datagrams (trace s')
    = datagrams (trace world0) ++ [wire (c_string <$> five_fields)] /\
    live h' = live heap0.
Proof.
  apply (send_delivers 0 allocator_fine kernel_fine five_fields world0 heap0).
  - exact heap0_ok.
  - discriminate.
  - cbn. unfold INT_MAX. lia.
  - reflexivity.
  - reflexivity.
  - reflexivity.
  - cbn. unfold INT_MAX. lia.
  - intros k. cbn. lia.
Defined.

(* ================================================================= *)
(** ** No text is refused *)

(** A record without a malformed field fails only with a system call,
    and then with the [errno] of that call. *)
Lemma sendv_fails_with_kernel (fuel : nat) (K : kernel) (fs : list field) (n : Z)
    (s : World) :
  sendable fs n ->
  0 <= fd_plus_one s <= INT_MAX ->
  errno_set K ->
  exists r s',
    sd_journal_sendv (S fuel) K (Some fs) n s = Some (r, s') /\
    ((r = 0 /\ datagrams (trace s') = datagrams (trace s) ++ [wire fs]) \/
     (exists k, sys_ret (K k) < 0 /\ r = - sys_errno (K k) /\
                datagrams (trace s') = datagrams (trace s))).
Proof.
  intros (Hpos & Hn & Hint & Hwf & Hfit) H0 Herrno.
  assert (Hsend : forall fd s1,
             journal_fd (S fuel) K s = Some (fd, s1) -> 0 <= fd ->
             datagrams (trace s1) = datagrams (trace s) ->
             exists r s',
               sd_journal_sendv (S fuel) K (Some fs) n s = Some (r, s') /\
               ((r = 0 /\ datagrams (trace s') = datagrams (trace s) ++ [wire fs]) \/
                (exists k, sys_ret (K k) < 0 /\ r = - sys_errno (K k) /\
                           datagrams (trace s') = datagrams (trace s)))).
  { intros fd s1 Hjfd Hfd Hdg. eexists _, _. split.
    { apply (sendv_sends (S fuel) K fs n s s1 fd); assumption. }
    rewrite datagrams_log, Hdg. cbn [datagrams].
    pose proof (Herrno (length (trace s1))) as He. fold (reply K s1) in He.
    destruct (Z.ltb_spec (sys_ret (reply K s1)) 0) as [Hneg | Hge].
    - right. exists (length (trace s1)). fold (reply K s1).
      rewrite wrap_int_id by (unfold INT_MIN, INT_MAX in *; lia).
      split; [assumption|]. split; [reflexivity|apply app_nil_r].
    - left. split; reflexivity. }
  pose proof (journal_fd_cases fuel K s ltac:(lia)) as Hjfd.
  pose proof (Herrno (length (trace s))) as He. fold (reply K s) in He.
  destruct (Z.ltb_spec 0 (fd_plus_one s)) as [Hpub | Hnone].
  - apply (Hsend _ _ Hjfd); [|reflexivity].
    rewrite wrap_int_id by (unfold INT_MIN, INT_MAX in *; lia). lia.
  - destruct (Z.ltb_spec (sys_ret (reply K s)) 0) as [Hneg | Hge].
    + rewrite wrap_int_id in Hjfd by (unfold INT_MIN, INT_MAX in *; lia).
      eexists _, _. split.
      { apply (sendv_no_descriptor_returns (S fuel) K fs n s _ _ Hpos Hn Hint Hwf Hjfd).
        lia. }
      right. exists (length (trace s)). fold (reply K s).
      split; [assumption|]. split; [reflexivity|].
      rewrite datagrams_log. cbn [datagrams]. apply app_nil_r.
    + apply (Hsend _ _ Hjfd); [assumption|].
      cbn [set_fd_plus_one trace]. rewrite datagrams_log. cbn [datagrams].
      apply app_nil_r.
Qed.

(** X15: [sd_journal_printv] refuses no text.  Whatever the format
    expands to (empty, with '=' or newlines or NULs in it, longer than
    the buffer) and whatever the buffer held, the call returns 0 with the
    message as the one datagram, or a system call failed and the call
    returns minus the [errno] of that call; the text is never the reason
    of an error. *)
Theorem printv_fails_only_with_kernel
    (fuel : nat) (K : kernel) (buffer text : list byte) (s : World) :
  0 <= fd_plus_one s <= INT_MAX ->
  errno_set K ->
  exists r s',
    sd_journal_printv (S fuel) K buffer text s = Some (r, s') /\
    ((r = 0 /\
      datagrams (trace s') = datagrams (trace s) ++ [wire [message_field text]]) \/
     (exists k, sys_ret (K k) < 0 /\ r = - sys_errno (K k) /\
                datagrams (trace s') = datagrams (trace s))).
Proof.
  intros H0 Herrno.
  destruct (message_field_well_formed text) as (Hwf & Hfit & _ & _).
  rewrite printv_field.
  apply sendv_fails_with_kernel; try assumption.
  split; [lia|]. split; [reflexivity|]. split; [unfold INT_MAX; lia|].
  cbn [forallb]. now rewrite Hwf, Hfit.
Qed.

(** A text of control characters, sent while the journal refuses
    datagrams. *)
Lemma printv_fails_only_with_kernel_witness :
  exists r s',
    sd_journal_printv 1 kernel_refused stack_junk [NL; NL; NUL; EQ] world0
    = Some (r, s') /\
    ((r = 0 /\
      datagrams (trace s')
      = datagrams (trace world0) ++ [wire [message_field [NL; NL; NUL; EQ]]]) \/
     (exists k, sys_ret (kernel_refused k) < 0 /\ r = - sys_errno (kernel_refused k) /\
                datagrams (trace s') = datagrams (trace world0))).
Proof.
  apply (printv_fails_only_with_kernel 0 kernel_refused stack_junk [NL; NL; NUL; EQ] world0).
  - cbn. unfold INT_MAX. lia.
  - intros k. destruct k; cbn; unfold INT_MAX; lia.
Defined.
